(** * HistoMigrate: queueing pipelines, dirty-state executor and the
      Postgres history driver

    A shallow embedding of [migrate_extended.go],
    [database/driver_extended.go] and
    [database/postgres/postgres_extended.go].

    Go's [uint] and [int] are 64-bit machine integers, written here as [Z]
    with the conversions spelled out.  A channel is the list of values sent
    on it before it is closed.  The cooperative stop flag is an oracle
    indexed by the number of earlier polls. *)

From stdpp Require Import prelude strings gmap sorting.
From Stdlib Require Import ZArith Lia.
From Stdlib.Strings Require Byte.

Local Open Scope Z_scope.

(** ** Machine integers *)

Module GoInt.

Definition uint_of_int (i : Z) : Z := i mod 2 ^ 64.

Definition int_of_uint (u : Z) : Z :=
  let u' := u mod 2 ^ 64 in
  if u' <? 2 ^ 63 then u' else u' - 2 ^ 64.

End GoInt.
Export GoInt.

(** ** Errors *)

Inductive error : Type :=
| ErrNoChange                                    (* migrate.ErrNoChange *)
| ErrNotExist                                    (* os.ErrNotExist *)
| ErrNoRows                                      (* sql.ErrNoRows *)
| ErrorsNew (msg : string)                       (* errors.New(msg) *)
| PqError (codeName : string)                    (* *pq.Error, by Code.Name() *)
| DatabaseError (OrigErr : error) (info : string)(* &database.Error{...} *)
| Errorf (format : string) (version : Z) (wrapped : error)
                                                 (* fmt.Errorf("... %d: %w") *)
| MultierrorOf (err : error)                     (* multierror.Append(nil, err) *)
| MultierrorAppend (prev err : error).           (* multierror.Append(prev, err) *)

Global Instance error_eq_dec : EqDecision error.
Proof. solve_decision. Defined.

(** [errors.Is]: the error itself, or something it wraps. *)
Fixpoint errors_Is (err target : error) : bool :=
  if bool_decide (err = target) then true
  else match err with
       | Errorf _ _ wrapped => errors_Is wrapped target
       | MultierrorOf e => errors_Is e target
       | MultierrorAppend prev e => errors_Is prev target || errors_Is e target
       | _ => false
       end.

Inductive result (A : Type) : Type :=
| Ok (a : A)
| Err (e : error).
Arguments Ok {A} a.
Arguments Err {A} e.

(** ** Migration records and channel values *)

Global Instance byte_eq_dec : EqDecision Byte.byte := Byte.byte_eq_dec.

Definition bytes : Type := list Byte.byte.

(** Modelled from the spec: the Migration Record of migration.go, with the
    fields the pipelines and the executor use. *)
Record Migration : Type := mkMigration {
  Version : Z;                 (* uint *)
  TargetVersion : Z;           (* int *)
  UpKindMigration : bool;
  Body : option bytes          (* nil when the source has no script *)
}.

Global Instance Migration_eq_dec : EqDecision Migration.
Proof. solve_decision. Defined.

(** What [Buffer] leaves in the record once the body is read. *)
Definition BufferedBody (migr : Migration) : bytes := default [] (Body migr).

Definition setUpKindMigration (migr : Migration) (b : bool) : Migration :=
  {| Version := Version migr; TargetVersion := TargetVersion migr;
     UpKindMigration := b; Body := Body migr |}.

Inductive chan_value : Type :=
| SendErr (e : error)
| SendMigr (migr : Migration).

Global Instance chan_value_eq_dec : EqDecision chan_value.
Proof. solve_decision. Defined.

(** ** The source and driver contracts *)

(** Modelled from the spec: the source sequence contract of
    source/driver.go, as far as the pipelines navigate it. *)
Record SourceDrv : Type := {
  First : result Z;
  Next : Z → result Z;
  Prev : Z → result Z
}.

(** Modelled from the spec: [database.Driver] of database/driver.go, as far
    as the orchestrator uses it; [B] is the state of the backend. *)
Record Driver (B : Type) : Type := {
  Lock : B → B * option error;
  Unlock : B → B * option error;
  Run : bytes → B → B * option error;
  SetVersion : Z → bool → B → B * option error
}.
Arguments Lock {B} _ _.
Arguments Unlock {B} _ _.
Arguments Run {B} _ _ _.
Arguments SetVersion {B} _ _ _ _.

(** [database.ExtendedDriver]: a [Driver] and the history operations. *)
Record ExtendedDriver (B : Type) : Type := {
  Embedded : Driver B;
  GetAllAppliedMigrations : B → B * result (list Z);
  IsMigrationApplied : Z → B → B * (bool * option error);
  IsDatabaseDirty : B → B * (Z * bool * option error);
  AddDirtyMigration : Z → B → B * option error;
  UpdateMigrationDirtyFlag : Z → bool → B → B * option error;
  RemoveMigration : Z → B → B * option error
}.
Arguments Embedded {B} _.
Arguments GetAllAppliedMigrations {B} _ _.
Arguments IsMigrationApplied {B} _ _ _.
Arguments IsDatabaseDirty {B} _ _.
Arguments AddDirtyMigration {B} _ _ _.
Arguments UpdateMigrationDirtyFlag {B} _ _ _ _.
Arguments RemoveMigration {B} _ _ _.

(** The value held in [m.databaseDrv]; the type assertion
    [m.databaseDrv.(database.ExtendedDriver)] is a match on it. *)
Inductive DatabaseDrv (B : Type) : Type :=
| BasicDrv (d : Driver B)
| ExtendedDrv (ed : ExtendedDriver B).
Arguments BasicDrv {B} d.
Arguments ExtendedDrv {B} ed.

Definition asDriver {B : Type} (drv : DatabaseDrv B) : Driver B :=
  match drv with
  | BasicDrv d => d
  | ExtendedDrv ed => Embedded ed
  end.

(** The fields and helpers of [Migrate] that migrate_extended.go uses;
    [versionExists] and [stop] are helpers of migrate.go and stay
    parameters. *)
Record Migrate (B : Type) : Type := {
  sourceDrv : SourceDrv;
  databaseDrv : DatabaseDrv B;
  (* m.versionExists: nil, or the error for a version the source lacks *)
  versionExists : Z → option error;
  (* the source's script for (version, targetVersion), or an I/O error *)
  content : Z → Z → result (option bytes);
  (* m.stop(), by the number of earlier polls *)
  stop : nat → bool
}.
Arguments sourceDrv {B} _.
Arguments databaseDrv {B} _.
Arguments versionExists {B} _ _.
Arguments content {B} _ _ _.
Arguments stop {B} _ _.

Section Queueing.

Context {B : Type}.
Variable m : Migrate B.

(** Modelled from the spec: [newMigration] of migrate.go, which builds the
    Migration Record for a version and a target version; the record's
    content comes from the source, and reading it may fail. *)
Definition newMigration (version targetVersion : Z) : result Migration :=
  match content m version targetVersion with
  | Err e => Err e
  | Ok body =>
      Ok {| Version := version; TargetVersion := targetVersion;
            UpKindMigration := false; Body := body |}
  end.

(** The tail of both bulk pipelines: [if appliedCount == 0 { ret <- ErrNoChange }]. *)
Definition noChangeIfZero (appliedCount : Z) : list chan_value :=
  if appliedCount =? 0 then [SendErr ErrNoChange] else [].

(** The loop of [queueUpMigrations]; [None] when the fuel runs out. *)
Fixpoint queueUpLoop (fuel : nat) (appliedSet : gset Z) (limit : Z)
    (targetVersion appliedCount : Z) (polls : nat) : option (list chan_value) :=
  match fuel with
  | O => None
  | S fuel' =>
    if negb ((limit =? -1) || (appliedCount <? limit)) then
      Some (noChangeIfZero appliedCount)
    else if stop m polls then
      Some (noChangeIfZero appliedCount)
    else if bool_decide (int_of_uint targetVersion ∈ appliedSet) then
      match Next (sourceDrv m) targetVersion with
      | Err err =>
          if errors_Is err ErrNotExist then Some (noChangeIfZero appliedCount)
          else Some [SendErr err]
      | Ok next => queueUpLoop fuel' appliedSet limit next appliedCount (S polls)
      end
    else
      let appliedCount := appliedCount + 1 in
      match newMigration targetVersion (int_of_uint targetVersion) with
      | Err err => Some [SendErr err]
      | Ok migr =>
        let migr := setUpKindMigration migr true in
        cons (SendMigr migr) <$>
          match Next (sourceDrv m) targetVersion with
          | Err err =>
              if errors_Is err ErrNotExist then Some (noChangeIfZero appliedCount)
              else Some [SendErr err]
          | Ok next => queueUpLoop fuel' appliedSet limit next appliedCount (S polls)
          end
      end
  end.

Definition queueUpMigrations (fuel : nat) (appliedMigrs : list Z) (limit : Z)
    : option (list chan_value) :=
  let appliedSet : gset Z := list_to_set appliedMigrs in
  match First (sourceDrv m) with
  | Err err =>
      if errors_Is err ErrNotExist then Some [SendErr ErrNoChange]
      else Some [SendErr err]
  | Ok targetVersion => queueUpLoop fuel appliedSet limit targetVersion 0 0
  end.

Definition queueUpSingleMigration (version : Z) : list chan_value :=
  match versionExists m version with
  | Some err => [SendErr err]
  | None =>
    if stop m 0 then []
    else match newMigration version (int_of_uint version) with
         | Err err => [SendErr err]
         | Ok migr => [SendMigr (setUpKindMigration migr true)]
         end
  end.

(** The loop of [queueDownMigrations] from index [i], with [steps]
    iterations left; [None] is an index out of range. *)
Fixpoint queueDownLoop (steps : nat) (appliedMigrs : list Z) (limit : Z)
    (i : nat) (appliedCount : Z) : option (list chan_value) :=
  match steps with
  | O => Some (noChangeIfZero appliedCount)
  | S steps' =>
    if stop m i then Some (noChangeIfZero appliedCount)
    else if negb (limit =? -1) && (appliedCount >=? limit) then
      Some (noChangeIfZero appliedCount)
    else
      match appliedMigrs !! i with
      | None => None
      | Some a =>
        let version := uint_of_int a in
        match (if bool_decide (i = (length appliedMigrs - 1)%nat)
               then Some (-1) else appliedMigrs !! S i) with
        | None => None
        | Some targetVersion =>
          let appliedCount := appliedCount + 1 in
          match newMigration version targetVersion with
          | Err err => Some [SendErr err]
          | Ok migr =>
              cons (SendMigr migr) <$>
                queueDownLoop steps' appliedMigrs limit (S i) appliedCount
          end
        end
      end
  end.

Definition queueDownMigrations (appliedMigrs : list Z) (limit : Z)
    : option (list chan_value) :=
  if bool_decide (length appliedMigrs = 0%nat) || (limit =? 0) then
    Some [SendErr ErrNoChange]
  else queueDownLoop (length appliedMigrs) appliedMigrs limit 0 0.

Definition queueDownSingleMigration (version : Z) : list chan_value :=
  match versionExists m version with
  | Some err => [SendErr err]
  | None =>
    if stop m 0 then []
    else
      let targetVersion :=
        match Prev (sourceDrv m) version with
        | Err err => if errors_Is err ErrNotExist then Ok (-1) else Err err
        | Ok prev => Ok (int_of_uint prev)
        end in
      match targetVersion with
      | Err err => [SendErr err]
      | Ok targetVersion =>
        match newMigration version targetVersion with
        | Err err => [SendErr err]
        | Ok migr => [SendMigr migr]
        end
      end
  end.

End Queueing.

(** ** The consumer side: executor and single-version operations *)

(** The calls the orchestrator makes on the driver. *)
Inductive Call : Type :=
| CLock
| CUnlock
| CRun (migration : bytes)
| CSetVersion (version : Z) (dirty : bool)
| CIsMigrationApplied (version : Z)
| CAddDirtyMigration (version : Z)
| CUpdateMigrationDirtyFlag (version : Z) (dirty : bool)
| CRemoveMigration (version : Z).

Global Instance Call_eq_dec : EqDecision Call.
Proof. solve_decision. Defined.

Section Orchestrator.

Context {B : Type}.

(** The backend, the driver calls made so far, each with the backend it
    left, and the values the pipelines have sent. *)
Record World : Type := {
  backend : B;
  trace : list (Call * B);
  sent : list chan_value
}.

Definition step : Type := World → World * option error.

Definition skip : step := λ w, (w, None).

Definition andThen (s1 s2 : step) : step := λ w,
  match s1 w with
  | (w', None) => s2 w'
  | (w', Some err) => (w', Some err)
  end.

(** [if err := s; err != nil { return fmt.Errorf(format, version, err) }] *)
Definition orErrorf (format : string) (version : Z) (s : step) : step := λ w,
  match s w with
  | (w', None) => (w', None)
  | (w', Some err) => (w', Some (Errorf format version err))
  end.

Definition logged (c : Call) (w : World) (b : B) : World :=
  {| backend := b; trace := trace w ++ [(c, b)]; sent := sent w |}.

Variable m : Migrate B.

Definition notExtended : error := ErrorsNew "driver type is not right".

(** What the driver does for one call; the history calls exist on an
    [ExtendedDriver] only. *)
Definition exec_call (c : Call) (b : B) : B * option error :=
  match c, databaseDrv m with
  | CLock, drv => Lock (asDriver drv) b
  | CUnlock, drv => Unlock (asDriver drv) b
  | CRun migration, drv => Run (asDriver drv) migration b
  | CSetVersion version dirty, drv => SetVersion (asDriver drv) version dirty b
  | CIsMigrationApplied version, ExtendedDrv ed =>
      let '(b', (_, err)) := IsMigrationApplied ed version b in (b', err)
  | CAddDirtyMigration version, ExtendedDrv ed => AddDirtyMigration ed version b
  | CUpdateMigrationDirtyFlag version dirty, ExtendedDrv ed =>
      UpdateMigrationDirtyFlag ed version dirty b
  | CRemoveMigration version, ExtendedDrv ed => RemoveMigration ed version b
  | _, BasicDrv _ => (b, Some notExtended)
  end.

Definition invoke (c : Call) : step := λ w,
  let '(b, err) := exec_call c (backend w) in (logged c w b, err).

Definition handleSingleMigration (migr : Migration) : step :=
  andThen
    match databaseDrv m with
    | ExtendedDrv _ =>
      if UpKindMigration migr then
        orErrorf "failed to add dirty migration for version %d: %w" (Version migr)
          (invoke (CAddDirtyMigration (Version migr)))
      else
        orErrorf "failed to set dirty flag for version %d: %w" (Version migr)
          (invoke (CUpdateMigrationDirtyFlag (Version migr) true))
    | BasicDrv _ =>
        orErrorf "failed to set dirty version %d: %w" (TargetVersion migr)
          (invoke (CSetVersion (TargetVersion migr) true))
    end
 (andThen
    match Body migr with
    | Some _ =>
        orErrorf "failed to run migration %d body: %w" (Version migr)
          (invoke (CRun (BufferedBody migr)))
    | None => skip
    end
    match databaseDrv m with
    | ExtendedDrv _ =>
      if UpKindMigration migr then
        orErrorf "failed to clear dirty flag for version %d: %w" (Version migr)
          (invoke (CUpdateMigrationDirtyFlag (Version migr) false))
      else
        orErrorf "failed to remove migration for version %d: %w" (Version migr)
          (invoke (CRemoveMigration (Version migr)))
    | BasicDrv _ =>
        orErrorf "failed to set clean version %d: %w" (TargetVersion migr)
          (invoke (CSetVersion (TargetVersion migr) false))
    end).

(** Modelled from the spec: the consumer loop [runMigrations] of
    migrate.go reads the channel until it is closed; an error or sentinel
    is surfaced at once, a record goes to the executor, and nothing is
    consumed past the first executor failure. *)
Fixpoint runMigrations (ret : list chan_value) : step :=
  match ret with
  | [] => skip
  | SendErr err :: _ => λ w, (w, Some err)
  | SendMigr migr :: ret' => andThen (handleSingleMigration migr) (runMigrations ret')
  end.

(** Modelled from the spec: [lock] of migrate.go takes the driver's lock
    for the whole operation. *)
Definition lock : step := invoke CLock.

(** Modelled from the spec: [unlockErr] of migrate.go releases the lock on
    every exit path and hands back the operation's error; an error of the
    release itself is appended to it. *)
Definition unlockErr (prevErr : option error) : step := λ w,
  match invoke CUnlock w with
  | (w', None) => (w', prevErr)
  | (w', Some err) =>
      (w', Some match prevErr with
                | Some prev => MultierrorAppend prev err
                | None => MultierrorOf err
                end)
  end.

(** [go m.queue...(version, ret)]: the values the pipeline sends. *)
Definition spawn (ret : list chan_value) (w : World) : World :=
  {| backend := backend w; trace := trace w; sent := sent w ++ ret |}.

Definition isMigrationApplied (ed : ExtendedDriver B) (version : Z) (w : World)
    : World * (bool * option error) :=
  let '(b, r) := IsMigrationApplied ed version (backend w) in
  (logged (CIsMigrationApplied version) w b, r).

Definition DoMigration (version : Z) : step := λ w,
  match lock w with
  | (w, Some err) => (w, Some err)
  | (w, None) =>
    match databaseDrv m with
    | ExtendedDrv ed =>
      let '(w, (isApplied, err)) := isMigrationApplied ed version w in
      match err with
      | Some err => unlockErr (Some err) w
      | None =>
        if isApplied then unlockErr (Some ErrNoChange) w
        else
          let ret := queueUpSingleMigration m version in
          let '(w, err) := runMigrations ret (spawn ret w) in
          unlockErr err w
      end
    | BasicDrv _ => unlockErr (Some notExtended) w
    end
  end.

Definition UndoMigration (version : Z) : step := λ w,
  match lock w with
  | (w, Some err) => (w, Some err)
  | (w, None) =>
    match databaseDrv m with
    | ExtendedDrv ed =>
      let '(w, (isApplied, err)) := isMigrationApplied ed version w in
      match err with
      | Some err => unlockErr (Some err) w
      | None =>
        if negb isApplied then unlockErr (Some ErrNoChange) w
        else
          let ret := queueDownSingleMigration m version in
          let '(w, err) := runMigrations ret (spawn ret w) in
          unlockErr err w
      end
    | BasicDrv _ => unlockErr (Some notExtended) w
    end
  end.

End Orchestrator.

(** ** The Postgres history driver *)

Module Postgres.

(** The statements and queries of postgres_extended.go on the migrations
    table. *)
Inductive Stmt : Type :=
| InsertTimestamp (version : Z)
    (* INSERT INTO s.t (migration_timestamp) VALUES ($1) *)
| UpdateDirty (dirty : bool) (version : Z)
    (* UPDATE s.t SET dirty = $1, applied_at = NOW() WHERE migration_timestamp = $2 *)
| DeleteTimestamp (version : Z).
    (* DELETE FROM s.t WHERE migration_timestamp = $1; *)

(** Where a call on the connection can fail for reasons of its own. *)
Inductive ConnOp : Type :=
| OpBeginTx | OpExec | OpRollback | OpCommit | OpQuery | OpScan | OpRowsErr.

Definition undefined_table : error := PqError "undefined_table".
Definition unique_violation : error := PqError "unique_violation".

(** Modelled from the spec: the migrations table that [ensureVersionTable]
    of postgres.go creates holds one row per applied version, keyed by
    [migration_timestamp], and a row inserted without a [dirty] value is
    dirty.  The table maps each timestamp to its dirty flag; [applied_at]
    is never read and is left out. *)
Definition sql_exec (stmt : Stmt) (table : option (gmap Z bool))
    : result (gmap Z bool) :=
  match table with
  | None => Err undefined_table
  | Some rows =>
    match stmt with
    | InsertTimestamp version =>
        match rows !! version with
        | Some _ => Err unique_violation
        | None => Ok (<[version := true]> rows)
        end
    | UpdateDirty dirty version => Ok (alter (λ _, dirty) version rows)
    | DeleteTimestamp version => Ok (delete version rows)
    end
  end.

(** SELECT migration_timestamp FROM s.t ORDER BY migration_timestamp DESC *)
Definition select_timestamps_desc (table : option (gmap Z bool)) : result (list Z) :=
  match table with
  | None => Err undefined_table
  | Some rows => Ok (merge_sort Z.ge (map_to_list rows).*1)
  end.

(** SELECT COUNT( * ) > 0 FROM s.t WHERE migration_timestamp = $1; *)
Definition select_is_applied (version : Z) (table : option (gmap Z bool)) : result bool :=
  match table with
  | None => Err undefined_table
  | Some rows => Ok (bool_decide (is_Some (rows !! version)))
  end.

(** SELECT migration_timestamp FROM s.t WHERE dirty = true LIMIT 1 *)
Definition select_dirty (table : option (gmap Z bool)) : result Z :=
  match table with
  | None => Err undefined_table
  | Some rows =>
    match filter (λ row, row.2 = true) (map_to_list rows) with
    | [] => Err ErrNoRows
    | row :: _ => Ok row.1
    end
  end.

Section Driver.

(** The rest of the database, and what a script does to it. *)
Context {D : Type}.

Record Postgres : Type := {
  migrations : option (gmap Z bool);
  database : D
}.

Variable run_script : bytes → D → D * option error.
Variable fault : ConnOp → Postgres → option error.

Definition withMigrations (p : Postgres) (rows : gmap Z bool) : Postgres :=
  {| migrations := Some rows; database := database p |}.

(** [tx.Exec(query, args...)] inside an open transaction. *)
Definition txExec (stmt : Stmt) (p : Postgres) : result (gmap Z bool) :=
  match fault OpExec p with
  | Some err => Err err
  | None => sql_exec stmt (migrations p)
  end.

(** The body shared by the three writers: begin, exec, roll back on
    failure, commit. *)
Definition inTransaction (startFailed commitFailed query : string)
    (stmt : Stmt) (p : Postgres) : Postgres * option error :=
  match fault OpBeginTx p with
  | Some err => (p, Some (DatabaseError err startFailed))
  | None =>
    match txExec stmt p with
    | Err execErr =>
        let execErr :=
          match fault OpRollback p with
          | Some rbErr => MultierrorAppend execErr rbErr
          | None => execErr
          end in
        (p, Some (DatabaseError execErr query))
    | Ok rows =>
        match fault OpCommit p with
        | Some err => (p, Some (DatabaseError err commitFailed))
        | None => (withMigrations p rows, None)
        end
    end
  end.

(** The [uint] version reaches the statement as [database/sql] converts a
    [uint] argument, [int64(version)]: from 2^63 on the row written, flagged
    or deleted is that of [version - 2^64]. *)
Definition AddDirtyMigration (version : Z) : Postgres → Postgres * option error :=
  inTransaction "failed to start transaction" "failed to commit transaction"
    "INSERT INTO %s.%s (migration_timestamp) VALUES ($1)"
    (InsertTimestamp (int_of_uint version)).

Definition UpdateMigrationDirtyFlag (version : Z) (dirty : bool)
    : Postgres → Postgres * option error :=
  inTransaction "failed to start transaction" "failed to commit transaction"
    "UPDATE %s.%s SET dirty = $1, applied_at = NOW() WHERE migration_timestamp = $2"
    (UpdateDirty dirty (int_of_uint version)).

Definition RemoveMigration (version : Z) : Postgres → Postgres * option error :=
  inTransaction "transaction start failed" "transaction commit failed"
    "DELETE FROM %s.%s WHERE migration_timestamp = $1;"
    (DeleteTimestamp (int_of_uint version)).

(** [QueryRowContext(...).Scan(&x)] and [QueryContext(...)]. *)
Definition queryRow {A : Type} (q : option (gmap Z bool) → result A)
    (p : Postgres) : result A :=
  match fault OpQuery p with
  | Some err => Err err
  | None => q (migrations p)
  end.

Definition isUndefinedTable (err : error) : bool :=
  match err with
  | PqError codeName => bool_decide (codeName = "undefined_table")
  | _ => false
  end.

(** The scan loop: [appliedMigrations = append(appliedMigrations, migrTs)].
    The error of the deferred [rows.Close] is assigned to a local and never
    returned. *)
Fixpoint scanRows (p : Postgres) (rows : list Z) (appliedMigrations : list Z)
    : result (list Z) :=
  match rows with
  | [] => Ok appliedMigrations
  | migrTs :: rows' =>
    match fault OpScan p with
    | Some err => Err err
    | None => scanRows p rows' (appliedMigrations ++ [migrTs])
    end
  end.

Definition GetAllAppliedMigrations (p : Postgres) : Postgres * result (list Z) :=
  let query :=
    "SELECT migration_timestamp FROM %s.%s ORDER BY migration_timestamp DESC" in
  match queryRow select_timestamps_desc p with
  | Err err => (p, Err (DatabaseError err query))
  | Ok rows =>
    match scanRows p rows [] with
    | Err err => (p, Err (DatabaseError err query))
    | Ok appliedMigrations =>
      match fault OpRowsErr p with
      | Some err => (p, Err (DatabaseError err query))
      | None => (p, Ok appliedMigrations)
      end
    end
  end.

(** The query's argument is [int64(version)] as well. *)
Definition IsMigrationApplied (version : Z) (p : Postgres)
    : Postgres * (bool * option error) :=
  let query :=
    "SELECT COUNT(" +:+ "*) > 0 FROM %s.%s WHERE migration_timestamp = $1;" in
  match queryRow (select_is_applied (int_of_uint version)) p with
  | Err err =>
      if bool_decide (err = ErrNoRows) then (p, (false, None))
      else if isUndefinedTable err then (p, (false, None))
      else (p, (false, Some (DatabaseError err query)))
  | Ok isApplied => (p, (isApplied, None))
  end.

Definition IsDatabaseDirty (p : Postgres) : Postgres * (Z * bool * option error) :=
  let query := "SELECT migration_timestamp FROM %s.%s WHERE dirty = true LIMIT 1" in
  match queryRow select_dirty p with
  | Err err =>
      if isUndefinedTable err then (p, (0, false, None))
      else if errors_Is err ErrNoRows then (p, (0, false, None))
      else (p, (0, false, Some (DatabaseError err query)))
  | Ok migr => (p, (migr, true, None))
  end.

(** Modelled from the spec: [Run] of postgres.go executes the raw script
    against the database; a migration script leaves the migrations
    table alone. *)
Definition Run (migration : bytes) (p : Postgres) : Postgres * option error :=
  let '(d, err) := run_script migration (database p) in
  ({| migrations := migrations p; database := d |}, err).

(** The embedded driver's lock and version pointer are postgres.go's and
    stay parameters. *)
Variable pgLock pgUnlock : Postgres → Postgres * option error.
Variable pgSetVersion : Z → bool → Postgres → Postgres * option error.

Definition PostgresExtras : ExtendedDriver Postgres :=
  Build_ExtendedDriver Postgres
    (Build_Driver Postgres pgLock pgUnlock Run pgSetVersion)
    GetAllAppliedMigrations IsMigrationApplied IsDatabaseDirty
    AddDirtyMigration UpdateMigrationDirtyFlag RemoveMigration.

End Driver.

End Postgres.

(** ** What the pipelines are expected to send *)

Section Expected.

Context {B : Type}.
Variable m : Migrate B.

(** The versions the source enumerates from [v] on with [Next], up to the
    end of the sequence; [None] on an I/O error or when the fuel runs out. *)
Fixpoint versions_from (fuel : nat) (v : Z) : option (list Z) :=
  match fuel with
  | O => None
  | S fuel' =>
    match Next (sourceDrv m) v with
    | Ok next => cons v <$> versions_from fuel' next
    | Err err => if errors_Is err ErrNotExist then Some [v] else None
    end
  end.

Definition source_versions (fuel : nat) : option (list Z) :=
  match First (sourceDrv m) with
  | Ok v => versions_from fuel v
  | Err err => if errors_Is err ErrNotExist then Some [] else None
  end.

(** [l] is what [Next] enumerates from [v] on. *)
Fixpoint enumerates (v : Z) (l : list Z) : Prop :=
  match l with
  | [] => False
  | v' :: l' =>
    v' = v ∧
    match l' with
    | [] => ∃ err, Next (sourceDrv m) v = Err err ∧ errors_Is err ErrNotExist = true
    | next :: _ => Next (sourceDrv m) v = Ok next ∧ enumerates next l'
    end
  end.

(** How many of [n] polls, the first being poll [from], come before the
    stop flag is seen. *)
Fixpoint polls_before_stop (from n : nat) : nat :=
  match n with
  | O => O
  | S n' => if stop m from then O else S (polls_before_stop (S from) n')
  end.

(** What is left of a limit after [count] records; [None] is no limit. *)
Definition remaining (limit count : Z) : option nat :=
  if limit =? -1 then None else Some (Z.to_nat (limit - count)).

Definition take_remaining {A : Type} (r : option nat) (l : list A) : list A :=
  match r with
  | None => l
  | Some n => take n l
  end.

(** The source hands over the script of a record without an I/O error. *)
Definition contentOk (version targetVersion : Z) : Prop :=
  ∃ body, content m version targetVersion = Ok body.

Definition scriptOf (version targetVersion : Z) : option bytes :=
  match content m version targetVersion with
  | Ok body => body
  | Err _ => None
  end.

Definition upRecord (v : Z) : Migration :=
  {| Version := v; TargetVersion := int_of_uint v; UpKindMigration := true;
     Body := scriptOf v (int_of_uint v) |}.

(** The source versions a bulk Up run enqueues: those visited before the
    stop flag is seen that are not applied, cut at the limit. *)
Definition upCandidates (appliedMigrs : list Z) (limit : Z) (l : list Z) : list Z :=
  take_remaining (remaining limit 0)
    (filter (λ v, int_of_uint v ∉ appliedMigrs)
       (take (polls_before_stop 0 (length l)) l)).

(** Every applied version with the target of its Down record: the next
    element of the list, or -1 for the last. *)
Fixpoint downTargets (appliedMigrs : list Z) : list (Z * Z) :=
  match appliedMigrs with
  | [] => []
  | a :: rest => (a, hd (-1) rest) :: downTargets rest
  end.

Definition downRecord (at_ : Z * Z) : Migration :=
  {| Version := uint_of_int at_.1; TargetVersion := at_.2;
     UpKindMigration := false;
     Body := scriptOf (uint_of_int at_.1) at_.2 |}.

Definition downCandidates (appliedMigrs : list Z) (limit : Z) : list (Z * Z) :=
  take_remaining (remaining limit 0)
    (take (polls_before_stop 0 (length appliedMigrs)) (downTargets appliedMigrs)).

Definition noChangeIfNone {A : Type} (records : list A) : list chan_value :=
  match records with
  | [] => [SendErr ErrNoChange]
  | _ :: _ => []
  end.

End Expected.

(** ** What the executor is expected to call *)

Section ExpectedCalls.

Context {B : Type}.
Variable m : Migrate B.

(** Step 1: mark dirty. *)
Definition markDirty (migr : Migration) : Call :=
  match databaseDrv m with
  | ExtendedDrv _ =>
      if UpKindMigration migr then CAddDirtyMigration (Version migr)
      else CUpdateMigrationDirtyFlag (Version migr) true
  | BasicDrv _ => CSetVersion (TargetVersion migr) true
  end.

(** Step 2: run the buffered content, if the record has a body. *)
Definition runBody (migr : Migration) : list Call :=
  match Body migr with
  | Some _ => [CRun (BufferedBody migr)]
  | None => []
  end.

(** Step 3: mark clean. *)
Definition markClean (migr : Migration) : Call :=
  match databaseDrv m with
  | ExtendedDrv _ =>
      if UpKindMigration migr then CUpdateMigrationDirtyFlag (Version migr) false
      else CRemoveMigration (Version migr)
  | BasicDrv _ => CSetVersion (TargetVersion migr) false
  end.

Definition executorSteps (migr : Migration) : list Call :=
  markDirty migr :: runBody migr ++ [markClean migr].

(** The calls of a list made in order, up to the first that fails. *)
Fixpoint callInOrder (cs : list Call) : step :=
  match cs with
  | [] => skip
  | c :: cs' => andThen (invoke m c) (callInOrder cs')
  end.

(** The version a driver error is reported with: the version handed to the
    marker call, and the record's own version for its body. *)
Definition reportedVersion (migr : Migration) (c : Call) : Z :=
  match c with
  | CSetVersion version _ => version
  | _ => Version migr
  end.

End ExpectedCalls.

(** A call other than taking and releasing the lock. *)
Definition workCall (c : Call) : Prop := c ≠ CLock ∧ c ≠ CUnlock.

(** ** The basic backend *)

Module Pointer.

Section Driver.

Context {D : Type}.

(** Modelled from the spec: the applied state of a Basic backend is a
    single (version, dirty) pointer; [SetVersion] overwrites it and [Run]
    executes the script against the rest of the database. *)
Record Basic : Type := {
  version : Z;
  dirty : bool;
  database : D
}.

Variable run_script : bytes → D → D * option error.
Variable fault : Basic → option error.

Definition SetVersion (v : Z) (d : bool) (p : Basic) : Basic * option error :=
  match fault p with
  | Some err => (p, Some err)
  | None => ({| version := v; dirty := d; database := database p |}, None)
  end.

Definition Run (migration : bytes) (p : Basic) : Basic * option error :=
  let '(d, err) := run_script migration (database p) in
  ({| version := version p; dirty := dirty p; database := d |}, err).

Variable basicLock basicUnlock : Basic → Basic * option error.

Definition driver : Driver Basic :=
  Build_Driver Basic basicLock basicUnlock Run SetVersion.

End Driver.

End Pointer.

(** ** Dirty markers of the history table *)

Section Markers.

Context {D : Type}.

(** No row of the migrations table is dirty. *)
Definition clean (p : @Postgres.Postgres D) : Prop :=
  ∀ rows v, Postgres.migrations p = Some rows → rows !! v ≠ Some true.

(** No row other than that of [version] is dirty. *)
Definition dirtyOnly (version : Z) (p : @Postgres.Postgres D) : Prop :=
  ∀ rows v, Postgres.migrations p = Some rows → rows !! v = Some true → v = version.

(** The row of [version] is there and dirty. *)
Definition marked (version : Z) (p : @Postgres.Postgres D) : Prop :=
  ∃ rows, Postgres.migrations p = Some rows ∧ rows !! version = Some true.

Definition atMostOneDirty (p : @Postgres.Postgres D) : Prop :=
  ∀ rows v1 v2, Postgres.migrations p = Some rows →
    rows !! v1 = Some true → rows !! v2 = Some true → v1 = v2.

End Markers.

(** The migrator drives the Postgres history driver over a connection on
    which nothing fails, the lock is free and every script succeeds. *)
Definition healthyPostgres {D : Type} (m : Migrate (@Postgres.Postgres D)) : Prop :=
  ∃ run_script pgSetVersion,
    databaseDrv m = ExtendedDrv
      (Postgres.PostgresExtras run_script (λ _ _, None)
         (λ p, (p, None)) (λ p, (p, None)) pgSetVersion) ∧
    ∀ migration d, (run_script migration d).2 = None.

(** ** Scenarios: the sample migrations of the test suite *)

Module Scenario.

(** A source over an ascending list of versions. *)
Fixpoint nextIn (versions : list Z) (v : Z) : result Z :=
  match versions with
  | a :: rest =>
      if decide (a = v) then
        match rest with
        | b :: _ => Ok b
        | [] => Err ErrNotExist
        end
      else nextIn rest v
  | [] => Err ErrNotExist
  end.

Fixpoint prevIn (versions : list Z) (v : Z) : result Z :=
  match versions with
  | a :: rest =>
      match rest with
      | b :: _ => if decide (b = v) then Ok a else prevIn rest v
      | [] => Err ErrNotExist
      end
  | [] => Err ErrNotExist
  end.

Definition listSource (versions : list Z) : SourceDrv :=
  {| First := match versions with
              | v :: _ => Ok v
              | [] => Err ErrNotExist
              end;
     Next := nextIn versions;
     Prev := prevIn versions |}.

Definition samples : list Z :=
  [20250101000130; 20250101000135; 20250101000140].

Definition noMigrationFound (version : Z) : error :=
  Errorf "no migration found for version %d: %w" version ErrNotExist.

(** A migrator over [versions] with the given scripts and stop flag. *)
Definition migratorWith {B : Type} (scripts : Z → bytes) (drv : DatabaseDrv B)
    (versions : list Z) (stopped : nat → bool) : Migrate B :=
  {| sourceDrv := listSource versions;
     databaseDrv := drv;
     versionExists := λ v,
       if decide (v ∈ versions) then None else Some (noMigrationFound v);
     content := λ v _, Ok (Some (scripts v));
     stop := stopped |}.

(** A migrator whose scripts are all empty. *)
Definition migrator {B : Type}
    : DatabaseDrv B → list Z → (nat → bool) → Migrate B :=
  migratorWith (λ _, []).

(** A driver without state that never fails. *)
Definition idle : Driver unit :=
  {| Lock := λ b, (b, None); Unlock := λ b, (b, None);
     Run := λ _ b, (b, None); SetVersion := λ _ _ b, (b, None) |}.

Definition running : nat → bool := λ _, false.
Definition stopped : nat → bool := λ _, true.

(** A script the database rejects, and a database that keeps the scripts
    it has run. *)
Definition corrupted : bytes := [Byte.xff].

Definition run_script (migration : bytes) (d : list bytes)
    : list bytes * option error :=
  if decide (migration = corrupted) then (d, Some (PqError "syntax_error"))
  else (d ++ [migration], None).

(** A connection on which nothing fails by itself. *)
Definition healthy {P : Type} : Postgres.ConnOp → P → option error := λ _ _, None.

Definition unlocked {P : Type} : P → P * option error := λ p, (p, None).

Definition postgres : ExtendedDriver (@Postgres.Postgres (list bytes)) :=
  Postgres.PostgresExtras run_script healthy unlocked unlocked
    (λ _ _ p, (p, None)).

(** The migrations table right after [ensureVersionTable]. *)
Definition fresh : @Postgres.Postgres (list bytes) :=
  {| Postgres.migrations := Some ∅; Postgres.database := [] |}.

Definition start {B : Type} (b : B) : @World B :=
  {| backend := b; trace := []; sent := [] |}.

(** The corrupted samples: the script of 20250101000135 is rejected. *)
Definition oneCorrupted (v : Z) : bytes :=
  if decide (v = 20250101000135) then corrupted else [].

Definition upOf (scripts : Z → bytes) (v : Z) : Migration :=
  {| Version := v; TargetVersion := v; UpKindMigration := true;
     Body := Some (scripts v) |}.

Definition onPostgres (scripts : Z → bytes)
    : Migrate (@Postgres.Postgres (list bytes)) :=
  migratorWith scripts (ExtendedDrv postgres) samples running.

(** The world after [DoMigration] of the corrupted sample on a fresh
    history. *)
Definition halfApplied : @World (@Postgres.Postgres (list bytes)) :=
  (DoMigration (onPostgres oneCorrupted) 20250101000135 (start fresh)).1.

(** A database that accepts every script, and the driver over it. *)
Definition accept (migration : bytes) (d : list bytes)
    : list bytes * option error :=
  (d ++ [migration], None).

Definition accepting : ExtendedDriver (@Postgres.Postgres (list bytes)) :=
  Postgres.PostgresExtras accept (λ _ _, None) (λ p, (p, None))
    (λ p, (p, None)) (λ _ _ p, (p, None)).

Definition onAccepting : Migrate (@Postgres.Postgres (list bytes)) :=
  migrator (ExtendedDrv accepting) samples running.

End Scenario.

(** ** Opening the driver on a connection (postgres_extended.go) *)

Module Connect.

(** The fields of [Config] that [WithConnection] reads or writes. *)
Record Config : Type := mkConfig {
  MigrationsTable : string;
  MigrationsTableQuoted : bool;
  DatabaseName : string;
  SchemaName : string;
  migrationsSchemaName : string;
  migrationsTableName : string
}.

Definition withDatabaseName (v : string) (c : Config) : Config :=
  mkConfig (MigrationsTable c) (MigrationsTableQuoted c) v (SchemaName c)
    (migrationsSchemaName c) (migrationsTableName c).

Definition withSchemaName (v : string) (c : Config) : Config :=
  mkConfig (MigrationsTable c) (MigrationsTableQuoted c) (DatabaseName c) v
    (migrationsSchemaName c) (migrationsTableName c).

Definition withMigrationsTable (v : string) (c : Config) : Config :=
  mkConfig v (MigrationsTableQuoted c) (DatabaseName c) (SchemaName c)
    (migrationsSchemaName c) (migrationsTableName c).

Definition withMigrationsSchemaName (v : string) (c : Config) : Config :=
  mkConfig (MigrationsTable c) (MigrationsTableQuoted c) (DatabaseName c)
    (SchemaName c) v (migrationsTableName c).

Definition withMigrationsTableName (v : string) (c : Config) : Config :=
  mkConfig (MigrationsTable c) (MigrationsTableQuoted c) (DatabaseName c)
    (SchemaName c) (migrationsSchemaName c) v.

(** What [WithConnection] returns in place of a driver. *)
Inductive open_error : Type :=
| ErrNilConfig
| ErrNoDatabaseName
| ErrNoSchema
| OfConn (err : error)           (* the error of PingContext or of ensureVersionTable *)
| QueryError (OrigErr : error) (Query : string)  (* &database.Error{OrigErr, Query} *)
| TooManyDots (table : string).  (* fmt.Errorf: MigrationsTable contains too many dot characters *)

Inductive outcome : Type :=
| Opened (px : Config)           (* a driver on this config, nil *)
| Failed (err : open_error)      (* nil, err *)
| Panicked.                      (* index out of range *)

(** What the connection answers: the ping, the two queries as scanned
    (CURRENT_SCHEMA into a sql.NullString), and [ensureVersionTable] of
    postgres.go on the driver built from the config. *)
Record Conn : Type := mkConn {
  PingContext : option error;
  current_database : result string;
  current_schema : result (option string);
  ensureVersionTable : Config → option error
}.

(** *** The regular expression of the quoted table name *)

Definition quote : Ascii.ascii := Ascii.Ascii false true false false false true false false.
Definition newline : Ascii.ascii := Ascii.Ascii false true false true false false false false.

Definition quoted (group : string) : string :=
  String quote (group +:+ String quote EmptyString).

(** The lazy group after an opening quote: the text up to the next quote,
    with the text after that quote.  The dot matches no newline, so there
    is no match when a newline comes first. *)
Fixpoint closing (s : string) : option (string * string) :=
  match s with
  | EmptyString => None
  | String c rest =>
      if Ascii.eqb c quote then Some (EmptyString, rest)
      else if Ascii.eqb c newline then None
      else prod_map (String c) id <$> closing rest
  end.

(** The matches from left to right, each as (whole match, group 1).
    [inMatch] counts the characters still to pass of the match found last:
    the search goes on after it.  At a quote that opens no match the
    search goes on at the next character. *)
Fixpoint findFrom (inMatch : nat) (s : string) : list (string * string) :=
  match s with
  | EmptyString => []
  | String c rest =>
      match inMatch with
      | S n => findFrom n rest
      | O =>
          if Ascii.eqb c quote then
            match closing rest with
            | Some (group, _) =>
                (quoted group, group) :: findFrom (S (String.length group)) rest
            | None => findFrom O rest
            end
          else findFrom O rest
      end
  end.

(** [re.FindAllStringSubmatch(s, -1)] for the expression of line 76, a
    quote, a lazy group of any characters, a quote. *)
Definition FindAllStringSubmatch (s : string) : list (string * string) :=
  findFrom O s.

(** *** WithConnection *)

Section WithConnection.

(** The constant of postgres.go. *)
Variable DefaultMigrationsTable : string.

(** Lines 41-53. *)
Definition databaseName (conn : Conn) (config : Config) : Config + open_error :=
  if bool_decide (DatabaseName config = EmptyString) then
    match current_database conn with
    | Err err => inr (QueryError err "SELECT CURRENT_DATABASE()")
    | Ok name =>
        if (String.length name =? 0)%nat then inr ErrNoDatabaseName
        else inl (withDatabaseName name config)
    end
  else inl config.

(** Lines 55-67. *)
Definition schemaName (conn : Conn) (config : Config) : Config + open_error :=
  if bool_decide (SchemaName config = EmptyString) then
    match current_schema conn with
    | Err err => inr (QueryError err "SELECT CURRENT_SCHEMA()")
    | Ok None => inr ErrNoSchema
    | Ok (Some name) => inl (withSchemaName name config)
    end
  else inl config.

(** Lines 69-74. *)
Definition plainNames (config : Config) : Config :=
  let config :=
    if (String.length (MigrationsTable config) =? 0)%nat
    then withMigrationsTable DefaultMigrationsTable config
    else config in
  withMigrationsTableName (MigrationsTable config)
    (withMigrationsSchemaName (SchemaName config) config).

(** Lines 75-84: the config as it is left, and how the function ends
    there if it does. *)
Definition quotedNames (config : Config) : Config * option outcome :=
  if MigrationsTableQuoted config then
    let result := FindAllStringSubmatch (MigrationsTable config) in
    match last result with
    | None => (config, Some Panicked)
    | Some table =>
        let config := withMigrationsTableName table.2 config in
        if (length result =? 2)%nat then
          match result !! O with
          | Some schema => (withMigrationsSchemaName schema.2 config, None)
          | None => (config, Some Panicked)
          end
        else if (2 <? length result)%nat then
          (config, Some (Failed (TooManyDots (MigrationsTable config))))
        else (config, None)
    end
  else (config, None).

(** The config behind the caller's pointer after the call, and what the
    call returns. *)
Definition WithConnection (conn : Conn) (config : option Config)
    : option Config * outcome :=
  match config with
  | None => (None, Failed ErrNilConfig)
  | Some config =>
    match PingContext conn with
    | Some err => (Some config, Failed (OfConn err))
    | None =>
      match databaseName conn config with
      | inr err => (Some config, Failed err)
      | inl config =>
        match schemaName conn config with
        | inr err => (Some config, Failed err)
        | inl config =>
          match quotedNames (plainNames config) with
          | (config, Some ended) => (Some config, ended)
          | (config, None) =>
              match ensureVersionTable conn config with
              | Some err => (Some config, Failed (OfConn err))
              | None => (Some config, Opened config)
              end
          end
        end
      end
    end
  end.

End WithConnection.

(** *** Table names and connections to state the facts with *)

Fixpoint lacks (c : Ascii.ascii) (s : string) : bool :=
  match s with
  | EmptyString => true
  | String c' rest => negb (Ascii.eqb c' c) && lacks c rest
  end.

(** Quoted groups, each followed by text without a quote. *)
Fixpoint joined (parts : list (string * string)) : string :=
  match parts with
  | [] => EmptyString
  | (group, sep) :: rest => quoted group +:+ sep +:+ joined rest
  end.

Definition wellFormed (parts : list (string * string)) : Prop :=
  Forall (λ p, lacks quote p.1 = true ∧ lacks newline p.1 = true ∧
               lacks quote p.2 = true) parts.

(** The connection answers the ping and the queries the config needs. *)
Definition answers (conn : Conn) (config : Config) : Prop :=
  PingContext conn = None ∧
  (DatabaseName config = EmptyString →
     ∃ name, current_database conn = Ok name ∧ name ≠ EmptyString) ∧
  (SchemaName config = EmptyString →
     ∃ name, current_schema conn = Ok (Some name)).

(** The names the driver works with before the quoted table is parsed. *)
Definition databaseOf (conn : Conn) (config : Config) : string :=
  if bool_decide (DatabaseName config = EmptyString) then
    match current_database conn with Ok name => name | Err _ => EmptyString end
  else DatabaseName config.

Definition schemaOf (conn : Conn) (config : Config) : string :=
  if bool_decide (SchemaName config = EmptyString) then
    match current_schema conn with
    | Ok (Some name) => name
    | _ => EmptyString
    end
  else SchemaName config.

(** The config after lines 41-74 when the connection answers. *)
Definition prepared (DefaultMigrationsTable : string) (conn : Conn)
    (config : Config) : Config :=
  plainNames DefaultMigrationsTable
    (mkConfig (MigrationsTable config) (MigrationsTableQuoted config)
       (databaseOf conn config) (schemaOf conn config)
       (migrationsSchemaName config) (migrationsTableName config)).

Definition live : Conn :=
  mkConn None (Ok "postgres"%string) (Ok (Some "public"%string)) (λ _, None).

Definition named (table : string) (isQuoted : bool) : Config :=
  mkConfig table isQuoted EmptyString EmptyString EmptyString EmptyString.

End Connect.

(** * Facts *)

(** ** Machine integers *)

Lemma int_of_uint_small (u : Z) : 0 <= u < 2 ^ 63 → int_of_uint u = u.
Proof.
  intros Hu. unfold int_of_uint.
  rewrite Z.mod_small by lia.
  destruct (Z.ltb_spec u (2 ^ 63)); lia.
Qed.

Lemma uint_of_int_nonneg (i : Z) : 0 <= i < 2 ^ 63 → uint_of_int i = i.
Proof. intros Hi. unfold uint_of_int. apply Z.mod_small. lia. Qed.

(** ** The bulk pipelines *)

Section QueueingFacts.

Context {B : Type}.
Variable m : Migrate B.

Lemma versions_from_enumerates fuel v l :
  versions_from m fuel v = Some l → enumerates m v l ∧ (length l ≤ fuel)%nat.
Proof.
  revert v l. induction fuel as [|fuel IH]; intros v l; simpl; [done|].
  destruct (Next (sourceDrv m) v) as [next|err] eqn:Hnext.
  - destruct (versions_from m fuel next) as [l'|] eqn:Hl'; simpl; [|done].
    intros [= <-]. destruct (IH _ _ Hl') as [Hen Hlen].
    split; [|simpl; lia].
    destruct l' as [|n l'']; [done|].
    simpl in Hen |- *. destruct Hen as [-> Hen]. by rewrite Hnext.
  - destruct (errors_Is err ErrNotExist) eqn:His; [|done].
    intros [= <-]. split; [|simpl; lia]. simpl. eauto.
Qed.

Lemma noChangeIfZero_length {A : Type} (c : Z) (records : list A) :
  0 <= c →
  noChangeIfZero (c + Z.of_nat (length records)) =
    if decide (c = 0) then noChangeIfNone records else [].
Proof.
  intros Hc. unfold noChangeIfZero, noChangeIfNone.
  destruct (Z.eqb_spec (c + Z.of_nat (length records)) 0) as [H0|H0];
    destruct (decide (c = 0)) as [->|Hne]; destruct records as [|r records];
    simpl in H0; try done; lia.
Qed.

Lemma newMigration_ok v t :
  contentOk m v t →
  newMigration m v t =
    Ok {| Version := v; TargetVersion := t; UpKindMigration := false;
          Body := scriptOf m v t |}.
Proof. intros [body Hb]. unfold newMigration, scriptOf. by rewrite Hb. Qed.

Lemma take_remaining_nil {A : Type} (r : option nat) :
  take_remaining r (@nil A) = [].
Proof. by destruct r as [[|n]|]. Qed.

Lemma remaining_none limit c : limit = -1 → remaining limit c = None.
Proof. intros ->. done. Qed.

Lemma remaining_spent limit c :
  limit ≠ -1 → limit <= c → remaining limit c = Some O.
Proof.
  intros Hl Hc. unfold remaining.
  destruct (Z.eqb_spec limit (-1)); [done|]. f_equal. lia.
Qed.

Lemma remaining_succ limit c :
  limit ≠ -1 → c < limit →
  remaining limit c = S <$> remaining limit (c + 1).
Proof.
  intros Hl Hc. unfold remaining.
  destruct (Z.eqb_spec limit (-1)); [done|]. simpl. f_equal. lia.
Qed.

Lemma take_remaining_limit {A : Type} limit (l : list A) :
  take_remaining (remaining limit 0) l =
    if decide (limit = -1) then l else take (Z.to_nat limit) l.
Proof.
  unfold remaining. destruct (Z.eqb_spec limit (-1)), (decide (limit = -1));
    try done. cbn. by rewrite Z.sub_0_r.
Qed.

Lemma polls_before_stop_never p n :
  (∀ i, stop m i = false) → polls_before_stop m p n = n.
Proof.
  intros Hrun. revert p. induction n as [|n IH]; intros p; cbn; [done|].
  by rewrite Hrun, IH.
Qed.

Section Up.

Variable appliedMigrs : list Z.
Variable limit : Z.

Local Abbreviation unapplied := (filter (λ x, int_of_uint x ∉ appliedMigrs)).

Lemma queueUpLoop_run l : ∀ v fuel c p,
  enumerates m v l → (length l ≤ fuel)%nat → 0 <= c →
  (∀ x, x ∈ l → contentOk m x (int_of_uint x)) →
  queueUpLoop m fuel (list_to_set appliedMigrs) limit v c p =
    let cands := take_remaining (remaining limit c)
                   (unapplied (take (polls_before_stop m p (length l)) l)) in
    Some ((SendMigr ∘ upRecord m <$> cands)
            ++ noChangeIfZero (c + Z.of_nat (length cands))).
Proof.
  induction l as [|v' l' IH]; intros v fuel c p Hen Hfuel Hc Hok; [done|].
  destruct Hen as [-> Hen].
  destruct fuel as [|fuel]; [simpl in Hfuel; lia|].
  cbn [queueUpLoop length polls_before_stop].
  assert (Hrest : ∀ c', 0 <= c' →
    match Next (sourceDrv m) v with
    | Ok next =>
        queueUpLoop m fuel (list_to_set appliedMigrs) limit next c' (S p)
    | Err err =>
        if errors_Is err ErrNotExist then Some (noChangeIfZero c')
        else Some [SendErr err]
    end =
    let cands := take_remaining (remaining limit c')
                   (unapplied (take (polls_before_stop m (S p) (length l')) l')) in
    Some ((SendMigr ∘ upRecord m <$> cands)
            ++ noChangeIfZero (c' + Z.of_nat (length cands)))).
  { intros c' Hc'. destruct l' as [|next l''].
    - destruct Hen as (err & -> & ->). cbn.
      rewrite take_remaining_nil. cbn. by rewrite Z.add_0_r.
    - destruct Hen as [-> Hen]. apply IH; [done|simpl in *; lia|done|].
      intros x Hx. apply Hok. by right. }
  destruct (Z.eqb_spec limit (-1)) as [Hlim|Hlim];
    destruct (Z.ltb_spec c limit) as [Hlt|Hge]; cbn [orb negb].
  4:{ rewrite (remaining_spent limit c) by done. cbn.
      by rewrite Z.add_0_r. }
  all: destruct (stop m p) eqn:Hstop;
    [ cbn; rewrite take_remaining_nil; cbn; by rewrite Z.add_0_r |].
  all: cbn [take]; cbn zeta.
  all: destruct (bool_decide_reflect (int_of_uint v ∈ (list_to_set appliedMigrs : gset Z)))
      as [Happ|Happ]; rewrite elem_of_list_to_set in Happ.
  all: try (rewrite filter_cons_False by (intros ?; done); by apply Hrest).
  all: rewrite (newMigration_ok v (int_of_uint v)) by (apply Hok; by left).
  all: rewrite filter_cons_True by done.
  all: rewrite (Hrest (c + 1)) by lia; cbn zeta.
  - rewrite !remaining_none by done. cbn.
    rewrite Nat2Z.inj_succ, <- Z.add_1_l, Z.add_assoc. done.
  - rewrite !remaining_none by done. cbn.
    rewrite Nat2Z.inj_succ, <- Z.add_1_l, Z.add_assoc. done.
  - rewrite (remaining_succ limit c) by done.
    destruct (remaining limit (c + 1)) as [k|]; cbn;
      rewrite Nat2Z.inj_succ, <- Z.add_1_l, Z.add_assoc; done.
Qed.

Lemma queueUpMigrations_run fuel fuel' l :
  source_versions m fuel = Some l → (length l ≤ fuel')%nat →
  (∀ x, x ∈ l → contentOk m x (int_of_uint x)) →
  queueUpMigrations m fuel' appliedMigrs limit =
    let cands := upCandidates m appliedMigrs limit l in
    Some ((SendMigr ∘ upRecord m <$> cands) ++ noChangeIfNone cands).
Proof.
  unfold source_versions, queueUpMigrations, upCandidates.
  intros Hsrc Hfuel Hok.
  destruct (First (sourceDrv m)) as [v|err].
  - apply versions_from_enumerates in Hsrc as [Hen _].
    rewrite (queueUpLoop_run l) by done. cbn zeta.
    by rewrite (noChangeIfZero_length 0).
  - destruct (errors_Is err ErrNotExist); [|done].
    injection Hsrc as <-. cbn. by rewrite take_remaining_nil.
Qed.

End Up.

Section Down.

Variable appliedMigrs : list Z.
Variable limit : Z.

Lemma downTargets_lookup (l : list Z) (i : nat) :
  downTargets l !! i = (λ a, (a, default (-1) (l !! S i))) <$> l !! i.
Proof.
  revert i. induction l as [|a l IH]; intros [|i]; cbn; try done.
  by destruct l.
Qed.

Lemma queueDownLoop_run steps : ∀ i c,
  (i + steps = length appliedMigrs)%nat → 0 <= c →
  (∀ a t, (a, t) ∈ downTargets appliedMigrs → contentOk m (uint_of_int a) t) →
  queueDownLoop m steps appliedMigrs limit i c =
    let cands := take_remaining (remaining limit c)
                   (take (polls_before_stop m i steps)
                      (drop i (downTargets appliedMigrs))) in
    Some ((SendMigr ∘ downRecord m <$> cands)
            ++ noChangeIfZero (c + Z.of_nat (length cands))).
Proof.
  induction steps as [|steps IH]; intros i c Hlen Hc Hok;
    cbn [queueDownLoop polls_before_stop].
  - cbn. rewrite take_0, take_remaining_nil. cbn. by rewrite Z.add_0_r.
  - destruct (stop m i) eqn:Hstop.
    { cbn. rewrite take_0, take_remaining_nil. cbn. by rewrite Z.add_0_r. }
    destruct (lookup_lt_is_Some_2 appliedMigrs i) as [a Ha]; [lia|].
    pose proof (downTargets_lookup appliedMigrs i) as Hdt.
    rewrite Ha in Hdt. cbn in Hdt.
    rewrite (drop_S _ _ _ Hdt). cbn [take].
    destruct (Z.eqb_spec limit (-1)) as [Hlim|Hlim]; cbn [negb andb].
    2: destruct (Z.geb_spec c limit) as [Hge|Hlt].
    2:{ rewrite (remaining_spent limit c) by lia. cbn.
        by rewrite Z.add_0_r. }
    all: rewrite Ha.
    all: assert (Htarget :
      (if bool_decide (i = (length appliedMigrs - 1)%nat)
       then Some (-1) else appliedMigrs !! S i)
      = Some (default (-1) (appliedMigrs !! S i))).
    1,3: case_bool_decide as Hi;
         [ rewrite (lookup_ge_None_2 appliedMigrs (S i)) by lia; done
         | destruct (lookup_lt_is_Some_2 appliedMigrs (S i)) as [t Ht];
           [lia | by rewrite Ht] ].
    all: rewrite Htarget.
    all: rewrite newMigration_ok
        by (apply Hok, list_elem_of_lookup; by exists i).
    all: rewrite (IH (S i) (c + 1)) by (done || lia); cbn zeta.
    + rewrite !remaining_none by done. cbn.
      rewrite Nat2Z.inj_succ, <- Z.add_1_l, Z.add_assoc. done.
    + rewrite (remaining_succ limit c) by lia.
      destruct (remaining limit (c + 1)) as [k|]; cbn;
        rewrite Nat2Z.inj_succ, <- Z.add_1_l, Z.add_assoc; done.
Qed.

Lemma queueDownMigrations_run :
  (∀ a t, (a, t) ∈ downTargets appliedMigrs → contentOk m (uint_of_int a) t) →
  queueDownMigrations m appliedMigrs limit =
    let cands := downCandidates m appliedMigrs limit in
    Some ((SendMigr ∘ downRecord m <$> cands) ++ noChangeIfNone cands).
Proof.
  intros Hok. unfold queueDownMigrations, downCandidates.
  case_bool_decide as Hempty; cbn [orb].
  - apply length_zero_iff_nil in Hempty as ->. cbn.
    by rewrite take_remaining_nil.
  - destruct (Z.eqb_spec limit 0) as [->|Hlim]; [done|].
    rewrite queueDownLoop_run by (done || lia). cbn zeta.
    by rewrite (noChangeIfZero_length 0), drop_0.
Qed.

End Down.

End QueueingFacts.

(** ** Claims on the pipelines *)

(** C3.  Bulk Up.  When the source enumerates [l] and hands over every
    script, [queueUpMigrations] sends, in source order, one Up record for
    every version of [l] that is visited before the stop flag is seen and
    is not in the applied set, cut at [limit] records unless [limit] is -1;
    [First] and [Next] are the only navigation.  Each record carries its
    own version as target ([int(version)], the same number for a version
    below 2^63) and is marked Up.  With no stop and no limit these are
    exactly the source versions not applied. *)
Theorem queueUpMigrations_enqueues_unapplied {B : Type} (m : Migrate B)
    (appliedMigrs : list Z) (limit : Z) (fuel : nat) (l : list Z) :
  source_versions m fuel = Some l →
  (∀ v, v ∈ l → contentOk m v (int_of_uint v)) →
  let visited := take (polls_before_stop m 0 (length l)) l in
  let pending := filter (λ v, int_of_uint v ∉ appliedMigrs) visited in
  let queued :=
    if decide (limit = -1) then pending else take (Z.to_nat limit) pending in
  (∀ fuel', (length l ≤ fuel')%nat →
     queueUpMigrations m fuel' appliedMigrs limit =
       Some ((SendMigr ∘ upRecord m <$> queued) ++ noChangeIfNone queued)) ∧
  Forall (λ v, Version (upRecord m v) = v ∧
               TargetVersion (upRecord m v) = int_of_uint v ∧
               (0 <= v < 2 ^ 63 → TargetVersion (upRecord m v) = v) ∧
               UpKindMigration (upRecord m v) = true) queued ∧
  ((∀ i, stop m i = false) → limit = -1 →
     queued = filter (λ v, int_of_uint v ∉ appliedMigrs) l).
Proof.
  intros Hsrc Hok visited pending queued.
  assert (Hq : queued = upCandidates m appliedMigrs limit l)
    by (symmetry; apply take_remaining_limit).
  split; [|split].
  - intros fuel' Hfuel. rewrite Hq.
    by apply (queueUpMigrations_run m appliedMigrs limit fuel).
  - apply Forall_forall. intros v _. cbn.
    repeat split; try done. apply int_of_uint_small.
  - intros Hrun ->. subst queued pending visited. cbn.
    by rewrite polls_before_stop_never, firstn_all.
Qed.

Lemma queueUpMigrations_enqueues_unapplied_witness :
  source_versions
    (Scenario.migrator (BasicDrv Scenario.idle) Scenario.samples Scenario.running) 3
  = Some Scenario.samples ∧
  queueUpMigrations
    (Scenario.migrator (BasicDrv Scenario.idle) Scenario.samples Scenario.running)
    3 [20250101000130; 20250101000140] (-1)
  = Some [SendMigr {| Version := 20250101000135;
                      TargetVersion := 20250101000135;
                      UpKindMigration := true; Body := Some [] |}].
Proof.
  split; [reflexivity|].
  pose proof (queueUpMigrations_enqueues_unapplied
    (Scenario.migrator (BasicDrv Scenario.idle) Scenario.samples Scenario.running)
    [20250101000130; 20250101000140] (-1) 3 Scenario.samples) as H.
  destruct H as [H _].
  - reflexivity.
  - intros v _. eexists. reflexivity.
  - apply (H 3%nat). cbn. lia.
Defined.

(** C4.  Bulk Down.  When the source hands over every script,
    [queueDownMigrations] sends one Down record for each applied version in
    list order: its version is the list element ([uint] of it, the same
    number for an element from 0 to 2^63-1) and its target is the next
    list element, or -1 for the last.  It stops at [limit] records unless
    [limit] is -1, at the end of the list, or when the stop flag is seen.
    For an empty list or a limit of 0 it sends NoChange and nothing else. *)
Theorem queueDownMigrations_enqueues_applied {B : Type} (m : Migrate B)
    (appliedMigrs : list Z) (limit : Z) :
  (∀ a t, (a, t) ∈ downTargets appliedMigrs → contentOk m (uint_of_int a) t) →
  let visited :=
    take (polls_before_stop m 0 (length appliedMigrs)) (downTargets appliedMigrs) in
  let queued :=
    if decide (limit = -1) then visited else take (Z.to_nat limit) visited in
  queueDownMigrations m appliedMigrs limit =
    Some ((SendMigr ∘ downRecord m <$> queued) ++ noChangeIfNone queued) ∧
  (appliedMigrs = [] ∨ limit = 0 →
     queueDownMigrations m appliedMigrs limit = Some [SendErr ErrNoChange]) ∧
  (∀ i a t, downTargets appliedMigrs !! i = Some (a, t) →
     appliedMigrs !! i = Some a ∧
     (appliedMigrs !! S i = Some t ∨
      S i = length appliedMigrs ∧ t = -1) ∧
     Version (downRecord m (a, t)) = uint_of_int a ∧
     (0 <= a < 2 ^ 63 → Version (downRecord m (a, t)) = a) ∧
     TargetVersion (downRecord m (a, t)) = t ∧
     UpKindMigration (downRecord m (a, t)) = false) ∧
  ((∀ i, stop m i = false) → limit = -1 → queued = downTargets appliedMigrs).
Proof.
  intros Hok visited queued.
  assert (Hq : queued = downCandidates m appliedMigrs limit)
    by (symmetry; apply take_remaining_limit).
  split; [|split; [|split]].
  - rewrite Hq. by apply queueDownMigrations_run.
  - unfold queueDownMigrations. intros [-> | ->]; [done|].
    by rewrite orb_true_r.
  - intros i a t Hi. rewrite downTargets_lookup in Hi.
    destruct (appliedMigrs !! i) as [a'|] eqn:Ha; [|done].
    injection Hi as -> <-.
    split; [done|]. split.
    + destruct (appliedMigrs !! S i) as [t|] eqn:Ht; [by left|right].
      apply lookup_ge_None_1 in Ht. apply lookup_lt_Some in Ha.
      split; [lia|done].
    + repeat split; try done. apply uint_of_int_nonneg.
  - intros Hrun ->. subst queued visited. cbn.
    rewrite polls_before_stop_never by done.
    apply firstn_all2. clear. induction appliedMigrs; cbn; lia.
Qed.

Lemma queueDownMigrations_enqueues_applied_witness :
  queueDownMigrations
    (Scenario.migrator (BasicDrv Scenario.idle) Scenario.samples Scenario.running)
    [20250101000140; 20250101000135; 20250101000130] 2
  = Some [SendMigr {| Version := 20250101000140;
                      TargetVersion := 20250101000135;
                      UpKindMigration := false; Body := Some [] |};
          SendMigr {| Version := 20250101000135;
                      TargetVersion := 20250101000130;
                      UpKindMigration := false; Body := Some [] |}].
Proof.
  pose proof (queueDownMigrations_enqueues_applied
    (Scenario.migrator (BasicDrv Scenario.idle) Scenario.samples Scenario.running)
    [20250101000140; 20250101000135; 20250101000130] 2) as H.
  destruct H as [H _].
  - intros a t _. eexists. reflexivity.
  - exact H.
Defined.

(** A run that has sent a record has sent no NoChange. *)
Lemma no_record_in_noChangeIfNone {A : Type} (f : A → Migration)
    (queued : list A) (migr : Migration) :
  SendMigr migr ∈ (SendMigr ∘ f <$> queued) ++ noChangeIfNone queued →
  queued ≠ [] ∧ SendErr ErrNoChange ∉ (SendMigr ∘ f <$> queued) ++ noChangeIfNone queued.
Proof.
  destruct queued as [|q queued]; cbn.
  - intros Hin. apply list_elem_of_singleton in Hin. done.
  - intros _. split; [done|]. rewrite app_nil_r.
    intros Hin. apply elem_of_cons in Hin as [Hin|Hin]; [done|].
    apply list_elem_of_fmap in Hin as (x & Hx & _). done.
Qed.

(** C6, as the code has it.  A bulk pipeline that meets no source error
    sends NoChange exactly when it has enqueued no record, and then as its
    only value: whether the source is empty, everything is already applied
    or reverted, the limit is 0, or the stop flag was seen before the first
    record.  A cancelled run is no exception. *)
Theorem bulk_pipelines_send_NoChange_iff_nothing_queued {B : Type}
    (m : Migrate B) (appliedMigrs : list Z) (limit : Z) (fuel : nat) (l : list Z) :
  source_versions m fuel = Some l →
  (∀ v, v ∈ l → contentOk m v (int_of_uint v)) →
  (∀ a t, (a, t) ∈ downTargets appliedMigrs → contentOk m (uint_of_int a) t) →
  (∃ out, queueUpMigrations m fuel appliedMigrs limit = Some out ∧
     ((∀ migr, SendMigr migr ∉ out) → out = [SendErr ErrNoChange]) ∧
     (∀ migr, SendMigr migr ∈ out → SendErr ErrNoChange ∉ out)) ∧
  (∃ out, queueDownMigrations m appliedMigrs limit = Some out ∧
     ((∀ migr, SendMigr migr ∉ out) → out = [SendErr ErrNoChange]) ∧
     (∀ migr, SendMigr migr ∈ out → SendErr ErrNoChange ∉ out)).
Proof.
  intros Hsrc Hup Hdown.
  pose proof (versions_from_enumerates m fuel) as Hlen.
  assert (Hfuel : (length l ≤ fuel)%nat).
  { unfold source_versions in Hsrc.
    destruct (First (sourceDrv m)) as [v|err].
    - by apply Hlen in Hsrc as [_ ?].
    - destruct (errors_Is err ErrNotExist); [|done].
      injection Hsrc as <-. cbn. lia. }
  split.
  - rewrite (queueUpMigrations_run m appliedMigrs limit fuel fuel l) by done.
    cbn zeta. eexists. split; [done|]. split.
    + destruct (upCandidates m appliedMigrs limit l) as [|v vs]; [done|].
      intros Hno. exfalso. apply (Hno (upRecord m v)). cbn. left.
    + intros migr Hin. by apply no_record_in_noChangeIfNone in Hin as [_ ?].
  - rewrite (queueDownMigrations_run m appliedMigrs limit) by done.
    cbn zeta. eexists. split; [done|]. split.
    + destruct (downCandidates m appliedMigrs limit) as [|v vs]; [done|].
      intros Hno. exfalso. apply (Hno (downRecord m v)). cbn. left.
    + intros migr Hin. by apply no_record_in_noChangeIfNone in Hin as [_ ?].
Qed.

Lemma bulk_pipelines_send_NoChange_iff_nothing_queued_witness :
  source_versions
    (Scenario.migrator (BasicDrv Scenario.idle) Scenario.samples Scenario.stopped) 3
  = Some Scenario.samples ∧
  ∃ out,
    queueUpMigrations
      (Scenario.migrator (BasicDrv Scenario.idle) Scenario.samples Scenario.stopped)
      3 [] (-1) = Some out ∧
    ((∀ migr, SendMigr migr ∉ out) → out = [SendErr ErrNoChange]) ∧
    (∀ migr, SendMigr migr ∈ out → SendErr ErrNoChange ∉ out).
Proof.
  split; [reflexivity|].
  pose proof (bulk_pipelines_send_NoChange_iff_nothing_queued
    (Scenario.migrator (BasicDrv Scenario.idle) Scenario.samples Scenario.stopped)
    [] (-1) 3 Scenario.samples) as H.
  destruct H as [H _].
  - reflexivity.
  - intros v _. eexists. reflexivity.
  - intros a t _. eexists. reflexivity.
  - exact H.
Defined.

(** C6, as stated, fails: with three pending versions, nothing applied and
    no limit, a bulk Up run that sees the stop flag at its first poll sends
    NoChange, and so does a bulk Down run over three applied versions. *)
Lemma cancelled_bulk_pipelines_send_NoChange :
  Scenario.stopped 0%nat = true ∧
  queueUpMigrations
    (Scenario.migrator (BasicDrv Scenario.idle) Scenario.samples Scenario.stopped)
    3 [] (-1) = Some [SendErr ErrNoChange] ∧
  queueDownMigrations
    (Scenario.migrator (BasicDrv Scenario.idle) Scenario.samples Scenario.stopped)
    [20250101000140; 20250101000135; 20250101000130] (-1)
  = Some [SendErr ErrNoChange].
Proof. repeat split; reflexivity. Qed.

(** C8, as the code has it.  For a version the source has,
    [queueDownSingleMigration] sends exactly one Down record, provided the
    stop flag is not seen and the script is handed over: its target is
    [Prev(version)], or -1 when [Prev] reports NotExist.  Any other error
    of [Prev] is sent instead; for a version the source lacks the error of
    [versionExists] is sent instead.  When the stop flag is seen after the
    version was validated, nothing is sent at all. *)
Theorem queueDownSingleMigration_cases {B : Type} (m : Migrate B) (version : Z) :
  (∀ err, versionExists m version = Some err →
     queueDownSingleMigration m version = [SendErr err]) ∧
  (versionExists m version = None → stop m 0 = true →
     queueDownSingleMigration m version = []) ∧
  (versionExists m version = None → stop m 0 = false →
     (∀ prev, Prev (sourceDrv m) version = Ok prev →
        contentOk m version (int_of_uint prev) →
        queueDownSingleMigration m version =
          [SendMigr {| Version := version; TargetVersion := int_of_uint prev;
                       UpKindMigration := false;
                       Body := scriptOf m version (int_of_uint prev) |}]) ∧
     (∀ err, Prev (sourceDrv m) version = Err err →
        errors_Is err ErrNotExist = true →
        contentOk m version (-1) →
        queueDownSingleMigration m version =
          [SendMigr {| Version := version; TargetVersion := -1;
                       UpKindMigration := false;
                       Body := scriptOf m version (-1) |}]) ∧
     (∀ err, Prev (sourceDrv m) version = Err err →
        errors_Is err ErrNotExist = false →
        queueDownSingleMigration m version = [SendErr err])).
Proof.
  unfold queueDownSingleMigration. split; [|split].
  - by intros err ->.
  - by intros -> ->.
  - intros -> ->. split; [|split].
    + intros prev -> Hok. by rewrite newMigration_ok.
    + intros err -> -> Hok. by rewrite newMigration_ok.
    + by intros err -> ->.
Qed.

Lemma queueDownSingleMigration_cases_witness :
  queueDownSingleMigration
    (Scenario.migrator (BasicDrv Scenario.idle) Scenario.samples Scenario.running)
    20250101000135
  = [SendMigr {| Version := 20250101000135; TargetVersion := 20250101000130;
                 UpKindMigration := false; Body := Some [] |}] ∧
  queueDownSingleMigration
    (Scenario.migrator (BasicDrv Scenario.idle) Scenario.samples Scenario.running)
    20250101000130
  = [SendMigr {| Version := 20250101000130; TargetVersion := -1;
                 UpKindMigration := false; Body := Some [] |}].
Proof.
  split.
  - destruct (queueDownSingleMigration_cases
      (Scenario.migrator (BasicDrv Scenario.idle) Scenario.samples Scenario.running)
      20250101000135) as (_ & _ & H).
    destruct H as (H & _ & _); [reflexivity|reflexivity|].
    apply (H 20250101000130); [reflexivity|]. eexists. reflexivity.
  - destruct (queueDownSingleMigration_cases
      (Scenario.migrator (BasicDrv Scenario.idle) Scenario.samples Scenario.running)
      20250101000130) as (_ & _ & H).
    destruct H as (_ & H & _); [reflexivity|reflexivity|].
    apply (H ErrNotExist); [reflexivity|reflexivity|]. eexists. reflexivity.
Defined.

(** C8, as stated, fails: version 20250101000135 is in the source and has
    a predecessor, yet with the stop flag set nothing is sent. *)
Lemma queueDownSingleMigration_stopped_sends_nothing :
  versionExists
    (Scenario.migrator (BasicDrv Scenario.idle) Scenario.samples Scenario.stopped)
    20250101000135 = None ∧
  Prev (Scenario.listSource Scenario.samples) 20250101000135 = Ok 20250101000130 ∧
  queueDownSingleMigration
    (Scenario.migrator (BasicDrv Scenario.idle) Scenario.samples Scenario.stopped)
    20250101000135 = [].
Proof. repeat split; reflexivity. Qed.

(** ** The executor *)

Section ExecutorFacts.

Context {B : Type}.
Variable m : Migrate B.

Local Arguments exec_call : simpl never.

Local Ltac run_calls :=
  repeat match goal with
  | |- context [exec_call m ?c ?b] =>
      lazymatch b with
      | context [exec_call] => fail
      | _ => destruct (exec_call m c b) as [? [?|]] eqn:?; cbn
      end
  end.

Local Ltac executor_cases migr :=
  unfold handleSingleMigration, executorSteps, markDirty, markClean, runBody;
  destruct (databaseDrv m) eqn:?, (UpKindMigration migr) eqn:?,
    (Body migr) eqn:?; cbn [callInOrder app];
  unfold andThen, orErrorf, invoke, skip.

Lemma handleSingleMigration_callInOrder (migr : Migration) (w : World) :
  (handleSingleMigration m migr w).1 = (callInOrder m (executorSteps m migr) w).1 ∧
  ((handleSingleMigration m migr w).2 = None ↔
   (callInOrder m (executorSteps m migr) w).2 = None).
Proof.
  executor_cases migr; run_calls; done.
Qed.

Lemma handleSingleMigration_script_fails (migr : Migration) (w : World) b1 b2 e :
  Body migr ≠ None →
  exec_call m (markDirty m migr) (backend w) = (b1, None) →
  exec_call m (CRun (BufferedBody migr)) b1 = (b2, Some e) →
  handleSingleMigration m migr w =
    (logged (CRun (BufferedBody migr)) (logged (markDirty m migr) w b1) b2,
     Some (Errorf "failed to run migration %d body: %w" (Version migr) e)).
Proof.
  intros Hbody. executor_cases migr; [|done| |done| |done| |done].
  all: intros Hdirty Hrun; cbn [backend logged]; rewrite Hdirty;
    cbn [backend logged]; by rewrite Hrun.
Qed.

Lemma callInOrder_trace (cs : list Call) (w : World) :
  ∃ k, (k ≤ length cs)%nat ∧
    (trace (callInOrder m cs w).1).*1 = (trace w).*1 ++ take k cs ∧
    ((callInOrder m cs w).2 = None → k = length cs).
Proof.
  revert w. induction cs as [|c cs IH]; intros w; cbn [callInOrder].
  - exists O. cbn. by rewrite app_nil_r.
  - unfold andThen, invoke.
    destruct (exec_call m c (backend w)) as [b [e|]] eqn:Hc; cbn.
    + exists 1%nat. cbn. rewrite fmap_app, take_0. repeat split; [lia|done].
    + destruct (IH (logged c w b)) as (k & Hk & Htrace & Hdone).
      destruct (callInOrder m cs (logged c w b)) as [w' err]; cbn in *.
      exists (S k). rewrite Htrace, fmap_app, <- app_assoc. cbn.
      repeat split; [lia|]. intros ->. by rewrite Hdone.
Qed.

Local Ltac replay :=
  cbn [callInOrder]; unfold andThen, invoke, skip; cbn [backend logged];
  repeat match goal with
  | H : exec_call m _ _ = _ |- _ => rewrite H; cbn [backend logged]
  end.

Lemma handleSingleMigration_failure (migr : Migration) (w w' : World) (err : error) :
  handleSingleMigration m migr w = (w', Some err) →
  ∃ earlier c rest wd e format,
    executorSteps m migr = earlier ++ c :: rest ∧
    callInOrder m earlier w = (wd, None) ∧
    exec_call m c (backend wd) = (backend w', Some e) ∧
    w' = logged c wd (backend w') ∧
    err = Errorf format (reportedVersion migr c) e.
Proof.
  executor_cases migr; run_calls; intros ?; simplify_eq.
  all: first
    [ by eexists [], _, _, w, _, _; repeat split; replay; eauto
    | by eexists [_], _, _, _, _, _; repeat split; replay; eauto
    | by eexists [_; _], _, _, _, _, _; repeat split; replay; eauto ].
Qed.

End ExecutorFacts.

(** ** The history table under the executor *)

(** The statements see a version only as [int64(version)]. *)
Ltac int64_key v :=
  unfold Postgres.AddDirtyMigration, Postgres.UpdateMigrationDirtyFlag,
    Postgres.RemoveMigration, Postgres.IsMigrationApplied;
  generalize (int_of_uint v); clear v; intros v.

Section PostgresFacts.

Context {D : Type}.
Variable run_script : bytes → D → D * option error.
Variable fault : Postgres.ConnOp → @Postgres.Postgres D → option error.
Variable pgLock pgUnlock : @Postgres.Postgres D → @Postgres.Postgres D * option error.
Variable pgSetVersion :
  Z → bool → @Postgres.Postgres D → @Postgres.Postgres D * option error.

Local Abbreviation extras :=
  (Postgres.PostgresExtras run_script fault pgLock pgUnlock pgSetVersion).

Lemma inTransaction_cases startFailed commitFailed query stmt p p' r :
  Postgres.inTransaction fault startFailed commitFailed query stmt p = (p', r) →
  (p' = p ∧ is_Some r) ∨
  (∃ rows, Postgres.sql_exec stmt (Postgres.migrations p) = Ok rows ∧
     p' = Postgres.withMigrations p rows ∧ r = None).
Proof.
  unfold Postgres.inTransaction, Postgres.txExec.
  destruct (fault Postgres.OpBeginTx p); [intros [= <- <-]; eauto|].
  destruct (fault Postgres.OpExec p); [intros [= <- <-]; eauto|].
  destruct (Postgres.sql_exec stmt (Postgres.migrations p)) as [rows|e];
    [|intros [= <- <-]; eauto].
  destruct (fault Postgres.OpCommit p); intros [= <- <-]; eauto.
Qed.

Lemma clean_dirtyOnly v (p : @Postgres.Postgres D) : clean p → dirtyOnly v p.
Proof. intros Hc rows x Hrows Hx. by destruct (Hc rows x Hrows). Qed.

Lemma dirtyOnly_atMostOne v (p : @Postgres.Postgres D) :
  dirtyOnly v p → atMostOneDirty p.
Proof.
  intros Hd rows v1 v2 Hrows H1 H2.
  by rewrite (Hd rows v1 Hrows H1), (Hd rows v2 Hrows H2).
Qed.

Lemma AddDirtyMigration_marks v p p' r :
  Postgres.AddDirtyMigration fault v p = (p', r) →
  clean p →
  dirtyOnly (int_of_uint v) p' ∧
  (r = None →
     ∃ rows, Postgres.migrations p' = Some rows ∧
             rows !! int_of_uint v = Some true).
Proof.
  int64_key v. intros Hrun Hclean.
  apply inTransaction_cases in Hrun as [[-> [e ->]]|(rows & Hexec & -> & ->)].
  { split; [by apply clean_dirtyOnly|done]. }
  unfold Postgres.sql_exec in Hexec.
  destruct (Postgres.migrations p) as [old|] eqn:Hold; [|done].
  destruct (old !! v) eqn:Hv; [done|]. injection Hexec as <-.
  split.
  - intros rows x [= <-] Hx.
    destruct (decide (v = x)) as [->|Hne]; [done|].
    rewrite lookup_insert_ne in Hx by done. by destruct (Hclean old x Hold).
  - intros _. eexists. split; [done|]. apply lookup_insert_eq.
Qed.

Lemma AddDirtyMigration_marks_row v p p' :
  Postgres.AddDirtyMigration fault v p = (p', None) →
  marked (int_of_uint v) p'.
Proof.
  int64_key v. intros Hrun.
  apply inTransaction_cases in Hrun as [[_ [e [=]]]|(rows & Hexec & -> & _)].
  unfold Postgres.sql_exec in Hexec.
  destruct (Postgres.migrations p) as [old|]; [|done].
  destruct (old !! v); [done|]. injection Hexec as <-.
  eexists. split; [done|]. apply lookup_insert_eq.
Qed.

Lemma UpdateMigrationDirtyFlag_marks v p p' r :
  Postgres.UpdateMigrationDirtyFlag fault v true p = (p', r) →
  clean p → dirtyOnly (int_of_uint v) p'.
Proof.
  int64_key v. intros Hrun Hclean.
  apply inTransaction_cases in Hrun as [[-> _]|(rows & Hexec & -> & ->)].
  { by apply clean_dirtyOnly. }
  unfold Postgres.sql_exec in Hexec.
  destruct (Postgres.migrations p) as [old|] eqn:Hold; [|done].
  injection Hexec as <-.
  intros rows x [= <-] Hx.
  destruct (decide (v = x)) as [->|Hne]; [done|].
  rewrite lookup_alter_ne in Hx by done. by destruct (Hclean old x Hold).
Qed.

Lemma UpdateMigrationDirtyFlag_clears v p p' r :
  Postgres.UpdateMigrationDirtyFlag fault v false p = (p', r) →
  dirtyOnly (int_of_uint v) p →
  dirtyOnly (int_of_uint v) p' ∧ (r = None → clean p').
Proof.
  int64_key v. intros Hrun Hdirty.
  apply inTransaction_cases in Hrun as [[-> [e ->]]|(rows & Hexec & -> & ->)].
  { done. }
  unfold Postgres.sql_exec in Hexec.
  destruct (Postgres.migrations p) as [old|] eqn:Hold; [|done].
  injection Hexec as <-.
  assert (Hc : clean (Postgres.withMigrations p (alter (λ _, false) v old))).
  { intros rows x [= <-] Hx.
    destruct (decide (v = x)) as [->|Hne].
    - rewrite lookup_alter_eq in Hx. by destruct (old !! x).
    - rewrite lookup_alter_ne in Hx by done.
      by specialize (Hdirty old x Hold Hx). }
  split; [by apply clean_dirtyOnly|done].
Qed.

Lemma RemoveMigration_clears v p p' r :
  Postgres.RemoveMigration fault v p = (p', r) →
  dirtyOnly (int_of_uint v) p →
  dirtyOnly (int_of_uint v) p' ∧ (r = None → clean p').
Proof.
  int64_key v. intros Hrun Hdirty.
  apply inTransaction_cases in Hrun as [[-> [e ->]]|(rows & Hexec & -> & ->)].
  { done. }
  unfold Postgres.sql_exec in Hexec.
  destruct (Postgres.migrations p) as [old|] eqn:Hold; [|done].
  injection Hexec as <-.
  assert (Hc : clean (Postgres.withMigrations p (delete v old))).
  { intros rows x [= <-] Hx.
    destruct (decide (v = x)) as [->|Hne].
    - by rewrite lookup_delete_eq in Hx.
    - rewrite lookup_delete_ne in Hx by done.
      by specialize (Hdirty old x Hold Hx). }
  split; [by apply clean_dirtyOnly|done].
Qed.

Lemma Run_keeps_migrations migration p :
  Postgres.migrations (Postgres.Run run_script migration p).1 = Postgres.migrations p.
Proof.
  unfold Postgres.Run. by destruct (run_script migration (Postgres.database p)).
Qed.

Lemma Run_dirtyOnly v migration p p' r :
  Postgres.Run run_script migration p = (p', r) → dirtyOnly v p → dirtyOnly v p'.
Proof.
  intros Hrun Hd rows x Hrows. apply (Hd rows x).
  by rewrite <- (Run_keeps_migrations migration p), Hrun.
Qed.

Variable m : Migrate (@Postgres.Postgres D).
Hypothesis Hdrv : databaseDrv m = ExtendedDrv extras.

(** From a history without a dirty row, one record leaves no row dirty but
    its own, at every call, and none at all when it completes. *)
Lemma handleSingleMigration_markers (migr : Migration) (w : World) :
  clean (backend w) →
  ∃ new,
    trace (handleSingleMigration m migr w).1 = trace w ++ new ∧
    Forall (λ cb, dirtyOnly (int_of_uint (Version migr)) cb.2) new ∧
    dirtyOnly (int_of_uint (Version migr))
      (backend (handleSingleMigration m migr w).1) ∧
    ((handleSingleMigration m migr w).2 = None →
       clean (backend (handleSingleMigration m migr w).1)).
Proof.
  intros Hclean.
  unfold handleSingleMigration, andThen, orErrorf, invoke, skip, exec_call.
  rewrite Hdrv. cbn [asDriver Embedded extras Postgres.PostgresExtras
    AddDirtyMigration UpdateMigrationDirtyFlag RemoveMigration Run].
  destruct (UpKindMigration migr), (Body migr) as [body|].
  all: repeat match goal with
    | |- context [Postgres.AddDirtyMigration fault ?v ?p] =>
        first [is_var p | unify p (backend w)];
        let H := fresh "Hop" in
        destruct (Postgres.AddDirtyMigration fault v p) as [? [?|]] eqn:H;
        (apply AddDirtyMigration_marks in H as [? _]; [|done]);
        cbn [backend logged fst snd trace]
    | |- context [Postgres.UpdateMigrationDirtyFlag fault ?v true ?p] =>
        first [is_var p | unify p (backend w)];
        let H := fresh "Hop" in
        destruct (Postgres.UpdateMigrationDirtyFlag fault v true p) as [? [?|]] eqn:H;
        (apply UpdateMigrationDirtyFlag_marks in H; [|done]);
        cbn [backend logged fst snd trace]
    | |- context [Postgres.Run run_script ?b ?p] =>
        is_var p;
        let H := fresh "Hop" in
        destruct (Postgres.Run run_script b p) as [? [?|]] eqn:H;
        (apply (Run_dirtyOnly (int_of_uint (Version migr))) in H; [|done]);
        cbn [backend logged fst snd trace]
    | |- context [Postgres.UpdateMigrationDirtyFlag fault ?v false ?p] =>
        is_var p;
        let H := fresh "Hop" in
        destruct (Postgres.UpdateMigrationDirtyFlag fault v false p) as [? [?|]] eqn:H;
        (apply UpdateMigrationDirtyFlag_clears in H as [? ?]; [|done]);
        cbn [backend logged fst snd trace]
    | |- context [Postgres.RemoveMigration fault ?v ?p] =>
        is_var p;
        let H := fresh "Hop" in
        destruct (Postgres.RemoveMigration fault v p) as [? [?|]] eqn:H;
        (apply RemoveMigration_clears in H as [? ?]; [|done]);
        cbn [backend logged fst snd trace]
    end.
  all: eexists; split; [rewrite <- ?app_assoc; reflexivity|].
  all: split; [repeat constructor; done|]. 
  all: split; [done|]; try done; auto.
Qed.

Lemma UpdateMigrationDirtyFlag_flags v p p' :
  Postgres.UpdateMigrationDirtyFlag fault v true p = (p', None) →
  (∃ rows, Postgres.migrations p = Some rows ∧
           is_Some (rows !! int_of_uint v)) →
  marked (int_of_uint v) p'.
Proof.
  int64_key v. intros Hrun (old & Hold & [d Hd]).
  apply inTransaction_cases in Hrun as [[_ [e [=]]]|(rows & Hexec & -> & _)].
  unfold Postgres.sql_exec in Hexec. rewrite Hold in Hexec.
  injection Hexec as <-. eexists. split; [done|].
  by rewrite lookup_alter_eq, Hd.
Qed.

Lemma Run_marked v migration p p' r :
  Postgres.Run run_script migration p = (p', r) → marked v p → marked v p'.
Proof.
  intros Hrun (rows & Hrows & Hv). exists rows. split; [|done].
  by rewrite <- Hrows, <- (Run_keeps_migrations migration p), Hrun.
Qed.

(** A record whose script fails keeps the marker that step 1 has set. *)
Lemma handleSingleMigration_failed_script (migr : Migration) (w w' : World)
    (err : error) :
  handleSingleMigration m migr w = (w', Some err) →
  fst <$> last (trace w') = Some (CRun (BufferedBody migr)) →
  (UpKindMigration migr = true ∨
   ∃ rows, Postgres.migrations (backend w) = Some rows ∧
           is_Some (rows !! int_of_uint (Version migr))) →
  marked (int_of_uint (Version migr)) (backend w').
Proof.
  unfold handleSingleMigration, andThen, orErrorf, invoke, skip, exec_call.
  rewrite Hdrv. cbn [asDriver Embedded extras Postgres.PostgresExtras
    AddDirtyMigration UpdateMigrationDirtyFlag RemoveMigration Run].
  intros Hrun Hlast Hrow. revert Hrun.
  destruct (UpKindMigration migr) eqn:Hup, (Body migr) as [body|].
  all: repeat match goal with
    | |- context [Postgres.AddDirtyMigration fault ?v ?p] =>
        first [is_var p | unify p (backend w)];
        let H := fresh "Hop" in
        destruct (Postgres.AddDirtyMigration fault v p) as [? [?|]] eqn:H;
        cbn [backend logged fst snd trace]
    | |- context [Postgres.UpdateMigrationDirtyFlag fault ?v ?d ?p] =>
        first [is_var p | unify p (backend w)];
        let H := fresh "Hop" in
        destruct (Postgres.UpdateMigrationDirtyFlag fault v d p) as [? [?|]] eqn:H;
        cbn [backend logged fst snd trace]
    | |- context [Postgres.Run run_script ?b ?p] =>
        is_var p;
        let H := fresh "Hop" in
        destruct (Postgres.Run run_script b p) as [? [?|]] eqn:H;
        cbn [backend logged fst snd trace]
    | |- context [Postgres.RemoveMigration fault ?v ?p] =>
        is_var p;
        let H := fresh "Hop" in
        destruct (Postgres.RemoveMigration fault v p) as [? [?|]] eqn:H;
        cbn [backend logged fst snd trace]
    end.
  all: intros ?; simplify_eq; cbn [trace logged backend] in Hlast;
    rewrite last_snoc in Hlast; cbn in Hlast; simplify_eq.
  - eapply Run_marked; [done|].
    by eapply AddDirtyMigration_marks_row.
  - destruct Hrow as [[=]|Hrow].
    eapply Run_marked; [done|]. by eapply UpdateMigrationDirtyFlag_flags.
Qed.

(** The consumer loop keeps at most one row dirty at every call. *)
Lemma runMigrations_markers (ret : list chan_value) (w : World) :
  clean (backend w) →
  ∃ new,
    trace (runMigrations m ret w).1 = trace w ++ new ∧
    Forall (λ cb, atMostOneDirty cb.2) new ∧
    atMostOneDirty (backend (runMigrations m ret w).1) ∧
    ((runMigrations m ret w).2 = None → clean (backend (runMigrations m ret w).1)).
Proof.
  revert w. induction ret as [|[err|migr] ret IH]; intros w Hclean;
    cbn [runMigrations].
  - exists []. rewrite app_nil_r. repeat split; [done| |done].
    by apply (dirtyOnly_atMostOne 0), clean_dirtyOnly.
  - exists []. rewrite app_nil_r. repeat split; [done| |done].
    by apply (dirtyOnly_atMostOne 0), clean_dirtyOnly.
  - unfold andThen.
    destruct (handleSingleMigration_markers migr w Hclean)
      as (new1 & Htr1 & Hall1 & Hd1 & Hc1).
    assert (Hall1' : Forall (λ cb, atMostOneDirty cb.2) new1).
    { eapply Forall_impl; [done|]. intros cb. apply dirtyOnly_atMostOne. }
    destruct (handleSingleMigration m migr w) as [w1 [e|]]; cbn in *.
    + exists new1. repeat split; [done|done| |done].
      by apply (dirtyOnly_atMostOne (int_of_uint (Version migr))).
    + destruct (IH w1 (Hc1 eq_refl)) as (new2 & Htr2 & Hall2 & Hd2 & Hc2).
      exists (new1 ++ new2). rewrite Htr2, Htr1, app_assoc.
      repeat split; [|done|done]. by apply Forall_app.
Qed.

End PostgresFacts.

(** ** The version pointer under the executor *)

Section PointerFacts.

Context {D : Type}.
Variable run_script : bytes → D → D * option error.
Variable fault : @Pointer.Basic D → option error.
Variable basicLock basicUnlock : @Pointer.Basic D → @Pointer.Basic D * option error.
Variable m : Migrate (@Pointer.Basic D).
Hypothesis Hdrv :
  databaseDrv m = BasicDrv (Pointer.driver run_script fault basicLock basicUnlock).

Lemma handleSingleMigration_pointer (migr : Migration) (w w' : World) :
  handleSingleMigration m migr w = (w', None) →
  Pointer.version (backend w') = TargetVersion migr ∧
  Pointer.dirty (backend w') = false.
Proof.
  unfold handleSingleMigration, andThen, orErrorf, invoke, skip, exec_call.
  rewrite Hdrv. cbn [asDriver Pointer.driver SetVersion Run].
  unfold Pointer.SetVersion, Pointer.Run.
  repeat case_match; intros ?; simplify_eq; done.
Qed.

Lemma handleSingleMigration_pointer_failed_script (migr : Migration)
    (w w' : World) (err : error) :
  handleSingleMigration m migr w = (w', Some err) →
  fst <$> last (trace w') = Some (CRun (BufferedBody migr)) →
  Pointer.version (backend w') = TargetVersion migr ∧
  Pointer.dirty (backend w') = true.
Proof.
  unfold handleSingleMigration, andThen, orErrorf, invoke, skip, exec_call.
  rewrite Hdrv. cbn [asDriver Pointer.driver SetVersion Run].
  unfold Pointer.SetVersion, Pointer.Run.
  repeat case_match; intros ? Hlast; simplify_eq;
    cbn [trace logged backend] in Hlast; rewrite last_snoc in Hlast;
    cbn in Hlast; simplify_eq; done.
Qed.

Lemma runMigrations_pointer (ret : list chan_value) (w w' : World) :
  Pointer.dirty (backend w) = false →
  runMigrations m ret w = (w', None) →
  Pointer.dirty (backend w') = false.
Proof.
  revert w. induction ret as [|[err|migr] ret IH]; intros w Hclean;
    cbn [runMigrations]; unfold skip, andThen.
  - by intros [= <-].
  - done.
  - destruct (handleSingleMigration m migr w) as [w1 [e|]] eqn:Hone; [done|].
    apply handleSingleMigration_pointer in Hone as [_ Hone].
    by apply IH.
Qed.

End PointerFacts.

(** C1.  The executor makes the calls of [executorSteps] in order and no
    other: mark dirty, run the buffered content if the record has a body,
    mark clean, with the marker calls chosen by the driver's capability and
    the record's direction.  It stops at the first call that fails and
    returns nil exactly when all of them have succeeded. *)
Theorem handleSingleMigration_three_steps {B : Type} (m : Migrate B)
    (migr : Migration) (w : World) :
  executorSteps m migr =
    match databaseDrv m with
    | ExtendedDrv _ =>
        if UpKindMigration migr then
          CAddDirtyMigration (Version migr) :: runBody migr
            ++ [CUpdateMigrationDirtyFlag (Version migr) false]
        else
          CUpdateMigrationDirtyFlag (Version migr) true :: runBody migr
            ++ [CRemoveMigration (Version migr)]
    | BasicDrv _ =>
        CSetVersion (TargetVersion migr) true :: runBody migr
          ++ [CSetVersion (TargetVersion migr) false]
    end ∧
  (handleSingleMigration m migr w).1 = (callInOrder m (executorSteps m migr) w).1 ∧
  ((handleSingleMigration m migr w).2 = None ↔
   (callInOrder m (executorSteps m migr) w).2 = None) ∧
  (∃ k, (trace (handleSingleMigration m migr w).1).*1
          = (trace w).*1 ++ take k (executorSteps m migr)) ∧
  ((handleSingleMigration m migr w).2 = None →
     (trace (handleSingleMigration m migr w).1).*1
       = (trace w).*1 ++ executorSteps m migr).
Proof.
  destruct (handleSingleMigration_callInOrder m migr w) as [Hw Herr].
  destruct (callInOrder_trace m (executorSteps m migr) w) as (k & Hk & Htr & Hdone).
  split; [|split; [done|split; [done|split]]].
  - unfold executorSteps, markDirty, markClean.
    by destruct (databaseDrv m), (UpKindMigration migr).
  - exists k. by rewrite Hw.
  - intros Hnil. rewrite Hw, Htr, Hdone by by apply Herr.
    by rewrite firstn_all.
Qed.

(** C2.  When a call of the executor fails, the executor returns at once:
    the calls before it have succeeded and stay as they are, the world is
    the one the failing call left, and the error wraps the driver's error
    with the version handed to the failing marker call, or the record's
    version for its body.  On the Postgres history table and on the basic
    version pointer, a record whose script fails leaves its dirty marker
    set: for an Up record the row of its version is dirty, for a Down
    record the row that was there is dirty, and the pointer is dirty at
    the target version.  The row of a version is the one under
    [int64(version)], the key the driver's statements get. *)
Theorem handleSingleMigration_fails_fast :
  (∀ (B : Type) (m : Migrate B) (migr : Migration) (w w' : World) (err : error),
     handleSingleMigration m migr w = (w', Some err) →
     ∃ earlier c rest wd e format,
       executorSteps m migr = earlier ++ c :: rest ∧
       callInOrder m earlier w = (wd, None) ∧
       exec_call m c (backend wd) = (backend w', Some e) ∧
       w' = logged c wd (backend w') ∧
       err = Errorf format (reportedVersion migr c) e) ∧
  (∀ (B : Type) (m : Migrate B) (migr : Migration) (w : World) b1 b2 e,
     is_Some (Body migr) →
     exec_call m (markDirty m migr) (backend w) = (b1, None) →
     exec_call m (CRun (BufferedBody migr)) b1 = (b2, Some e) →
     handleSingleMigration m migr w =
       (logged (CRun (BufferedBody migr)) (logged (markDirty m migr) w b1) b2,
        Some (Errorf "failed to run migration %d body: %w" (Version migr) e))) ∧
  (∀ (D : Type) run_script fault pgLock pgUnlock pgSetVersion
     (m : Migrate (@Postgres.Postgres D)) (migr : Migration) (w w' : World)
     (err : error),
     databaseDrv m = ExtendedDrv
       (Postgres.PostgresExtras run_script fault pgLock pgUnlock pgSetVersion) →
     handleSingleMigration m migr w = (w', Some err) →
     fst <$> last (trace w') = Some (CRun (BufferedBody migr)) →
     (UpKindMigration migr = true ∨
      ∃ rows, Postgres.migrations (backend w) = Some rows ∧
              is_Some (rows !! int_of_uint (Version migr))) →
     marked (int_of_uint (Version migr)) (backend w')) ∧
  (∀ (D : Type) run_script fault basicLock basicUnlock
     (m : Migrate (@Pointer.Basic D)) (migr : Migration) (w w' : World)
     (err : error),
     databaseDrv m = BasicDrv
       (Pointer.driver run_script fault basicLock basicUnlock) →
     handleSingleMigration m migr w = (w', Some err) →
     fst <$> last (trace w') = Some (CRun (BufferedBody migr)) →
     Pointer.version (backend w') = TargetVersion migr ∧
     Pointer.dirty (backend w') = true).
Proof.
  split; [|split; [|split]].
  - intros B m migr w w' err. apply handleSingleMigration_failure.
  - intros B m migr w b1 b2 e [body Hbody]. apply handleSingleMigration_script_fails.
    by rewrite Hbody.
  - intros D run_script fault pgLock pgUnlock pgSetVersion m migr w w' err Hdrv.
    by eapply handleSingleMigration_failed_script.
  - intros D run_script fault basicLock basicUnlock m migr w w' err Hdrv.
    by eapply handleSingleMigration_pointer_failed_script.
Qed.

Lemma handleSingleMigration_fails_fast_witness :
  marked 20250101000135
    (backend
       (handleSingleMigration
          (Scenario.migratorWith (λ _, Scenario.corrupted)
             (ExtendedDrv Scenario.postgres) Scenario.samples Scenario.running)
          {| Version := 20250101000135; TargetVersion := 20250101000135;
             UpKindMigration := true; Body := Some Scenario.corrupted |}
          (Scenario.start Scenario.fresh)).1).
Proof.
  destruct handleSingleMigration_fails_fast as (_ & _ & H & _).
  eapply (H _ Scenario.run_script Scenario.healthy Scenario.unlocked
            Scenario.unlocked (λ _ _ p, (p, None))
            (Scenario.migratorWith (λ _, Scenario.corrupted)
               (ExtendedDrv Scenario.postgres) Scenario.samples Scenario.running)
            {| Version := 20250101000135; TargetVersion := 20250101000135;
               UpKindMigration := true; Body := Some Scenario.corrupted |}
            (Scenario.start Scenario.fresh)).
  - reflexivity.
  - reflexivity.
  - reflexivity.
  - left. reflexivity.
Defined.

(** C5.  [DoMigration] makes no dirty check, so the bound of the claim
    does not hold of the states it reaches.  With the corrupted samples of
    the test suite, on a fresh history: [DoMigration] of 20250101000135
    fails in its script and leaves that row dirty, which
    [IsDatabaseDirty] reports.  [DoMigration] of 20250101000140 on that
    history is not refused: it takes the lock, asks [IsMigrationApplied]
    and hands the record to the executor.  After [AddDirtyMigration] two
    rows are dirty; the operation returns nil and leaves 20250101000140
    applied next to the dirty row.  When the second script fails as well,
    both rows stay dirty. *)
Theorem DoMigration_does_not_refuse_a_dirty_history :
  clean (backend (Scenario.start Scenario.fresh)) ∧
  (DoMigration (Scenario.onPostgres Scenario.oneCorrupted) 20250101000135
     (Scenario.start Scenario.fresh)).2
    = Some (Errorf "failed to run migration %d body: %w" 20250101000135
              (PqError "syntax_error")) ∧
  Postgres.migrations (backend Scenario.halfApplied)
    = Some {[ 20250101000135 := true ]} ∧
  (Postgres.IsDatabaseDirty Scenario.healthy (backend Scenario.halfApplied)).2
    = (20250101000135, true, None) ∧
  (DoMigration (Scenario.onPostgres Scenario.oneCorrupted) 20250101000140
     Scenario.halfApplied).2 = None ∧
  (trace (DoMigration (Scenario.onPostgres Scenario.oneCorrupted) 20250101000140
            Scenario.halfApplied).1).*1
    = (trace Scenario.halfApplied).*1 ++
      [CLock; CIsMigrationApplied 20250101000140;
       CAddDirtyMigration 20250101000140; CRun [];
       CUpdateMigrationDirtyFlag 20250101000140 false; CUnlock] ∧
  (∃ b,
     trace (DoMigration (Scenario.onPostgres Scenario.oneCorrupted)
              20250101000140 Scenario.halfApplied).1 !! 7%nat
       = Some (CAddDirtyMigration 20250101000140, b) ∧
     Postgres.migrations b
       = Some {[ 20250101000135 := true; 20250101000140 := true ]} ∧
     ¬ atMostOneDirty b) ∧
  Postgres.migrations
    (backend (DoMigration (Scenario.onPostgres Scenario.oneCorrupted)
                20250101000140 Scenario.halfApplied).1)
    = Some {[ 20250101000135 := true; 20250101000140 := false ]} ∧
  (∃ rows,
     Postgres.migrations
       (backend
          (DoMigration (Scenario.onPostgres (λ _, Scenario.corrupted))
             20250101000140
             (DoMigration (Scenario.onPostgres (λ _, Scenario.corrupted))
                20250101000135 (Scenario.start Scenario.fresh)).1).1)
     = Some rows ∧
     rows !! 20250101000135 = Some true ∧
     rows !! 20250101000140 = Some true ∧
     ¬ atMostOneDirty
         (backend
            (DoMigration (Scenario.onPostgres (λ _, Scenario.corrupted))
               20250101000140
               (DoMigration (Scenario.onPostgres (λ _, Scenario.corrupted))
                  20250101000135 (Scenario.start Scenario.fresh)).1).1)).
Proof.
  split.
  { intros rows v [= <-]. by rewrite lookup_empty. }
  split; [reflexivity|]. split; [reflexivity|]. split; [reflexivity|].
  split; [reflexivity|]. split; [reflexivity|].
  split.
  { eexists. split; [reflexivity|]. split; [reflexivity|].
    intros Hone.
    specialize (Hone _ 20250101000135 20250101000140 eq_refl eq_refl eq_refl).
    discriminate Hone. }
  split; [reflexivity|].
  eexists. split; [reflexivity|]. split; [reflexivity|]. split; [reflexivity|].
  intros Hone.
  specialize (Hone _ 20250101000135 20250101000140 eq_refl eq_refl eq_refl).
  discriminate Hone.
Qed.

(** ** Single-version operations *)

Lemma errors_Is_refl (err : error) : errors_Is err err = true.
Proof. destruct err; cbn; by rewrite bool_decide_eq_true_2. Qed.

Lemma errors_Is_unlockErr {B : Type} (m : Migrate B) (prev : error) (w : World) :
  ∃ err, (unlockErr m (Some prev) w).2 = Some err ∧ errors_Is err prev = true.
Proof.
  unfold unlockErr. destruct (invoke m CUnlock w) as [w' [e|]]; cbn.
  - eexists. split; [done|]. cbn.
    case_bool_decide; [done|]. by rewrite errors_Is_refl.
  - eexists. split; [done|]. apply errors_Is_refl.
Qed.

Lemma unlockErr_trace {B : Type} (m : Migrate B) (prev : option error) (w : World) :
  (trace (unlockErr m prev w).1).*1 = (trace w).*1 ++ [CUnlock] ∧
  sent (unlockErr m prev w).1 = sent w.
Proof.
  unfold unlockErr, invoke.
  destruct (exec_call m CUnlock (backend w)) as [b [e|]]; cbn;
    by rewrite fmap_app.
Qed.

(** C7.  Once the lock is taken, [DoMigration] and [UndoMigration] on a
    driver that is not an [ExtendedDriver] return the capability error:
    the driver sees the lock and the unlock and nothing is sent on a
    channel.  On an [ExtendedDriver], [DoMigration] of a version that
    [IsMigrationApplied] reports applied returns NoChange, and so does
    [UndoMigration] of a version it reports not applied: the driver sees
    the lock, the query and the unlock, never [Run]. *)
Theorem single_version_operations_short_circuit {B : Type} (m : Migrate B)
    (version : Z) (w : World) :
  (∀ d b1, databaseDrv m = BasicDrv d → Lock d (backend w) = (b1, None) →
     (∃ err, (DoMigration m version w).2 = Some err ∧
        errors_Is err notExtended = true) ∧
     (trace (DoMigration m version w).1).*1 = (trace w).*1 ++ [CLock; CUnlock] ∧
     sent (DoMigration m version w).1 = sent w ∧
     (∃ err, (UndoMigration m version w).2 = Some err ∧
        errors_Is err notExtended = true) ∧
     (trace (UndoMigration m version w).1).*1 = (trace w).*1 ++ [CLock; CUnlock] ∧
     sent (UndoMigration m version w).1 = sent w) ∧
  (∀ ed b1 b2, databaseDrv m = ExtendedDrv ed →
     Lock (Embedded ed) (backend w) = (b1, None) →
     IsMigrationApplied ed version b1 = (b2, (true, None)) →
     (∃ err, (DoMigration m version w).2 = Some err ∧
        errors_Is err ErrNoChange = true) ∧
     (trace (DoMigration m version w).1).*1
       = (trace w).*1 ++ [CLock; CIsMigrationApplied version; CUnlock] ∧
     sent (DoMigration m version w).1 = sent w) ∧
  (∀ ed b1 b2, databaseDrv m = ExtendedDrv ed →
     Lock (Embedded ed) (backend w) = (b1, None) →
     IsMigrationApplied ed version b1 = (b2, (false, None)) →
     (∃ err, (UndoMigration m version w).2 = Some err ∧
        errors_Is err ErrNoChange = true) ∧
     (trace (UndoMigration m version w).1).*1
       = (trace w).*1 ++ [CLock; CIsMigrationApplied version; CUnlock] ∧
     sent (UndoMigration m version w).1 = sent w).
Proof.
  split; [|split].
  - intros d b1 Hdrv Hlock.
    unfold DoMigration, UndoMigration, lock, invoke, exec_call.
    rewrite Hdrv. cbn [asDriver]. rewrite Hlock.
    pose proof (errors_Is_unlockErr m notExtended (logged CLock w b1)) as Herr.
    destruct (unlockErr_trace m (Some notExtended) (logged CLock w b1))
      as [Htr Hsent].
    cbn [trace sent logged] in Htr, Hsent.
    rewrite fmap_app, <- app_assoc in Htr. done.
  - intros ed b1 b2 Hdrv Hlock Happlied.
    unfold DoMigration, lock, invoke, exec_call, isMigrationApplied.
    rewrite Hdrv. cbn [asDriver backend logged]. rewrite Hlock.
    cbn [backend logged]. rewrite Happlied.
    set (wq := logged (CIsMigrationApplied version) (logged CLock w b1) b2).
    pose proof (errors_Is_unlockErr m ErrNoChange wq) as Herr.
    destruct (unlockErr_trace m (Some ErrNoChange) wq) as [Htr Hsent].
    subst wq. cbn [trace sent logged] in Htr, Hsent.
    rewrite !fmap_app, <- !app_assoc in Htr. done.
  - intros ed b1 b2 Hdrv Hlock Happlied.
    unfold UndoMigration, lock, invoke, exec_call, isMigrationApplied.
    rewrite Hdrv. cbn [asDriver backend logged]. rewrite Hlock.
    cbn [backend logged negb]. rewrite Happlied. cbn [negb].
    set (wq := logged (CIsMigrationApplied version) (logged CLock w b1) b2).
    pose proof (errors_Is_unlockErr m ErrNoChange wq) as Herr.
    destruct (unlockErr_trace m (Some ErrNoChange) wq) as [Htr Hsent].
    subst wq. cbn [trace sent logged] in Htr, Hsent.
    rewrite !fmap_app, <- !app_assoc in Htr. done.
Qed.

Lemma single_version_operations_short_circuit_witness :
  (∃ err,
     (DoMigration (Scenario.migrator (BasicDrv Scenario.idle) Scenario.samples
                     Scenario.running)
        20250101000135 (Scenario.start tt)).2 = Some err ∧
     errors_Is err notExtended = true) ∧
  (trace
     (DoMigration (Scenario.migrator (BasicDrv Scenario.idle) Scenario.samples
                     Scenario.running)
        20250101000135 (Scenario.start tt)).1).*1 = [CLock; CUnlock].
Proof.
  destruct (single_version_operations_short_circuit
    (Scenario.migrator (BasicDrv Scenario.idle) Scenario.samples Scenario.running)
    20250101000135 (Scenario.start tt)) as (H & _ & _).
  destruct (H Scenario.idle tt eq_refl eq_refl) as (Herr & Htrace & _).
  split; [exact Herr|exact Htrace].
Defined.

(** ** The queries of the history driver *)

Section QueryFacts.

Context {D : Type}.
Variable fault : Postgres.ConnOp → @Postgres.Postgres D → option error.

Lemma scanRows_ok p (rows acc l : list Z) :
  Postgres.scanRows fault p rows acc = Ok l → l = acc ++ rows.
Proof.
  revert acc. induction rows as [|r rows IH]; intros acc; cbn.
  - intros [= <-]. by rewrite app_nil_r.
  - destruct (fault Postgres.OpScan p); [done|].
    intros Hl. apply IH in Hl. by rewrite <- app_assoc in Hl.
Qed.

Lemma scanRows_healthy p (rows acc : list Z) :
  fault Postgres.OpScan p = None →
  Postgres.scanRows fault p rows acc = Ok (acc ++ rows).
Proof.
  intros Hscan. revert acc. induction rows as [|r rows IH]; intros acc; cbn.
  - by rewrite app_nil_r.
  - by rewrite Hscan, IH, <- app_assoc.
Qed.

Lemma GetAllAppliedMigrations_rows p l :
  (Postgres.GetAllAppliedMigrations fault p).2 = Ok l →
  ∃ rows, Postgres.migrations p = Some rows ∧
          l = merge_sort Z.ge (map_to_list rows).*1.
Proof.
  unfold Postgres.GetAllAppliedMigrations, Postgres.queryRow,
    Postgres.select_timestamps_desc.
  destruct (fault Postgres.OpQuery p); [done|].
  destruct (Postgres.migrations p) as [rows|]; [|done].
  destruct (Postgres.scanRows fault p _ []) as [l'|] eqn:Hscan; [|done].
  destruct (fault Postgres.OpRowsErr p); [done|].
  intros [= <-]. apply scanRows_ok in Hscan. eauto.
Qed.

End QueryFacts.

Global Instance Zge_trans : Transitive Z.ge.
Proof. intros x y z. lia. Qed.

Global Instance Zge_total : Total Z.ge.
Proof. intros x y. lia. Qed.

Lemma descending_strict (l : list Z) :
  StronglySorted Z.ge l → NoDup l → StronglySorted Z.gt l.
Proof.
  induction 1 as [|a l Hsorted IH Hall]; intros Hnd; [constructor|].
  apply NoDup_cons in Hnd as [Hin Hnd].
  constructor; [by apply IH|].
  apply Forall_forall. intros x Hx.
  rewrite Forall_forall in Hall. specialize (Hall x Hx).
  assert (a ≠ x) by (intros ->; done). lia.
Qed.

Lemma descending_lookup (l : list Z) (i j : nat) (a x : Z) :
  StronglySorted Z.gt l → l !! i = Some a → l !! j = Some x →
  (i < j)%nat → x < a.
Proof.
  intros Hsorted. revert i j.
  induction Hsorted as [|b l Hsorted IH Hall]; intros i j Hi Hj Hlt; [done|].
  destruct j as [|j]; [lia|]. cbn in Hj.
  destruct i as [|i]; cbn in Hi.
  - injection Hi as ->. rewrite Forall_forall in Hall.
    apply list_elem_of_lookup_2 in Hj. specialize (Hall x Hj). lia.
  - apply (IH i j); [done|done|lia].
Qed.

(** C9.  [GetAllAppliedMigrations] returns the timestamps of the
    migrations table, each once, in strictly descending order; on a
    connection without faults it does return them.  So in the bulk Down
    pipeline the next list element, taken as target, is the greatest
    applied version below the record's own, and the record without a next
    element is that of the oldest applied version. *)
Theorem GetAllAppliedMigrations_strictly_descending {D : Type}
    (fault : Postgres.ConnOp → @Postgres.Postgres D → option error)
    (p : @Postgres.Postgres D) :
  (∀ l, (Postgres.GetAllAppliedMigrations fault p).2 = Ok l →
     StronglySorted Z.gt l ∧
     (∃ rows, Postgres.migrations p = Some rows ∧
        ∀ v, v ∈ l ↔ is_Some (rows !! v)) ∧
     (∀ i a t, downTargets l !! i = Some (a, t) →
        l !! i = Some a ∧
        (l !! S i = Some t ∧ t < a ∧ (∀ x, x ∈ l → x < a → x <= t) ∨
         S i = length l ∧ t = -1 ∧ (∀ x, x ∈ l → a <= x)))) ∧
  (∀ rows, Postgres.migrations p = Some rows → (∀ op, fault op p = None) →
     ∃ l, Postgres.GetAllAppliedMigrations fault p = (p, Ok l)).
Proof.
  split.
  - intros l Hl. apply GetAllAppliedMigrations_rows in Hl as (rows & Hrows & ->).
    set (l := merge_sort Z.ge (map_to_list rows).*1).
    assert (Hperm : l ≡ₚ (map_to_list rows).*1) by apply merge_sort_Permutation.
    assert (Hsorted : StronglySorted Z.gt l).
    { apply descending_strict.
      - apply (StronglySorted_merge_sort Z.ge).
      - rewrite Hperm. apply NoDup_fst_map_to_list. }
    split; [done|]. split.
    + exists rows. split; [done|]. intros v. rewrite Hperm.
      rewrite list_elem_of_fmap. split.
      * intros ([k d] & -> & Hin). apply elem_of_map_to_list in Hin. by eexists.
      * intros [d Hd]. exists (v, d). split; [done|].
        by apply elem_of_map_to_list.
    + intros i a t Hi. rewrite downTargets_lookup in Hi.
      destruct (l !! i) as [a'|] eqn:Ha; [|done]. injection Hi as -> <-.
      split; [done|].
      destruct (l !! S i) as [t|] eqn:Ht; cbn; [left|right].
      * split; [done|]. split.
        { apply (descending_lookup l i (S i)); [done|done|done|lia]. }
        intros x Hx Hlt. apply list_elem_of_lookup in Hx as [j Hj].
        destruct (decide (j = S i)) as [->|Hne]; [by simplify_eq|].
        destruct (decide (j < S i)%nat) as [Hjlt|Hjge].
        -- destruct (decide (j = i)) as [->|Hne']; [simplify_eq; lia|].
           pose proof (descending_lookup l j i x a Hsorted Hj Ha). lia.
        -- pose proof (descending_lookup l (S i) j t x Hsorted Ht Hj). lia.
      * apply lookup_ge_None_1 in Ht. apply lookup_lt_Some in Ha as Hlt.
        split; [lia|]. split; [done|].
        intros x Hx. apply list_elem_of_lookup in Hx as [j Hj].
        apply lookup_lt_Some in Hj as Hjlt.
        destruct (decide (j = i)) as [->|Hne]; [simplify_eq; lia|].
        pose proof (descending_lookup l j i x a Hsorted Hj Ha). lia.
  - intros rows Hrows Hfault.
    unfold Postgres.GetAllAppliedMigrations, Postgres.queryRow,
      Postgres.select_timestamps_desc.
    rewrite !Hfault, Hrows, scanRows_healthy by done. eauto.
Qed.

Lemma GetAllAppliedMigrations_strictly_descending_witness :
  (Postgres.GetAllAppliedMigrations Scenario.healthy
     {| Postgres.migrations :=
          Some {[ 20250101000130 := false; 20250101000140 := false;
                  20250101000135 := false ]};
        Postgres.database := ([] : list bytes) |}).2
  = Ok [20250101000140; 20250101000135; 20250101000130] ∧
  StronglySorted Z.gt [20250101000140; 20250101000135; 20250101000130].
Proof.
  split; [reflexivity|].
  destruct (GetAllAppliedMigrations_strictly_descending Scenario.healthy
    {| Postgres.migrations :=
         Some {[ 20250101000130 := false; 20250101000140 := false;
                 20250101000135 := false ]};
       Postgres.database := ([] : list bytes) |}) as [H _].
  destruct (H [20250101000140; 20250101000135; 20250101000130])
    as [Hsorted _]; [reflexivity|exact Hsorted].
Defined.

Lemma select_dirty_clean (rows : gmap Z bool) :
  (∀ v, rows !! v ≠ Some true) →
  Postgres.select_dirty (Some rows) = Err ErrNoRows.
Proof.
  intros Hclean. unfold Postgres.select_dirty.
  destruct (filter (λ row, row.2 = true) (map_to_list rows))
    as [|[v d] found] eqn:Hfound; [done|].
  assert (Hin : (v, d) ∈ filter (λ row : Z * bool, row.2 = true) (map_to_list rows))
    by (rewrite Hfound; left).
  apply list_elem_of_filter in Hin as [Hd Hin]. cbn in Hd. subst d.
  apply elem_of_map_to_list in Hin. by destruct (Hclean v).
Qed.

(** C10.  [IsMigrationApplied] returns (false, nil) and [IsDatabaseDirty]
    returns (0, false, nil) when the query ends in [sql.ErrNoRows] or in
    the [undefined_table] error of Postgres.  So without a migrations
    table no version is applied and the database is not dirty; with a
    table, a version without a row (looked up as [int64(version)], the
    way the query gets it) is not applied, and a table without a dirty
    row is not dirty. *)
Theorem missing_history_is_not_applied_not_dirty {D : Type}
    (fault : Postgres.ConnOp → @Postgres.Postgres D → option error)
    (p : @Postgres.Postgres D) (version : Z) :
  (∀ err, fault Postgres.OpQuery p = Some err →
     err = ErrNoRows ∨ err = Postgres.undefined_table →
     Postgres.IsMigrationApplied fault version p = (p, (false, None)) ∧
     Postgres.IsDatabaseDirty fault p = (p, (0, false, None))) ∧
  (fault Postgres.OpQuery p = None →
     (Postgres.migrations p = None →
        Postgres.IsMigrationApplied fault version p = (p, (false, None)) ∧
        Postgres.IsDatabaseDirty fault p = (p, (0, false, None))) ∧
     (∀ rows, Postgres.migrations p = Some rows →
        rows !! int_of_uint version = None →
        Postgres.IsMigrationApplied fault version p = (p, (false, None))) ∧
     (clean p → Postgres.IsDatabaseDirty fault p = (p, (0, false, None)))).
Proof.
  unfold Postgres.IsMigrationApplied, Postgres.IsDatabaseDirty, Postgres.queryRow.
  split.
  - by intros err -> [-> | ->].
  - intros ->. split; [|split].
    + by intros ->.
    + intros rows -> Hrow. cbn. by rewrite Hrow.
    + intros Hclean. destruct (Postgres.migrations p) as [rows|] eqn:Hrows; [|done].
      rewrite select_dirty_clean; [done|]. intros v. by apply Hclean.
Qed.

Lemma missing_history_is_not_applied_not_dirty_witness :
  Postgres.IsMigrationApplied Scenario.healthy 20250101000130
    {| Postgres.migrations := None; Postgres.database := ([] : list bytes) |}
  = ({| Postgres.migrations := None; Postgres.database := [] |}, (false, None)) ∧
  Postgres.IsDatabaseDirty Scenario.healthy Scenario.fresh
  = (Scenario.fresh, (0, false, None)).
Proof.
  split.
  - destruct (missing_history_is_not_applied_not_dirty Scenario.healthy
      {| Postgres.migrations := None; Postgres.database := ([] : list bytes) |}
      20250101000130) as [_ H].
    destruct (H eq_refl) as [Hmissing _].
    destruct (Hmissing eq_refl) as [Happlied _]. exact Happlied.
  - destruct (missing_history_is_not_applied_not_dirty Scenario.healthy
      Scenario.fresh 20250101000130) as [_ H].
    destruct (H eq_refl) as (_ & _ & Hdirty).
    apply Hdirty. intros rows v [= <-]. by rewrite lookup_empty.
Defined.

(** ** The scenarios of the test suite, run on the model *)

(** Healthy samples, nothing applied: the bulk Up pipeline and the consumer
    loop apply the three versions and leave every row clean. *)
Example up_applies_all_samples :
  ∃ ret w rows,
    queueUpMigrations (Scenario.onPostgres (λ _, [])) 3 [] (-1) = Some ret ∧
    runMigrations (Scenario.onPostgres (λ _, [])) ret
      (Scenario.start Scenario.fresh) = (w, None) ∧
    Postgres.migrations (backend w) = Some rows ∧
    Forall (λ v, rows !! v = Some false) Scenario.samples ∧
    (Postgres.GetAllAppliedMigrations Scenario.healthy (backend w)).2
      = Ok [20250101000140; 20250101000135; 20250101000130].
Proof.
  eexists _, _, _. split; [reflexivity|]. split; [reflexivity|].
  split; [reflexivity|]. split; [|reflexivity].
  repeat constructor.
Qed.

(** Corrupted samples: the run stops at 20250101000135, whose row stays
    dirty; 20250101000140 is never attempted. *)
Example up_stops_at_corrupted_sample :
  ∃ ret w err,
    queueUpMigrations (Scenario.onPostgres Scenario.oneCorrupted) 3 [] (-1)
      = Some ret ∧
    runMigrations (Scenario.onPostgres Scenario.oneCorrupted) ret
      (Scenario.start Scenario.fresh) = (w, Some err) ∧
    (trace w).*1 =
      [CAddDirtyMigration 20250101000130; CRun [];
       CUpdateMigrationDirtyFlag 20250101000130 false;
       CAddDirtyMigration 20250101000135; CRun Scenario.corrupted] ∧
    Postgres.IsDatabaseDirty Scenario.healthy (backend w)
      = (backend w, (20250101000135, true, None)).
Proof.
  eexists _, _, _. split; [reflexivity|]. split; [reflexivity|].
  split; reflexivity.
Qed.

(** * Further properties of the code *)

(** ** The pipelines on any source *)

Section PipelineShape.

Context {B : Type}.
Variable m : Migrate B.

Lemma newMigration_fields v t migr :
  newMigration m v t = Ok migr →
  Version migr = v ∧ TargetVersion migr = t ∧ UpKindMigration migr = false.
Proof.
  unfold newMigration. destruct (content m v t); [|done]. by intros [= <-].
Qed.

Lemma noChangeIfZero_tail c :
  noChangeIfZero c = [] ∧ c ≠ 0 ∨ noChangeIfZero c = [SendErr ErrNoChange] ∧ c = 0.
Proof. unfold noChangeIfZero. destruct (Z.eqb_spec c 0); eauto. Qed.

(** What every run of the Up loop sends: Up records of versions that are
    not applied, within the limit, and then at most one error. *)
Lemma queueUpLoop_shape appliedMigrs limit fuel : ∀ v c p out,
  0 <= c →
  queueUpLoop m fuel (list_to_set appliedMigrs) limit v c p = Some out →
  ∃ rs tail,
    out = (SendMigr <$> rs) ++ tail ∧
    (tail = [] ∨ ∃ e, tail = [SendErr e]) ∧
    Forall (λ r, UpKindMigration r = true ∧
                 TargetVersion r = int_of_uint (Version r) ∧
                 int_of_uint (Version r) ∉ appliedMigrs) rs ∧
    (limit ≠ -1 → c + Z.of_nat (length rs) <= Z.max limit c) ∧
    (c = 0 → out ≠ []).
Proof.
  induction fuel as [|fuel IH]; intros v c p out Hc; [done|].
  cbn [queueUpLoop].
  assert (Hstop : ∀ out', Some (noChangeIfZero c) = Some out' →
    ∃ rs tail, out' = (SendMigr <$> rs) ++ tail ∧
      (tail = [] ∨ ∃ e, tail = [SendErr e]) ∧
      Forall (λ r, UpKindMigration r = true ∧
                   TargetVersion r = int_of_uint (Version r) ∧
                   int_of_uint (Version r) ∉ appliedMigrs) rs ∧
      (limit ≠ -1 → c + Z.of_nat (length rs) <= Z.max limit c) ∧
      (c = 0 → out' ≠ [])).
  { intros out' [= <-]. exists [], (noChangeIfZero c). cbn.
    destruct (noChangeIfZero_tail c) as [[-> ?]|[-> ?]];
      repeat split; eauto; try lia; done. }
  assert (Hfail : ∀ err out', Some [SendErr err] = Some out' →
    ∃ rs tail, out' = (SendMigr <$> rs) ++ tail ∧
      (tail = [] ∨ ∃ e, tail = [SendErr e]) ∧
      Forall (λ r, UpKindMigration r = true ∧
                   TargetVersion r = int_of_uint (Version r) ∧
                   int_of_uint (Version r) ∉ appliedMigrs) rs ∧
      (limit ≠ -1 → c + Z.of_nat (length rs) <= Z.max limit c) ∧
      (c = 0 → out' ≠ [])).
  { intros err out' [= <-]. exists [], [SendErr err]. cbn.
    repeat split; eauto; try lia; done. }
  destruct (negb ((limit =? -1) || (c <? limit))) eqn:Hcond; [by apply Hstop|].
  destruct (stop m p); [by apply Hstop|].
  case_bool_decide as Happ.
  - destruct (Next (sourceDrv m) v) as [next|err]; [by apply IH|].
    destruct (errors_Is err ErrNotExist); [by apply Hstop|by apply Hfail].
  - rewrite elem_of_list_to_set in Happ.
    destruct (newMigration m v (int_of_uint v)) as [migr|err] eqn:Hnew;
      [|by apply Hfail].
    apply newMigration_fields in Hnew as (Hv & Ht & _).
    intros Hout. apply fmap_Some in Hout as (out' & Hrest & ->).
    assert (Hlim : limit ≠ -1 → c < limit).
    { intros Hl. apply negb_false_iff, orb_true_iff in Hcond as [Hcond|Hcond].
      - apply Z.eqb_eq in Hcond. done.
      - by apply Z.ltb_lt in Hcond. }
    assert (Hrec : ∃ rs tail, out' = (SendMigr <$> rs) ++ tail ∧
      (tail = [] ∨ ∃ e, tail = [SendErr e]) ∧
      Forall (λ r, UpKindMigration r = true ∧
                   TargetVersion r = int_of_uint (Version r) ∧
                   int_of_uint (Version r) ∉ appliedMigrs) rs ∧
      (limit ≠ -1 → c + 1 + Z.of_nat (length rs) <= Z.max limit (c + 1))).
    { destruct (Next (sourceDrv m) v) as [next|err].
      - destruct (IH next (c + 1) (S p) out') as (rs & tail & ? & ? & ? & ? & _);
          [lia|done|]. by exists rs, tail.
      - destruct (errors_Is err ErrNotExist).
        + injection Hrest as <-. exists [], []. cbn.
          destruct (noChangeIfZero_tail (c + 1)) as [[-> ?]|[_ ?]]; [|lia].
          repeat split; eauto; lia.
        + injection Hrest as <-. exists [], [SendErr err]. cbn.
          repeat split; eauto; lia. }
    destruct Hrec as (rs & tail & -> & Htail & Hall & Hbound).
    exists (setUpKindMigration migr true :: rs), tail. cbn.
    split; [done|]. split; [done|]. split; [|split; [|done]].
    + constructor; [|done]. cbn. by rewrite Ht, Hv.
    + intros Hl. specialize (Hbound Hl). specialize (Hlim Hl). lia.
Qed.

(** The same for the Down loop, which moreover never indexes out of
    range. *)
Lemma queueDownLoop_shape appliedMigrs limit steps : ∀ i c,
  (i + steps = length appliedMigrs)%nat → 0 <= c →
  ∃ out rs tail,
    queueDownLoop m steps appliedMigrs limit i c = Some out ∧
    out = (SendMigr <$> rs) ++ tail ∧
    (tail = [] ∨ ∃ e, tail = [SendErr e]) ∧
    Forall (λ r, UpKindMigration r = false ∧
                 ∃ a, a ∈ appliedMigrs ∧ Version r = uint_of_int a) rs ∧
    (length rs ≤ steps)%nat ∧
    (limit ≠ -1 → c + Z.of_nat (length rs) <= Z.max limit c) ∧
    (c = 0 → out ≠ []).
Proof.
  induction steps as [|steps IH]; intros i c Hlen Hc; cbn [queueDownLoop].
  all: assert (Hstop :
    ∃ out rs tail, Some (noChangeIfZero c) = Some out ∧
      out = (SendMigr <$> rs) ++ tail ∧
      (tail = [] ∨ ∃ e, tail = [SendErr e]) ∧
      Forall (λ r, UpKindMigration r = false ∧
                   ∃ a, a ∈ appliedMigrs ∧ Version r = uint_of_int a) rs ∧
      (length rs ≤ 0)%nat ∧
      (limit ≠ -1 → c + Z.of_nat (length rs) <= Z.max limit c) ∧
      (c = 0 → out ≠ [])).
  1,3: exists (noChangeIfZero c), [], (noChangeIfZero c); cbn;
       destruct (noChangeIfZero_tail c) as [[-> ?]|[-> ?]];
       repeat split; eauto; try lia; done.
  { done. }
  assert (Hstop' :
    ∃ out rs tail, Some (noChangeIfZero c) = Some out ∧
      out = (SendMigr <$> rs) ++ tail ∧
      (tail = [] ∨ ∃ e, tail = [SendErr e]) ∧
      Forall (λ r, UpKindMigration r = false ∧
                   ∃ a, a ∈ appliedMigrs ∧ Version r = uint_of_int a) rs ∧
      (length rs ≤ S steps)%nat ∧
      (limit ≠ -1 → c + Z.of_nat (length rs) <= Z.max limit c) ∧
      (c = 0 → out ≠ [])).
  { destruct Hstop as (out & rs & tail & ? & ? & ? & ? & ? & ? & ?).
    exists out, rs, tail. repeat split; try done. lia. }
  destruct (stop m i); [done|].
  destruct (negb (limit =? -1) && (c >=? limit)) eqn:Hcond; [done|].
  destruct (lookup_lt_is_Some_2 appliedMigrs i) as [a Ha]; [lia|].
  rewrite Ha.
  assert (Htarget : ∃ t,
    (if bool_decide (i = (length appliedMigrs - 1)%nat)
     then Some (-1) else appliedMigrs !! S i) = Some t).
  { case_bool_decide; [eauto|].
    destruct (lookup_lt_is_Some_2 appliedMigrs (S i)) as [t Ht]; [lia|eauto]. }
  destruct Htarget as [t ->].
  assert (Hlim : limit ≠ -1 → c < limit).
  { intros Hl. apply andb_false_iff in Hcond as [Hcond|Hcond].
    - apply negb_false_iff, Z.eqb_eq in Hcond. done.
    - destruct (Z.geb_spec c limit); [done|lia]. }
  destruct (newMigration m (uint_of_int a) t) as [migr|err] eqn:Hnew.
  - apply newMigration_fields in Hnew as (Hv & _ & Hup).
    destruct (IH (S i) (c + 1)) as (out & rs & tail & -> & -> & ? & ? & ? & Hb & _);
      [lia|lia|].
    exists (SendMigr migr :: (SendMigr <$> rs) ++ tail), (migr :: rs), tail. cbn.
    split; [done|]. split; [done|]. split; [done|].
    split; [|split; [lia|split; [|done]]].
    + constructor; [|done]. split; [done|]. exists a. split; [|done].
      by eapply list_elem_of_lookup_2.
    + intros Hl. specialize (Hb Hl). specialize (Hlim Hl). lia.
  - exists [SendErr err], [], [SendErr err]. cbn.
    split; [done|]. split; [done|]. split; [eauto|].
    split; [done|]. split; [lia|]. split; [lia|done].
Qed.

End PipelineShape.

(** X1.  Whatever the source does, a bulk Up run that terminates sends
    records and then at most one error, and never nothing: the records are
    Up records with their own version as target, of versions that are not
    applied, and no more than [limit] of them unless [limit] is -1. *)
Theorem queueUpMigrations_stream_shape {B : Type} (m : Migrate B) (fuel : nat)
    (appliedMigrs : list Z) (limit : Z) (out : list chan_value) :
  queueUpMigrations m fuel appliedMigrs limit = Some out →
  ∃ rs tail,
    out = (SendMigr <$> rs) ++ tail ∧
    (tail = [] ∨ ∃ e, tail = [SendErr e]) ∧
    Forall (λ r, UpKindMigration r = true ∧
                 TargetVersion r = int_of_uint (Version r) ∧
                 int_of_uint (Version r) ∉ appliedMigrs) rs ∧
    (limit ≠ -1 → (length rs ≤ Z.to_nat limit)%nat) ∧
    out ≠ [].
Proof.
  unfold queueUpMigrations.
  destruct (First (sourceDrv m)) as [v|err].
  - intros Hout.
    destruct (queueUpLoop_shape m appliedMigrs limit fuel v 0 0 out)
      as (rs & tail & -> & Htail & Hall & Hbound & Hne); [lia|done|].
    exists rs, tail. repeat split; try done; [|by apply Hne].
    intros Hl. specialize (Hbound Hl). lia.
  - destruct (errors_Is err ErrNotExist); intros [= <-].
    + exists [], [SendErr ErrNoChange]. cbn. repeat split; eauto; lia.
    + exists [], [SendErr err]. cbn. repeat split; eauto; lia.
Qed.

Lemma queueUpMigrations_stream_shape_witness :
  ∃ rs tail,
    [SendMigr (Scenario.upOf (λ _, []) 20250101000130)]
      = (SendMigr <$> rs) ++ tail ∧
    (tail = [] ∨ ∃ e, tail = [SendErr e]) ∧
    Forall (λ r, UpKindMigration r = true ∧
                 TargetVersion r = int_of_uint (Version r) ∧
                 int_of_uint (Version r) ∉ [20250101000140]) rs ∧
    (1 ≠ -1 → (length rs ≤ Z.to_nat 1)%nat) ∧
    [SendMigr (Scenario.upOf (λ _, []) 20250101000130)] ≠ [].
Proof.
  apply (queueUpMigrations_stream_shape
    (Scenario.migrator (BasicDrv Scenario.idle) Scenario.samples Scenario.running)
    3 [20250101000140] 1).
  reflexivity.
Defined.

(** X2.  Whatever the source does, a bulk Down run returns without an
    index out of range and sends records and then at most one error, never
    nothing: Down records of elements of the applied list, no more than the
    list has and no more than [limit] unless [limit] is -1. *)
Theorem queueDownMigrations_stream_shape {B : Type} (m : Migrate B)
    (appliedMigrs : list Z) (limit : Z) :
  ∃ out rs tail,
    queueDownMigrations m appliedMigrs limit = Some out ∧
    out = (SendMigr <$> rs) ++ tail ∧
    (tail = [] ∨ ∃ e, tail = [SendErr e]) ∧
    Forall (λ r, UpKindMigration r = false ∧
                 ∃ a, a ∈ appliedMigrs ∧ Version r = uint_of_int a) rs ∧
    (length rs ≤ length appliedMigrs)%nat ∧
    (limit ≠ -1 → (length rs ≤ Z.to_nat limit)%nat) ∧
    out ≠ [].
Proof.
  unfold queueDownMigrations.
  destruct (bool_decide (length appliedMigrs = 0%nat) || (limit =? 0)).
  - exists [SendErr ErrNoChange], [], [SendErr ErrNoChange]. cbn.
    split; [done|]. split; [done|]. split; [eauto|].
    split; [done|]. split; [lia|]. split; [lia|done].
  - destruct (queueDownLoop_shape m appliedMigrs limit (length appliedMigrs) 0 0)
      as (out & rs & tail & Hrun & -> & Htail & Hall & Hlen & Hbound & Hne);
      [lia|lia|].
    exists ((SendMigr <$> rs) ++ tail), rs, tail.
    split; [done|]. split; [done|]. split; [done|]. split; [done|].
    split; [done|]. split; [|by apply Hne].
    intros Hl. specialize (Hbound Hl). lia.
Qed.

Section AllApplied.

Context {B : Type}.
Variable m : Migrate B.

Lemma queueUpLoop_all_applied appliedMigrs limit l : ∀ v fuel p,
  enumerates m v l → (length l ≤ fuel)%nat →
  (∀ x, x ∈ l → int_of_uint x ∈ appliedMigrs) →
  queueUpLoop m fuel (list_to_set appliedMigrs) limit v 0 p
    = Some [SendErr ErrNoChange].
Proof.
  induction l as [|v' l' IH]; intros v fuel p Hen Hfuel Happ; [done|].
  destruct Hen as [-> Hen].
  destruct fuel as [|fuel]; [simpl in Hfuel; lia|].
  cbn [queueUpLoop].
  destruct (negb ((limit =? -1) || (0 <? limit))); [done|].
  destruct (stop m p); [done|].
  rewrite bool_decide_eq_true_2
    by (rewrite elem_of_list_to_set; apply Happ; left).
  destruct l' as [|next l''].
  - by destruct Hen as (err & -> & ->).
  - destruct Hen as [-> Hen]. apply IH; [done|simpl in *; lia|].
    intros x Hx. apply Happ. by right.
Qed.

End AllApplied.

(** X3.  When every version the source enumerates is in the applied list,
    a bulk Up run sends NoChange and nothing else, for every limit and
    stop flag, and without reading any script. *)
Theorem queueUpMigrations_all_applied {B : Type} (m : Migrate B)
    (fuel fuel' : nat) (appliedMigrs : list Z) (limit : Z) (l : list Z) :
  source_versions m fuel = Some l → (length l ≤ fuel')%nat →
  (∀ v, v ∈ l → int_of_uint v ∈ appliedMigrs) →
  queueUpMigrations m fuel' appliedMigrs limit = Some [SendErr ErrNoChange].
Proof.
  unfold source_versions, queueUpMigrations. intros Hsrc Hfuel Happ.
  destruct (First (sourceDrv m)) as [v|err].
  - apply versions_from_enumerates in Hsrc as [Hen _].
    by apply (queueUpLoop_all_applied m appliedMigrs limit l).
  - by destruct (errors_Is err ErrNotExist).
Qed.

Lemma queueUpMigrations_all_applied_witness :
  queueUpMigrations
    (Scenario.migratorWith (λ _, Scenario.corrupted) (BasicDrv Scenario.idle)
       Scenario.samples Scenario.running)
    3 [20250101000135; 20250101000140; 20250101000130] 2
  = Some [SendErr ErrNoChange].
Proof.
  apply (queueUpMigrations_all_applied _ 3 3 _ _ Scenario.samples).
  - reflexivity.
  - cbn. lia.
  - intros v Hv. cbn in Hv.
    repeat (apply elem_of_cons in Hv as [->|Hv]; [vm_compute; set_solver|]).
    by apply elem_of_nil in Hv.
Defined.

(** X4.  [queueUpSingleMigration] sends the error of [versionExists] for a
    version the source lacks; otherwise nothing at all when the stop flag
    is seen, the error of the source when the script cannot be read, and
    else exactly one Up record with its own version as target. *)
Theorem queueUpSingleMigration_cases {B : Type} (m : Migrate B) (version : Z) :
  (∀ err, versionExists m version = Some err →
     queueUpSingleMigration m version = [SendErr err]) ∧
  (versionExists m version = None → stop m 0 = true →
     queueUpSingleMigration m version = []) ∧
  (versionExists m version = None → stop m 0 = false →
     (∀ err, content m version (int_of_uint version) = Err err →
        queueUpSingleMigration m version = [SendErr err]) ∧
     (∀ body, content m version (int_of_uint version) = Ok body →
        queueUpSingleMigration m version =
          [SendMigr {| Version := version; TargetVersion := int_of_uint version;
                       UpKindMigration := true; Body := body |}])).
Proof.
  unfold queueUpSingleMigration, newMigration. split; [|split].
  - by intros err ->.
  - by intros -> ->.
  - intros -> ->. split.
    + by intros err ->.
    + by intros body ->.
Qed.

Lemma queueUpSingleMigration_cases_witness :
  queueUpSingleMigration
    (Scenario.migrator (BasicDrv Scenario.idle) Scenario.samples Scenario.running)
    20250101000135
  = [SendMigr {| Version := 20250101000135; TargetVersion := 20250101000135;
                 UpKindMigration := true; Body := Some [] |}] ∧
  queueUpSingleMigration
    (Scenario.migrator (BasicDrv Scenario.idle) Scenario.samples Scenario.running)
    7 = [SendErr (Scenario.noMigrationFound 7)].
Proof.
  split.
  - destruct (queueUpSingleMigration_cases
      (Scenario.migrator (BasicDrv Scenario.idle) Scenario.samples Scenario.running)
      20250101000135) as (_ & _ & H).
    destruct H as [_ H]; [reflexivity|reflexivity|].
    apply (H (Some [])). reflexivity.
  - destruct (queueUpSingleMigration_cases
      (Scenario.migrator (BasicDrv Scenario.idle) Scenario.samples Scenario.running)
      7) as (H & _).
    apply H. reflexivity.
Defined.

(** ** The history driver on a connection without faults *)

Section HealthyPostgres.

Context {D : Type}.
Variable fault : Postgres.ConnOp → @Postgres.Postgres D → option error.
Hypothesis Hhealthy : ∀ op p, fault op p = None.

Lemma inTransaction_healthy startFailed commitFailed query stmt p :
  Postgres.inTransaction fault startFailed commitFailed query stmt p =
    match Postgres.sql_exec stmt (Postgres.migrations p) with
    | Ok rows => (Postgres.withMigrations p rows, None)
    | Err execErr => (p, Some (DatabaseError execErr query))
    end.
Proof.
  unfold Postgres.inTransaction, Postgres.txExec. rewrite !Hhealthy.
  by destruct (Postgres.sql_exec stmt (Postgres.migrations p)).
Qed.

Lemma AddDirtyMigration_healthy v p rows :
  Postgres.migrations p = Some rows → rows !! int_of_uint v = None →
  Postgres.AddDirtyMigration fault v p
    = (Postgres.withMigrations p (<[int_of_uint v := true]> rows), None).
Proof.
  int64_key v. intros Hrows Hv. unfold Postgres.AddDirtyMigration.
  rewrite inTransaction_healthy, Hrows. cbn. by rewrite Hv.
Qed.

Lemma UpdateMigrationDirtyFlag_healthy v d p rows :
  Postgres.migrations p = Some rows →
  Postgres.UpdateMigrationDirtyFlag fault v d p
    = (Postgres.withMigrations p (alter (λ _, d) (int_of_uint v) rows), None).
Proof.
  intros Hrows. unfold Postgres.UpdateMigrationDirtyFlag.
  by rewrite inTransaction_healthy, Hrows.
Qed.

Lemma RemoveMigration_healthy v p rows :
  Postgres.migrations p = Some rows →
  Postgres.RemoveMigration fault v p
    = (Postgres.withMigrations p (delete (int_of_uint v) rows), None).
Proof.
  intros Hrows. unfold Postgres.RemoveMigration.
  by rewrite inTransaction_healthy, Hrows.
Qed.

Lemma IsMigrationApplied_healthy v p rows :
  Postgres.migrations p = Some rows →
  Postgres.IsMigrationApplied fault v p
    = (p, (bool_decide (is_Some (rows !! int_of_uint v)), None)).
Proof.
  intros Hrows. unfold Postgres.IsMigrationApplied, Postgres.queryRow.
  by rewrite Hhealthy, Hrows.
Qed.

Lemma select_dirty_sound rows v :
  Postgres.select_dirty (Some rows) = Ok v → rows !! v = Some true.
Proof.
  unfold Postgres.select_dirty.
  destruct (filter (λ row, row.2 = true) (map_to_list rows))
    as [|[k d] found] eqn:Hfound; [done|].
  intros [= <-].
  assert (Hin : (k, d) ∈ filter (λ row : Z * bool, row.2 = true) (map_to_list rows))
    by (rewrite Hfound; left).
  apply list_elem_of_filter in Hin as [Hd Hin]. cbn in Hd. subst d.
  by apply elem_of_map_to_list in Hin.
Qed.

Lemma select_dirty_complete rows v :
  rows !! v = Some true → ∃ v', Postgres.select_dirty (Some rows) = Ok v'.
Proof.
  intros Hv. unfold Postgres.select_dirty.
  destruct (filter (λ row, row.2 = true) (map_to_list rows))
    as [|[k d] found] eqn:Hfound; [|eauto].
  assert (Hin : (v, true) ∈ filter (λ row : Z * bool, row.2 = true) (map_to_list rows)).
  { apply list_elem_of_filter. split; [done|]. by apply elem_of_map_to_list. }
  rewrite Hfound in Hin. by apply elem_of_nil in Hin.
Qed.

Lemma IsDatabaseDirty_healthy p rows :
  Postgres.migrations p = Some rows →
  Postgres.IsDatabaseDirty fault p =
    match Postgres.select_dirty (Some rows) with
    | Ok v => (p, (v, true, None))
    | Err _ => (p, (0, false, None))
    end.
Proof.
  intros Hrows. unfold Postgres.IsDatabaseDirty, Postgres.queryRow.
  rewrite Hhealthy, Hrows.
  destruct (Postgres.select_dirty (Some rows)) as [v|err] eqn:Hsel; [done|].
  unfold Postgres.select_dirty in Hsel.
  destruct (filter _ _); by simplify_eq.
Qed.

End HealthyPostgres.

Lemma withMigrations_same {D : Type} (p : @Postgres.Postgres D) rows :
  Postgres.migrations p = Some rows → Postgres.withMigrations p rows = p.
Proof. destruct p as [t d]. cbn. by intros ->. Qed.

(** X5.  On a connection without faults, [UpdateMigrationDirtyFlag] and
    [RemoveMigration] of a version that has no row (under [int64(version)],
    the key the statement gets) return nil and leave the database as it
    was: the statement matches no row and that is not reported. *)
Theorem writers_do_not_report_a_missing_row {D : Type}
    (fault : Postgres.ConnOp → @Postgres.Postgres D → option error)
    (p : @Postgres.Postgres D) (rows : gmap Z bool) (v : Z) (d : bool) :
  (∀ op q, fault op q = None) →
  Postgres.migrations p = Some rows → rows !! int_of_uint v = None →
  Postgres.UpdateMigrationDirtyFlag fault v d p = (p, None) ∧
  Postgres.RemoveMigration fault v p = (p, None).
Proof.
  intros Hhealthy Hrows Hv.
  rewrite (UpdateMigrationDirtyFlag_healthy fault Hhealthy v d p rows) by done.
  rewrite (RemoveMigration_healthy fault Hhealthy v p rows) by done.
  rewrite alter_id', delete_id by done.
  by rewrite withMigrations_same.
Qed.

Lemma writers_do_not_report_a_missing_row_witness :
  Postgres.UpdateMigrationDirtyFlag Scenario.healthy 20250101000135 true
    Scenario.fresh = (Scenario.fresh, None) ∧
  Postgres.RemoveMigration Scenario.healthy 20250101000135 Scenario.fresh
    = (Scenario.fresh, None).
Proof.
  apply (writers_do_not_report_a_missing_row Scenario.healthy Scenario.fresh ∅).
  - reflexivity.
  - reflexivity.
  - reflexivity.
Defined.

(** X6.  On a connection without faults and a history without a dirty
    row, the life of one row.  The row's key is [int64(version)], the
    value the statements get.  After [AddDirtyMigration] of a version
    without a row the version is applied and [IsDatabaseDirty] reports
    that key as the dirty one (the version itself below 2^63, the version
    minus 2^64 from there on); after [UpdateMigrationDirtyFlag] to false
    the version is still applied and the database is not dirty; after
    [RemoveMigration] the database is what it was at the start.  All three
    writers return nil. *)
Theorem history_row_round_trip {D : Type}
    (fault : Postgres.ConnOp → @Postgres.Postgres D → option error)
    (p : @Postgres.Postgres D) (rows : gmap Z bool) (v : Z) :
  (∀ op q, fault op q = None) →
  Postgres.migrations p = Some rows →
  rows !! int_of_uint v = None →
  clean p →
  ∃ p1 p2,
    Postgres.AddDirtyMigration fault v p = (p1, None) ∧
    Postgres.IsMigrationApplied fault v p1 = (p1, (true, None)) ∧
    Postgres.IsDatabaseDirty fault p1 = (p1, (int_of_uint v, true, None)) ∧
    (0 <= v < 2 ^ 63 →
       Postgres.IsDatabaseDirty fault p1 = (p1, (v, true, None))) ∧
    (2 ^ 63 <= v < 2 ^ 64 →
       Postgres.IsDatabaseDirty fault p1 = (p1, (v - 2 ^ 64, true, None))) ∧
    Postgres.UpdateMigrationDirtyFlag fault v false p1 = (p2, None) ∧
    Postgres.IsMigrationApplied fault v p2 = (p2, (true, None)) ∧
    Postgres.IsDatabaseDirty fault p2 = (p2, (0, false, None)) ∧
    Postgres.RemoveMigration fault v p2 = (p, None).
Proof.
  intros Hhealthy Hrows Hv Hclean.
  set (k := int_of_uint v) in *.
  exists (Postgres.withMigrations p (<[k := true]> rows)),
         (Postgres.withMigrations p (<[k := false]> rows)).
  assert (Hdirty :
    Postgres.IsDatabaseDirty fault (Postgres.withMigrations p (<[k := true]> rows))
    = (Postgres.withMigrations p (<[k := true]> rows), (k, true, None))).
  { rewrite (IsDatabaseDirty_healthy fault Hhealthy _ (<[k := true]> rows)) by done.
    destruct (select_dirty_complete (<[k := true]> rows) k) as [v' Hsel];
      [apply lookup_insert_eq|].
    rewrite Hsel. apply select_dirty_sound in Hsel.
    destruct (decide (k = v')) as [<-|Hne]; [done|].
    rewrite lookup_insert_ne in Hsel by done. by destruct (Hclean rows v' Hrows). }
  split; [by apply AddDirtyMigration_healthy|].
  split.
  { rewrite (IsMigrationApplied_healthy fault Hhealthy v _ (<[k := true]> rows))
      by done.
    fold k. by rewrite lookup_insert_eq, bool_decide_eq_true_2. }
  split; [done|].
  split.
  { intros Hsmall. rewrite Hdirty. subst k. by rewrite int_of_uint_small. }
  split.
  { intros Hlarge. rewrite Hdirty. subst k. unfold int_of_uint.
    rewrite Z.mod_small by lia.
    by destruct (Z.ltb_spec v (2 ^ 63)); [lia|]. }
  split.
  { rewrite (UpdateMigrationDirtyFlag_healthy fault Hhealthy v false _
               (<[k := true]> rows)) by done.
    fold k. cbn. by rewrite alter_insert_eq. }
  split.
  { rewrite (IsMigrationApplied_healthy fault Hhealthy v _ (<[k := false]> rows))
      by done.
    fold k. by rewrite lookup_insert_eq, bool_decide_eq_true_2. }
  split.
  { rewrite (IsDatabaseDirty_healthy fault Hhealthy _ (<[k := false]> rows)) by done.
    rewrite select_dirty_clean; [done|]. intros x.
    destruct (decide (k = x)) as [<-|Hne]; [by rewrite lookup_insert_eq|].
    rewrite lookup_insert_ne by done. by apply (Hclean rows). }
  rewrite (RemoveMigration_healthy fault Hhealthy v _ (<[k := false]> rows)) by done.
  fold k. unfold Postgres.withMigrations. cbn. rewrite delete_insert_id by done.
  destruct p as [t d]. cbn in Hrows. by subst t.
Qed.

Lemma history_row_round_trip_witness :
  ∃ p1 p2,
    Postgres.AddDirtyMigration Scenario.healthy (2 ^ 63 + 5) Scenario.fresh
      = (p1, None) ∧
    Postgres.IsMigrationApplied Scenario.healthy (2 ^ 63 + 5) p1
      = (p1, (true, None)) ∧
    Postgres.IsDatabaseDirty Scenario.healthy p1
      = (p1, (int_of_uint (2 ^ 63 + 5), true, None)) ∧
    (0 <= 2 ^ 63 + 5 < 2 ^ 63 →
       Postgres.IsDatabaseDirty Scenario.healthy p1
         = (p1, (2 ^ 63 + 5, true, None))) ∧
    (2 ^ 63 <= 2 ^ 63 + 5 < 2 ^ 64 →
       Postgres.IsDatabaseDirty Scenario.healthy p1
         = (p1, (2 ^ 63 + 5 - 2 ^ 64, true, None))) ∧
    Postgres.UpdateMigrationDirtyFlag Scenario.healthy (2 ^ 63 + 5) false p1
      = (p2, None) ∧
    Postgres.IsMigrationApplied Scenario.healthy (2 ^ 63 + 5) p2
      = (p2, (true, None)) ∧
    Postgres.IsDatabaseDirty Scenario.healthy p2 = (p2, (0, false, None)) ∧
    Postgres.RemoveMigration Scenario.healthy (2 ^ 63 + 5) p2
      = (Scenario.fresh, None).
Proof.
  apply (history_row_round_trip Scenario.healthy Scenario.fresh ∅ (2 ^ 63 + 5)).
  - reflexivity.
  - reflexivity.
  - reflexivity.
  - intros rows v [= <-]. by rewrite lookup_empty.
Defined.

(** X7.  On a connection without faults, [IsDatabaseDirty] never returns
    an error; the version it reports as dirty has a dirty row, and it
    reports one whenever some row is dirty. *)
Theorem IsDatabaseDirty_reports_a_dirty_row {D : Type}
    (fault : Postgres.ConnOp → @Postgres.Postgres D → option error)
    (p : @Postgres.Postgres D) (rows : gmap Z bool) :
  (∀ op q, fault op q = None) →
  Postgres.migrations p = Some rows →
  (∃ v dirty, Postgres.IsDatabaseDirty fault p = (p, (v, dirty, None)) ∧
     (dirty = true → rows !! v = Some true) ∧
     (dirty = false → v = 0 ∧ ∀ x, rows !! x ≠ Some true)).
Proof.
  intros Hhealthy Hrows.
  rewrite (IsDatabaseDirty_healthy fault Hhealthy p rows) by done.
  destruct (Postgres.select_dirty (Some rows)) as [v|err] eqn:Hsel.
  - exists v, true. split; [done|]. split; [|done].
    intros _. by apply select_dirty_sound.
  - exists 0, false. split; [done|]. split; [done|]. intros _. split; [done|].
    intros x Hx. destruct (select_dirty_complete rows x Hx) as [v' Hv'].
    by rewrite Hv' in Hsel.
Qed.

Lemma IsDatabaseDirty_reports_a_dirty_row_witness :
  ∃ v dirty,
    Postgres.IsDatabaseDirty Scenario.healthy
      {| Postgres.migrations :=
           Some {[ 20250101000130 := false; 20250101000135 := true ]};
         Postgres.database := ([] : list bytes) |}
    = ({| Postgres.migrations :=
            Some {[ 20250101000130 := false; 20250101000135 := true ]};
          Postgres.database := [] |}, (v, dirty, None)) ∧
    (dirty = true →
       ({[ 20250101000130 := false; 20250101000135 := true ]} : gmap Z bool) !! v
         = Some true) ∧
    (dirty = false → v = 0 ∧
       ∀ x, ({[ 20250101000130 := false; 20250101000135 := true ]} : gmap Z bool)
              !! x ≠ Some true).
Proof.
  apply (IsDatabaseDirty_reports_a_dirty_row Scenario.healthy).
  - reflexivity.
  - reflexivity.
Defined.

(** X8.  On a connection without faults, [IsMigrationApplied] and
    [GetAllAppliedMigrations] agree on the keys of the table: a version
    is reported applied exactly when [int64(version)], the value the query
    gets, is in the list of applied versions.  For a version below 2^63
    that is the version itself; from 2^63 on it is the version minus
    2^64, a negative element of the list. *)
Theorem IsMigrationApplied_agrees_with_GetAllAppliedMigrations {D : Type}
    (fault : Postgres.ConnOp → @Postgres.Postgres D → option error)
    (p : @Postgres.Postgres D) (rows : gmap Z bool) :
  (∀ op q, fault op q = None) →
  Postgres.migrations p = Some rows →
  ∃ l, Postgres.GetAllAppliedMigrations fault p = (p, Ok l) ∧
    ∀ v,
      (∃ applied, Postgres.IsMigrationApplied fault v p = (p, (applied, None)) ∧
         (applied = true ↔ int_of_uint v ∈ l)) ∧
      (0 <= v < 2 ^ 63 →
         Postgres.IsMigrationApplied fault v p = (p, (true, None)) ↔ v ∈ l) ∧
      (2 ^ 63 <= v < 2 ^ 64 →
         Postgres.IsMigrationApplied fault v p = (p, (true, None)) ↔
         v - 2 ^ 64 ∈ l).
Proof.
  intros Hhealthy Hrows.
  exists (merge_sort Z.ge (map_to_list rows).*1). split.
  { unfold Postgres.GetAllAppliedMigrations, Postgres.queryRow,
      Postgres.select_timestamps_desc.
    by rewrite !Hhealthy, Hrows, scanRows_healthy. }
  intros v.
  assert (Hkey : ∀ k, is_Some (rows !! k) ↔
                      k ∈ merge_sort Z.ge (map_to_list rows).*1).
  { intros k. rewrite merge_sort_Permutation, list_elem_of_fmap. split.
    - intros [d Hd]. exists (k, d). split; [done|]. by apply elem_of_map_to_list.
    - intros ([k' d] & -> & Hin). apply elem_of_map_to_list in Hin. by eexists. }
  assert (Happlied :
    Postgres.IsMigrationApplied fault v p = (p, (true, None)) ↔
    int_of_uint v ∈ merge_sort Z.ge (map_to_list rows).*1).
  { rewrite (IsMigrationApplied_healthy fault Hhealthy v p rows) by done.
    rewrite <- Hkey. split.
    - intros [= Hb]. by apply bool_decide_eq_true in Hb.
    - intros Hin. by rewrite bool_decide_eq_true_2. }
  split; [|split].
  - rewrite (IsMigrationApplied_healthy fault Hhealthy v p rows) by done.
    eexists. split; [done|]. by rewrite bool_decide_eq_true, Hkey.
  - intros Hsmall. by rewrite Happlied, int_of_uint_small.
  - intros Hlarge. rewrite Happlied. unfold int_of_uint.
    rewrite Z.mod_small by lia.
    by destruct (Z.ltb_spec v (2 ^ 63)); [lia|].
Qed.

Lemma IsMigrationApplied_agrees_with_GetAllAppliedMigrations_witness :
  ∃ l, Postgres.GetAllAppliedMigrations Scenario.healthy
         {| Postgres.migrations :=
              Some {[ 20250101000130 := false; 5 - 2 ^ 63 := false ]};
            Postgres.database := ([] : list bytes) |}
         = ({| Postgres.migrations :=
                 Some {[ 20250101000130 := false; 5 - 2 ^ 63 := false ]};
               Postgres.database := [] |}, Ok l) ∧
    ∀ v,
      (∃ applied,
         Postgres.IsMigrationApplied Scenario.healthy v
           {| Postgres.migrations :=
                Some {[ 20250101000130 := false; 5 - 2 ^ 63 := false ]};
              Postgres.database := ([] : list bytes) |}
         = ({| Postgres.migrations :=
                 Some {[ 20250101000130 := false; 5 - 2 ^ 63 := false ]};
               Postgres.database := [] |}, (applied, None)) ∧
         (applied = true ↔ int_of_uint v ∈ l)) ∧
      (0 <= v < 2 ^ 63 →
         Postgres.IsMigrationApplied Scenario.healthy v
           {| Postgres.migrations :=
                Some {[ 20250101000130 := false; 5 - 2 ^ 63 := false ]};
              Postgres.database := ([] : list bytes) |}
         = ({| Postgres.migrations :=
                 Some {[ 20250101000130 := false; 5 - 2 ^ 63 := false ]};
               Postgres.database := [] |}, (true, None)) ↔ v ∈ l) ∧
      (2 ^ 63 <= v < 2 ^ 64 →
         Postgres.IsMigrationApplied Scenario.healthy v
           {| Postgres.migrations :=
                Some {[ 20250101000130 := false; 5 - 2 ^ 63 := false ]};
              Postgres.database := ([] : list bytes) |}
         = ({| Postgres.migrations :=
                 Some {[ 20250101000130 := false; 5 - 2 ^ 63 := false ]};
               Postgres.database := [] |}, (true, None)) ↔ v - 2 ^ 64 ∈ l).
Proof.
  apply (IsMigrationApplied_agrees_with_GetAllAppliedMigrations
           Scenario.healthy
           {| Postgres.migrations :=
                Some {[ 20250101000130 := false; 5 - 2 ^ 63 := false ]};
              Postgres.database := ([] : list bytes) |}
           {[ 20250101000130 := false; 5 - 2 ^ 63 := false ]}).
  - reflexivity.
  - reflexivity.
Defined.

(** X9.  An error of the query that is neither [sql.ErrNoRows] nor the
    [undefined_table] error is returned wrapped in a [database.Error] that
    keeps it as [OrigErr]: by [IsMigrationApplied] with false, by
    [IsDatabaseDirty] with 0 and false, and by [GetAllAppliedMigrations],
    whatever the error, with no list. *)
Theorem query_errors_are_wrapped {D : Type}
    (fault : Postgres.ConnOp → @Postgres.Postgres D → option error)
    (p : @Postgres.Postgres D) (v : Z) (err : error) :
  fault Postgres.OpQuery p = Some err →
  (err ≠ ErrNoRows → Postgres.isUndefinedTable err = false →
     ∃ info, Postgres.IsMigrationApplied fault v p
               = (p, (false, Some (DatabaseError err info)))) ∧
  (errors_Is err ErrNoRows = false → Postgres.isUndefinedTable err = false →
     ∃ info, Postgres.IsDatabaseDirty fault p
               = (p, (0, false, Some (DatabaseError err info)))) ∧
  (∃ info, Postgres.GetAllAppliedMigrations fault p
             = (p, Err (DatabaseError err info))).
Proof.
  intros Hq.
  unfold Postgres.IsMigrationApplied, Postgres.IsDatabaseDirty,
    Postgres.GetAllAppliedMigrations, Postgres.queryRow.
  rewrite Hq. split; [|split].
  - intros Hne ->. rewrite bool_decide_eq_false_2 by done. eauto.
  - intros -> ->. eauto.
  - eauto.
Qed.

Lemma query_errors_are_wrapped_witness :
  ∃ info,
    Postgres.IsMigrationApplied (λ _ _, Some (PqError "connection_failure"))
      20250101000130 Scenario.fresh
    = (Scenario.fresh,
       (false, Some (DatabaseError (PqError "connection_failure") info))).
Proof.
  destruct (query_errors_are_wrapped (λ _ _, Some (PqError "connection_failure"))
              Scenario.fresh 20250101000130 (PqError "connection_failure") eq_refl)
    as (H & _).
  apply H; [discriminate|reflexivity].
Defined.

(** X10.  Without a migrations table, on a connection without faults, the
    three writers and [GetAllAppliedMigrations] return a [database.Error]
    around the [undefined_table] error and change nothing; only
    [IsMigrationApplied] and [IsDatabaseDirty] take the missing table for
    an empty history. *)
Theorem missing_table_is_an_error_for_writers {D : Type}
    (fault : Postgres.ConnOp → @Postgres.Postgres D → option error)
    (p : @Postgres.Postgres D) (v : Z) (d : bool) :
  (∀ op q, fault op q = None) →
  Postgres.migrations p = None →
  (∃ info, Postgres.AddDirtyMigration fault v p
             = (p, Some (DatabaseError Postgres.undefined_table info))) ∧
  (∃ info, Postgres.UpdateMigrationDirtyFlag fault v d p
             = (p, Some (DatabaseError Postgres.undefined_table info))) ∧
  (∃ info, Postgres.RemoveMigration fault v p
             = (p, Some (DatabaseError Postgres.undefined_table info))) ∧
  (∃ info, Postgres.GetAllAppliedMigrations fault p
             = (p, Err (DatabaseError Postgres.undefined_table info))).
Proof.
  intros Hhealthy Hnone.
  unfold Postgres.AddDirtyMigration, Postgres.UpdateMigrationDirtyFlag,
    Postgres.RemoveMigration.
  rewrite !(inTransaction_healthy fault Hhealthy), Hnone. cbn.
  split; [eauto|]. split; [eauto|]. split; [eauto|].
  unfold Postgres.GetAllAppliedMigrations, Postgres.queryRow.
  rewrite Hhealthy, Hnone. cbn. eauto.
Qed.

Lemma missing_table_is_an_error_for_writers_witness :
  ∃ info,
    Postgres.AddDirtyMigration Scenario.healthy 20250101000130
      {| Postgres.migrations := None; Postgres.database := ([] : list bytes) |}
    = ({| Postgres.migrations := None; Postgres.database := [] |},
       Some (DatabaseError Postgres.undefined_table info)).
Proof.
  destruct (missing_table_is_an_error_for_writers Scenario.healthy
              {| Postgres.migrations := None;
                 Postgres.database := ([] : list bytes) |}
              20250101000130 true) as (H & _).
  - reflexivity.
  - reflexivity.
  - exact H.
Defined.




(** ** The single-version operations on any driver *)

Section OperationFacts.

Context {B : Type}.
Variable m : Migrate B.

Lemma executorSteps_work migr : Forall workCall (executorSteps m migr).
Proof.
  unfold executorSteps, markDirty, markClean, runBody.
  destruct (databaseDrv m), (UpKindMigration migr), (Body migr);
    repeat constructor; done.
Qed.

Lemma handleSingleMigration_trace migr (w : World) :
  ∃ mid, (trace (handleSingleMigration m migr w).1).*1 = (trace w).*1 ++ mid ∧
    Forall workCall mid ∧
    sent (handleSingleMigration m migr w).1 = sent w.
Proof.
  destruct (handleSingleMigration_callInOrder m migr w) as [-> _].
  destruct (callInOrder_trace m (executorSteps m migr) w) as (k & _ & Htr & _).
  exists (take k (executorSteps m migr)). split; [done|]. split.
  - apply Forall_take, executorSteps_work.
  - clear. generalize (executorSteps m migr) as cs. intros cs. revert w.
    induction cs as [|c cs IH]; intros w; cbn; [done|].
    unfold andThen, invoke.
    destruct (exec_call m c (backend w)) as [b [e|]]; cbn; [done|].
    by rewrite IH.
Qed.

Lemma runMigrations_trace ret (w : World) :
  ∃ mid, (trace (runMigrations m ret w).1).*1 = (trace w).*1 ++ mid ∧
    Forall workCall mid ∧
    sent (runMigrations m ret w).1 = sent w.
Proof.
  revert w. induction ret as [|[err|migr] ret IH]; intros w; cbn [runMigrations].
  - exists []. by rewrite app_nil_r.
  - exists []. by rewrite app_nil_r.
  - unfold andThen.
    destruct (handleSingleMigration_trace migr w) as (mid1 & Htr1 & Hall1 & Hs1).
    destruct (handleSingleMigration m migr w) as [w1 [e|]]; cbn in *.
    + by exists mid1.
    + destruct (IH w1) as (mid2 & Htr2 & Hall2 & Hs2).
      exists (mid1 ++ mid2). rewrite Htr2, Htr1, Hs2, Hs1, app_assoc.
      split; [done|]. split; [by apply Forall_app|done].
Qed.

End OperationFacts.

Section LockDiscipline.

Context {B : Type}.
Variable m : Migrate B.

Lemma locked_operation (queue : Z → list chan_value) (skipWhen : bool → bool)
    (version : Z) (w : World) (b : B) :
  ∃ mid,
    (trace
       (match databaseDrv m with
        | ExtendedDrv ed =>
          let '(w1, (isApplied, err)) :=
            isMigrationApplied ed version (logged CLock w b) in
          match err with
          | Some err => unlockErr m (Some err) w1
          | None =>
            if skipWhen isApplied then unlockErr m (Some ErrNoChange) w1
            else
              let ret := queue version in
              let '(w2, err) := runMigrations m ret (spawn ret w1) in
              unlockErr m err w2
          end
        | BasicDrv _ => unlockErr m (Some notExtended) (logged CLock w b)
        end).1).*1
    = (trace w).*1 ++ CLock :: mid ++ [CUnlock] ∧
    Forall workCall mid.
Proof.
  destruct (databaseDrv m) as [d|ed].
  - exists []. destruct (unlockErr_trace m (Some notExtended) (logged CLock w b))
      as [-> _]. cbn. by rewrite fmap_app, <- app_assoc.
  - unfold isMigrationApplied. cbn [backend logged].
    destruct (IsMigrationApplied ed version b) as [b2 [isApplied [e|]]].
    + exists [CIsMigrationApplied version].
      destruct (unlockErr_trace m (Some e)
        (logged (CIsMigrationApplied version) (logged CLock w b) b2)) as [-> _].
      cbn. rewrite !fmap_app, <- !app_assoc. split; [done|].
      repeat constructor; done.
    + destruct (skipWhen isApplied).
      * exists [CIsMigrationApplied version].
        destruct (unlockErr_trace m (Some ErrNoChange)
          (logged (CIsMigrationApplied version) (logged CLock w b) b2)) as [-> _].
        cbn. rewrite !fmap_app, <- !app_assoc. split; [done|].
        repeat constructor; done.
      * set (w1 := spawn (queue version)
          (logged (CIsMigrationApplied version) (logged CLock w b) b2)).
        destruct (runMigrations_trace m (queue version) w1) as (mid & Htr & Hall & _).
        destruct (runMigrations m (queue version) w1) as [w2 err]. cbn in Htr.
        exists (CIsMigrationApplied version :: mid).
        destruct (unlockErr_trace m err w2) as [-> _]. rewrite Htr.
        cbn. rewrite !fmap_app, <- !app_assoc. split; [done|].
        constructor; [done|done].
Qed.

End LockDiscipline.

(** X12.  [DoMigration] and [UndoMigration] take the lock first.  When
    that fails they return the lock's error as it is and make no other
    call, not even the unlock.  When it succeeds they release the lock as
    their last call and make no lock or unlock call in between, on every
    path: capability error, query error, NoChange, pipeline error, failed
    or completed record. *)
Theorem lock_is_taken_first_and_released_last {B : Type} (m : Migrate B)
    (version : Z) (w : World) :
  (∀ b e, exec_call m CLock (backend w) = (b, Some e) →
     DoMigration m version w = (logged CLock w b, Some e) ∧
     UndoMigration m version w = (logged CLock w b, Some e)) ∧
  (∀ b, exec_call m CLock (backend w) = (b, None) →
     (∃ mid, (trace (DoMigration m version w).1).*1
               = (trace w).*1 ++ CLock :: mid ++ [CUnlock] ∧
        Forall workCall mid) ∧
     (∃ mid, (trace (UndoMigration m version w).1).*1
               = (trace w).*1 ++ CLock :: mid ++ [CUnlock] ∧
        Forall workCall mid)).
Proof.
  split.
  - intros b e Hlock. unfold DoMigration, UndoMigration, lock, invoke.
    by rewrite Hlock.
  - intros b Hlock. unfold DoMigration, UndoMigration, lock, invoke.
    rewrite Hlock. split.
    + apply (locked_operation m (queueUpSingleMigration m) id).
    + apply (locked_operation m (queueDownSingleMigration m) negb).
Qed.

Lemma lock_is_taken_first_and_released_last_witness :
  ∃ mid,
    (trace (DoMigration (Scenario.onPostgres (λ _, [])) 20250101000135
              (Scenario.start Scenario.fresh)).1).*1
    = [] ++ CLock :: mid ++ [CUnlock] ∧ Forall workCall mid.
Proof.
  destruct (lock_is_taken_first_and_released_last
    (Scenario.onPostgres (λ _, [])) 20250101000135
    (Scenario.start Scenario.fresh)) as [_ H].
  destruct (H Scenario.fresh eq_refl) as [Hdo _]. exact Hdo.
Defined.

(** X13.  On an [ExtendedDriver], once the lock is taken: an error of
    [IsMigrationApplied] is what both operations return, whatever the stop
    flag; and, with no stop requested at any poll, a version the source
    lacks makes [DoMigration] (of a version not applied) and
    [UndoMigration] (of an applied version) return the error of
    [versionExists], which is the one value sent on the channel.  In both
    cases the driver sees the lock, the query and the unlock: no marker is
    set and no script is run. *)
Theorem single_version_operations_fail_before_the_executor {B : Type}
    (m : Migrate B) (version : Z) (w : World) (ed : ExtendedDriver B) (b1 b2 : B) :
  databaseDrv m = ExtendedDrv ed →
  Lock (Embedded ed) (backend w) = (b1, None) →
  (∀ isApplied e, IsMigrationApplied ed version b1 = (b2, (isApplied, Some e)) →
     (∃ err, (DoMigration m version w).2 = Some err ∧ errors_Is err e = true) ∧
     (trace (DoMigration m version w).1).*1
       = (trace w).*1 ++ [CLock; CIsMigrationApplied version; CUnlock] ∧
     sent (DoMigration m version w).1 = sent w ∧
     (∃ err, (UndoMigration m version w).2 = Some err ∧ errors_Is err e = true) ∧
     (trace (UndoMigration m version w).1).*1
       = (trace w).*1 ++ [CLock; CIsMigrationApplied version; CUnlock] ∧
     sent (UndoMigration m version w).1 = sent w) ∧
  (∀ e, versionExists m version = Some e →
     (∀ i, stop m i = false) →
     (IsMigrationApplied ed version b1 = (b2, (false, None)) →
        (∃ err, (DoMigration m version w).2 = Some err ∧ errors_Is err e = true) ∧
        (trace (DoMigration m version w).1).*1
          = (trace w).*1 ++ [CLock; CIsMigrationApplied version; CUnlock] ∧
        sent (DoMigration m version w).1 = sent w ++ [SendErr e]) ∧
     (IsMigrationApplied ed version b1 = (b2, (true, None)) →
        (∃ err, (UndoMigration m version w).2 = Some err ∧ errors_Is err e = true) ∧
        (trace (UndoMigration m version w).1).*1
          = (trace w).*1 ++ [CLock; CIsMigrationApplied version; CUnlock] ∧
        sent (UndoMigration m version w).1 = sent w ++ [SendErr e])).
Proof.
  intros Hdrv Hlock.
  unfold DoMigration, UndoMigration, lock, invoke, exec_call, isMigrationApplied.
  rewrite Hdrv. cbn [asDriver backend logged]. rewrite Hlock.
  cbn [backend logged].
  set (wq := logged (CIsMigrationApplied version) (logged CLock w b1) b2).
  assert (Hend : ∀ e w',
    trace w' = trace wq →
    (∃ err, (unlockErr m (Some e) w').2 = Some err ∧ errors_Is err e = true) ∧
    (trace (unlockErr m (Some e) w').1).*1
      = (trace w).*1 ++ [CLock; CIsMigrationApplied version; CUnlock] ∧
    sent (unlockErr m (Some e) w').1 = sent w').
  { intros e w' Hw'.
    pose proof (errors_Is_unlockErr m e w') as Herr.
    destruct (unlockErr_trace m (Some e) w') as [Htr Hsent].
    rewrite Hw' in Htr. subst wq. cbn [trace logged] in Htr.
    rewrite !fmap_app, <- !app_assoc in Htr. done. }
  split.
  - intros isApplied e ->. fold wq.
    destruct (Hend e wq eq_refl) as (Herr & Htr & Hsent). done.
  - intros e Hex _. unfold queueUpSingleMigration, queueDownSingleMigration.
    rewrite Hex. split; intros ->; fold wq; cbn [negb runMigrations];
      apply (Hend e (spawn [SendErr e] wq) eq_refl).
Qed.

Lemma single_version_operations_fail_before_the_executor_witness :
  (∃ err,
     (DoMigration (Scenario.onPostgres (λ _, [])) 7
        (Scenario.start Scenario.fresh)).2 = Some err ∧
     errors_Is err (Scenario.noMigrationFound 7) = true) ∧
  (trace (DoMigration (Scenario.onPostgres (λ _, [])) 7
            (Scenario.start Scenario.fresh)).1).*1
    = [] ++ [CLock; CIsMigrationApplied 7; CUnlock] ∧
  sent (DoMigration (Scenario.onPostgres (λ _, [])) 7
          (Scenario.start Scenario.fresh)).1
    = [] ++ [SendErr (Scenario.noMigrationFound 7)].
Proof.
  destruct (single_version_operations_fail_before_the_executor
    (Scenario.onPostgres (λ _, [])) 7 (Scenario.start Scenario.fresh)
    Scenario.postgres Scenario.fresh Scenario.fresh eq_refl eq_refl) as [_ H].
  destruct (H (Scenario.noMigrationFound 7) eq_refl (λ _, eq_refl)) as [Hdo _].
  apply Hdo. reflexivity.
Defined.

(** X14.  On an [ExtendedDriver], once the lock is taken, an operation
    that finds the stop flag set after the version was validated sends
    nothing on the channel, so that no marker is set and no script is run,
    and it returns nil when the unlock succeeds although nothing was
    applied or reverted. *)
Theorem stopped_single_version_operation_returns_nil {B : Type}
    (m : Migrate B) (version : Z) (w : World) (ed : ExtendedDriver B)
    (b1 b2 b3 : B) :
  databaseDrv m = ExtendedDrv ed →
  Lock (Embedded ed) (backend w) = (b1, None) →
  Unlock (Embedded ed) b2 = (b3, None) →
  versionExists m version = None → stop m 0 = true →
  (IsMigrationApplied ed version b1 = (b2, (false, None)) →
     (DoMigration m version w).2 = None ∧
     (trace (DoMigration m version w).1).*1
       = (trace w).*1 ++ [CLock; CIsMigrationApplied version; CUnlock] ∧
     sent (DoMigration m version w).1 = sent w) ∧
  (IsMigrationApplied ed version b1 = (b2, (true, None)) →
     (UndoMigration m version w).2 = None ∧
     (trace (UndoMigration m version w).1).*1
       = (trace w).*1 ++ [CLock; CIsMigrationApplied version; CUnlock] ∧
     sent (UndoMigration m version w).1 = sent w).
Proof.
  intros Hdrv Hlock Hunlock Hex Hstop.
  unfold DoMigration, UndoMigration, lock, invoke, exec_call, isMigrationApplied.
  rewrite Hdrv. cbn [asDriver backend logged]. rewrite Hlock.
  cbn [backend logged].
  unfold queueUpSingleMigration, queueDownSingleMigration.
  rewrite Hex, Hstop.
  split; intros ->; cbn [negb runMigrations skip spawn backend logged trace sent];
    unfold unlockErr, invoke, exec_call; rewrite Hdrv;
    cbn [asDriver backend logged spawn skip]; rewrite Hunlock;
    cbn [fst snd spawn trace sent logged];
    rewrite !fmap_app, <- ?app_assoc, ?app_nil_r; done.
Qed.

Lemma stopped_single_version_operation_returns_nil_witness :
  (DoMigration
     (Scenario.migratorWith (λ _, []) (ExtendedDrv Scenario.postgres)
        Scenario.samples Scenario.stopped)
     20250101000135 (Scenario.start Scenario.fresh)).2 = None ∧
  Postgres.migrations
    (backend
       (DoMigration
          (Scenario.migratorWith (λ _, []) (ExtendedDrv Scenario.postgres)
             Scenario.samples Scenario.stopped)
          20250101000135 (Scenario.start Scenario.fresh)).1) = Some ∅.
Proof.
  split; [|reflexivity].
  destruct (stopped_single_version_operation_returns_nil
    (Scenario.migratorWith (λ _, []) (ExtendedDrv Scenario.postgres)
       Scenario.samples Scenario.stopped)
    20250101000135 (Scenario.start Scenario.fresh)
    Scenario.postgres Scenario.fresh Scenario.fresh Scenario.fresh
    eq_refl eq_refl eq_refl eq_refl eq_refl) as [H _].
  apply H. reflexivity.
Defined.

(** ** The executor and the operations on a healthy Postgres driver *)

Section HealthyExecutor.

Context {D : Type}.
Variable m : Migrate (@Postgres.Postgres D).
Hypothesis Hm : healthyPostgres m.

Lemma handleSingleMigration_up_healthy (migr : Migration) (w : World) rows :
  Postgres.migrations (backend w) = Some rows →
  rows !! int_of_uint (Version migr) = None → UpKindMigration migr = true →
  ∃ w', handleSingleMigration m migr w = (w', None) ∧
    Postgres.migrations (backend w') = Some (<[int_of_uint (Version migr) := false]> rows) ∧
    sent w' = sent w.
Proof.
  destruct Hm as (run_script & pgSetVersion & Hdrv & Hscripts).
  intros Hrows Hv Hup.
  unfold handleSingleMigration, andThen, orErrorf, invoke, skip, exec_call.
  rewrite Hdrv, Hup.
  cbn [asDriver Embedded Postgres.PostgresExtras
    AddDirtyMigration UpdateMigrationDirtyFlag RemoveMigration Run].
  rewrite (AddDirtyMigration_healthy _ (λ _ _, eq_refl) _ _ rows) by done.
  cbn [backend logged].
  destruct (Body migr) as [body|].
  - unfold Postgres.Run. cbn [Postgres.database Postgres.withMigrations].
    pose proof (Hscripts (BufferedBody migr) (Postgres.database (backend w))) as Hs.
    destruct (run_script _ _) as [d r]. cbn in Hs. subst r.
    cbn [backend logged Postgres.migrations Postgres.withMigrations].
    rewrite (UpdateMigrationDirtyFlag_healthy _ (λ _ _, eq_refl) _ _ _
               (<[int_of_uint (Version migr) := true]> rows)) by done.
    eexists. split; [done|]. cbn. by rewrite alter_insert_eq.
  - rewrite (UpdateMigrationDirtyFlag_healthy _ (λ _ _, eq_refl) _ _ _
               (<[int_of_uint (Version migr) := true]> rows)) by done.
    eexists. split; [done|]. cbn. by rewrite alter_insert_eq.
Qed.

Lemma handleSingleMigration_down_healthy (migr : Migration) (w : World) rows :
  Postgres.migrations (backend w) = Some rows → UpKindMigration migr = false →
  ∃ w', handleSingleMigration m migr w = (w', None) ∧
    Postgres.migrations (backend w') = Some (delete (int_of_uint (Version migr)) rows) ∧
    sent w' = sent w.
Proof.
  destruct Hm as (run_script & pgSetVersion & Hdrv & Hscripts).
  intros Hrows Hup.
  unfold handleSingleMigration, andThen, orErrorf, invoke, skip, exec_call.
  rewrite Hdrv, Hup.
  cbn [asDriver Embedded Postgres.PostgresExtras
    AddDirtyMigration UpdateMigrationDirtyFlag RemoveMigration Run].
  rewrite (UpdateMigrationDirtyFlag_healthy _ (λ _ _, eq_refl) _ _ _ rows) by done.
  cbn [backend logged].
  destruct (Body migr) as [body|].
  - unfold Postgres.Run. cbn [Postgres.database Postgres.withMigrations].
    pose proof (Hscripts (BufferedBody migr) (Postgres.database (backend w))) as Hs.
    destruct (run_script _ _) as [d r]. cbn in Hs. subst r.
    cbn [backend logged Postgres.migrations Postgres.withMigrations].
    rewrite (RemoveMigration_healthy _ (λ _ _, eq_refl) _ _
               (alter (λ _, true) (int_of_uint (Version migr)) rows)) by done.
    eexists. split; [done|]. cbn. by rewrite delete_alter_eq.
  - rewrite (RemoveMigration_healthy _ (λ _ _, eq_refl) _ _
               (alter (λ _, true) (int_of_uint (Version migr)) rows)) by done.
    eexists. split; [done|]. cbn. by rewrite delete_alter_eq.
Qed.

End HealthyExecutor.

Section HealthyOperations.

Context {D : Type}.
Variable m : Migrate (@Postgres.Postgres D).
Hypothesis Hm : healthyPostgres m.

Lemma unlockErr_healthy (prev : option error) (w : World) :
  ∃ w', unlockErr m prev w = (w', prev) ∧ backend w' = backend w.
Proof.
  destruct Hm as (run_script & pgSetVersion & Hdrv & _).
  unfold unlockErr, invoke, exec_call. rewrite Hdrv. cbn. eauto.
Qed.

Lemma DoMigration_applied_healthy (v : Z) (w : World) rows :
  Postgres.migrations (backend w) = Some rows → is_Some (rows !! int_of_uint v) →
  ∃ w', DoMigration m v w = (w', Some ErrNoChange) ∧ backend w' = backend w.
Proof.
  intros Hrows Hv.
  destruct Hm as (run_script & pgSetVersion & Hdrv & Hscripts).
  unfold DoMigration, lock, invoke, exec_call, isMigrationApplied.
  rewrite Hdrv.
  cbn [asDriver Embedded Postgres.PostgresExtras Lock IsMigrationApplied
    backend logged].
  rewrite (IsMigrationApplied_healthy _ (λ _ _, eq_refl) v _ rows) by done.
  rewrite bool_decide_eq_true_2 by done.
  edestruct unlockErr_healthy as (w' & -> & Hb). exists w'. by rewrite Hb.
Qed.

Lemma DoMigration_healthy (v : Z) (w : World) rows :
  versionExists m v = None → (∀ i, stop m i = false) →
  contentOk m v (int_of_uint v) →
  Postgres.migrations (backend w) = Some rows → rows !! int_of_uint v = None →
  ∃ w', DoMigration m v w = (w', None) ∧
    Postgres.migrations (backend w') = Some (<[int_of_uint v := false]> rows).
Proof.
  intros Hex Hstop Hok Hrows Hv.
  pose proof Hm as (run_script & pgSetVersion & Hdrv & Hscripts).
  unfold DoMigration, lock, invoke, exec_call, isMigrationApplied.
  rewrite Hdrv.
  cbn [asDriver Embedded Postgres.PostgresExtras Lock IsMigrationApplied
    backend logged].
  rewrite (IsMigrationApplied_healthy _ (λ _ _, eq_refl) v _ rows) by done.
  rewrite bool_decide_eq_false_2 by (rewrite Hv; by intros [? ?]).
  unfold queueUpSingleMigration. rewrite Hex, (Hstop O), newMigration_ok by done.
  cbn [runMigrations]. unfold andThen, skip.
  edestruct (handleSingleMigration_up_healthy m Hm) as (w1 & -> & Hw1 & _);
    [exact Hrows|exact Hv|reflexivity|].
  edestruct unlockErr_healthy as (w' & -> & Hb). exists w'. by rewrite Hb.
Qed.

Lemma UndoMigration_healthy (v : Z) (w : World) rows :
  versionExists m v = None → (∀ i, stop m i = false) →
  (∀ err, Prev (sourceDrv m) v = Err err → errors_Is err ErrNotExist = true) →
  (∀ t, contentOk m v t) →
  Postgres.migrations (backend w) = Some rows → is_Some (rows !! int_of_uint v) →
  ∃ w', UndoMigration m v w = (w', None) ∧
    Postgres.migrations (backend w') = Some (delete (int_of_uint v) rows).
Proof.
  intros Hex Hstop Hprev Hok Hrows Hv.
  pose proof Hm as (run_script & pgSetVersion & Hdrv & Hscripts).
  unfold UndoMigration, lock, invoke, exec_call, isMigrationApplied.
  rewrite Hdrv.
  cbn [asDriver Embedded Postgres.PostgresExtras Lock IsMigrationApplied
    backend logged].
  rewrite (IsMigrationApplied_healthy _ (λ _ _, eq_refl) v _ rows) by done.
  rewrite bool_decide_eq_true_2 by done. cbn [negb].
  unfold queueDownSingleMigration. rewrite Hex, (Hstop O).
  assert (Htarget : ∃ t,
    match Prev (sourceDrv m) v with
    | Ok prev => Ok (int_of_uint prev)
    | Err err => if errors_Is err ErrNotExist then Ok (-1) else Err err
    end = Ok t).
  { destruct (Prev (sourceDrv m) v) as [prev|err] eqn:Hp; [eauto|].
    rewrite (Hprev err eq_refl). eauto. }
  destruct Htarget as [t ->]. rewrite newMigration_ok by done.
  cbn [runMigrations]. unfold andThen, skip.
  edestruct (handleSingleMigration_down_healthy m Hm) as (w1 & -> & Hw1 & _);
    [exact Hrows|reflexivity|].
  edestruct unlockErr_healthy as (w' & -> & Hb). exists w'. by rewrite Hb.
Qed.

End HealthyOperations.

Lemma onAccepting_healthy : healthyPostgres Scenario.onAccepting.
Proof. exists Scenario.accept, (λ _ _ p, (p, None)). split; reflexivity. Qed.

(** X15.  On a healthy Postgres driver the executor applies or reverts
    exactly one version: an Up record of a version without a row returns
    nil and leaves that version with a clean row, a Down record returns nil
    and leaves the version without a row; every other row is as it was.
    The row of a version is the one under [int64(version)], the key the
    driver's statements get. *)
Theorem executor_changes_exactly_one_row {D : Type}
    (m : Migrate (@Postgres.Postgres D)) (migr : Migration) (w : World)
    (rows : gmap Z bool) :
  healthyPostgres m →
  Postgres.migrations (backend w) = Some rows →
  (UpKindMigration migr = true → rows !! int_of_uint (Version migr) = None →
     ∃ w', handleSingleMigration m migr w = (w', None) ∧
       Postgres.migrations (backend w')
         = Some (<[int_of_uint (Version migr) := false]> rows)) ∧
  (UpKindMigration migr = false →
     ∃ w', handleSingleMigration m migr w = (w', None) ∧
       Postgres.migrations (backend w')
         = Some (delete (int_of_uint (Version migr)) rows)).
Proof.
  intros Hm Hrows. split.
  - intros Hup Hv.
    destruct (handleSingleMigration_up_healthy m Hm migr w rows)
      as (w' & ? & ? & _); eauto.
  - intros Hup.
    destruct (handleSingleMigration_down_healthy m Hm migr w rows)
      as (w' & ? & ? & _); eauto.
Qed.

Lemma executor_changes_exactly_one_row_witness :
  ∃ w',
    handleSingleMigration Scenario.onAccepting
      (Scenario.upOf (λ _, []) 20250101000135) (Scenario.start Scenario.fresh)
    = (w', None) ∧
    Postgres.migrations (backend w') = Some (<[20250101000135 := false]> ∅).
Proof.
  destruct (executor_changes_exactly_one_row Scenario.onAccepting
    (Scenario.upOf (λ _, []) 20250101000135) (Scenario.start Scenario.fresh) ∅
    onAccepting_healthy eq_refl) as [H _].
  apply H; reflexivity.
Defined.

(** X16.  On a healthy Postgres driver and with no stop requested at any
    poll, [DoMigration] of a version the source has and the history lacks
    returns nil and leaves the version applied with a clean row (under
    [int64(version)]), and a second [DoMigration] of it returns NoChange
    and leaves the database as it is. *)
Theorem DoMigration_applies_once {D : Type}
    (m : Migrate (@Postgres.Postgres D)) (version : Z) (w : World)
    (rows : gmap Z bool) :
  healthyPostgres m →
  versionExists m version = None →
  (∀ i, stop m i = false) →
  contentOk m version (int_of_uint version) →
  Postgres.migrations (backend w) = Some rows →
  rows !! int_of_uint version = None →
  ∃ w1 w2,
    DoMigration m version w = (w1, None) ∧
    Postgres.migrations (backend w1)
      = Some (<[int_of_uint version := false]> rows) ∧
    DoMigration m version w1 = (w2, Some ErrNoChange) ∧
    backend w2 = backend w1.
Proof.
  intros Hm Hex Hstop Hok Hrows Hv.
  destruct (DoMigration_healthy m Hm version w rows) as (w1 & Hdo & Hw1);
    try done.
  destruct (DoMigration_applied_healthy m Hm version w1
              (<[int_of_uint version := false]> rows))
    as (w2 & Hagain & Hw2); [done|by rewrite lookup_insert_eq|].
  by exists w1, w2.
Qed.

Lemma DoMigration_applies_once_witness :
  ∃ w1 w2,
    DoMigration Scenario.onAccepting 20250101000135
      (Scenario.start Scenario.fresh) = (w1, None) ∧
    Postgres.migrations (backend w1) = Some (<[20250101000135 := false]> ∅) ∧
    DoMigration Scenario.onAccepting 20250101000135 w1
      = (w2, Some ErrNoChange) ∧
    backend w2 = backend w1.
Proof.
  apply (DoMigration_applies_once Scenario.onAccepting 20250101000135
           (Scenario.start Scenario.fresh) ∅ onAccepting_healthy).
  - reflexivity.
  - intros i. reflexivity.
  - eexists. reflexivity.
  - reflexivity.
  - reflexivity.
Defined.

(** X17.  On a healthy Postgres driver and with no stop requested at any
    poll, [UndoMigration] reverts [DoMigration]: for a version the source
    has and the history lacks, both return nil and the migrations table is
    afterwards what it was before. *)
Theorem UndoMigration_reverts_DoMigration {D : Type}
    (m : Migrate (@Postgres.Postgres D)) (version : Z) (w : World)
    (rows : gmap Z bool) :
  healthyPostgres m →
  versionExists m version = None →
  (∀ i, stop m i = false) →
  (∀ err, Prev (sourceDrv m) version = Err err →
     errors_Is err ErrNotExist = true) →
  (∀ t, contentOk m version t) →
  Postgres.migrations (backend w) = Some rows →
  rows !! int_of_uint version = None →
  ∃ w1 w2,
    DoMigration m version w = (w1, None) ∧
    Postgres.migrations (backend w1)
      = Some (<[int_of_uint version := false]> rows) ∧
    UndoMigration m version w1 = (w2, None) ∧
    Postgres.migrations (backend w2) = Some rows.
Proof.
  intros Hm Hex Hstop Hprev Hok Hrows Hv.
  destruct (DoMigration_healthy m Hm version w rows) as (w1 & Hdo & Hw1);
    try done.
  destruct (UndoMigration_healthy m Hm version w1
              (<[int_of_uint version := false]> rows))
    as (w2 & Hundo & Hw2); try done; [by rewrite lookup_insert_eq|].
  exists w1, w2. rewrite delete_insert_id in Hw2 by done. done.
Qed.

Lemma UndoMigration_reverts_DoMigration_witness :
  ∃ w1 w2,
    DoMigration Scenario.onAccepting 20250101000135
      (Scenario.start Scenario.fresh) = (w1, None) ∧
    Postgres.migrations (backend w1) = Some (<[20250101000135 := false]> ∅) ∧
    UndoMigration Scenario.onAccepting 20250101000135 w1 = (w2, None) ∧
    Postgres.migrations (backend w2) = Some ∅.
Proof.
  apply (UndoMigration_reverts_DoMigration Scenario.onAccepting 20250101000135
           (Scenario.start Scenario.fresh) ∅ onAccepting_healthy).
  - reflexivity.
  - intros i. reflexivity.
  - intros err Herr. discriminate Herr.
  - intros t. eexists. reflexivity.
  - reflexivity.
  - reflexivity.
Defined.

(** X18.  The error the executor returns is never the driver's error
    itself but always wraps it, so that [errors.Is] finds the driver's
    error inside. *)
Theorem executor_error_wraps_the_driver_error {B : Type} (m : Migrate B)
    (migr : Migration) (w w' : World) (err : error) :
  handleSingleMigration m migr w = (w', Some err) →
  ∃ c wd e format version,
    exec_call m c (backend wd) = (backend w', Some e) ∧
    err = Errorf format version e ∧
    errors_Is err e = true.
Proof.
  intros Hrun.
  apply handleSingleMigration_failure in Hrun
    as (earlier & c & rest & wd & e & format & _ & _ & Hcall & _ & ->).
  exists c, wd, e, format, (reportedVersion migr c).
  split; [done|]. split; [done|]. cbn.
  case_bool_decide; [done|]. apply errors_Is_refl.
Qed.

Lemma executor_error_wraps_the_driver_error_witness :
  ∃ c wd e format version,
    exec_call (Scenario.onPostgres (λ _, Scenario.corrupted)) c (backend wd)
      = (backend
           (handleSingleMigration (Scenario.onPostgres (λ _, Scenario.corrupted))
              (Scenario.upOf (λ _, Scenario.corrupted) 20250101000135)
              (Scenario.start Scenario.fresh)).1,
         Some e) ∧
    Errorf "failed to run migration %d body: %w" 20250101000135
      (PqError "syntax_error") = Errorf format version e ∧
    errors_Is
      (Errorf "failed to run migration %d body: %w" 20250101000135
         (PqError "syntax_error")) e = true.
Proof.
  apply (executor_error_wraps_the_driver_error
    (Scenario.onPostgres (λ _, Scenario.corrupted))
    (Scenario.upOf (λ _, Scenario.corrupted) 20250101000135)
    (Scenario.start Scenario.fresh)).
  reflexivity.
Defined.

(** ** Bulk runs on a healthy Postgres driver *)

Section SourceOrder.

Context {B : Type}.
Variable m : Migrate B.

Lemma enumerates_head v l : enumerates m v l → ∃ l', l = v :: l'.
Proof. destruct l as [|x l']; [done|]. intros [-> _]. eauto. Qed.

Lemma enumerates_det l1 : ∀ v l2,
  enumerates m v l1 → enumerates m v l2 → l1 = l2.
Proof.
  induction l1 as [|x l1 IH]; intros v l2; [done|].
  destruct l2 as [|y l2]; [done|].
  intros [-> H1] [-> H2]. f_equal.
  destruct l1 as [|n1 l1], l2 as [|n2 l2]; [done| | |].
  - destruct H1 as (err & H1 & _), H2 as [H2 _]. by rewrite H1 in H2.
  - destruct H2 as (err & H2 & _), H1 as [H1 _]. by rewrite H1 in H2.
  - destruct H1 as [H1 Hen1], H2 as [H2 Hen2].
    rewrite H1 in H2. injection H2 as ->. by apply (IH n2).
Qed.

Lemma enumerates_suffix pre : ∀ v x post,
  enumerates m v (pre ++ x :: post) → enumerates m x (x :: post).
Proof.
  induction pre as [|y pre IH]; intros v x post Hen.
  - cbn in Hen. by destruct Hen as [-> Hen].
  - cbn [app] in Hen. destruct Hen as [-> Hen].
    destruct (pre ++ x :: post) as [|n rest] eqn:Hrest.
    { by destruct pre. }
    destruct Hen as [_ Hen]. rewrite <- Hrest in Hen. by apply (IH n).
Qed.

Lemma enumerates_NoDup l : ∀ v, enumerates m v l → NoDup l.
Proof.
  induction l as [|x l IH]; intros v Hen; [constructor|].
  pose proof Hen as [-> Hen'].
  constructor.
  - intros Hin. apply list_elem_of_split in Hin as (pre & post & Hl).
    assert (Hsuf : enumerates m v (v :: post)).
    { apply (enumerates_suffix (v :: pre) v). by rewrite <- app_comm_cons, <- Hl. }
    pose proof (enumerates_det _ _ _ Hen Hsuf) as Heq.
    injection Heq as Heq. rewrite Hl in Heq at 1.
    apply (f_equal length) in Heq. rewrite length_app in Heq. cbn in Heq. lia.
  - destruct l as [|n l']; [constructor|].
    destruct Hen' as [_ Hen']. by apply (IH n).
Qed.

End SourceOrder.

Section HealthyBulk.

Context {D : Type}.
Variable m : Migrate (@Postgres.Postgres D).
Hypothesis Hm : healthyPostgres m.

Lemma runMigrations_up_healthy (mk : Z → Migration) (vs : list Z) : ∀ w rows,
  (∀ v, v ∈ vs →
     int_of_uint (Version (mk v)) = v ∧ UpKindMigration (mk v) = true) →
  NoDup vs → (∀ v, v ∈ vs → rows !! v = None) →
  Postgres.migrations (backend w) = Some rows →
  ∃ w' rows',
    runMigrations m (SendMigr ∘ mk <$> vs) w = (w', None) ∧
    Postgres.migrations (backend w') = Some rows' ∧
    ∀ x, rows' !! x = if decide (x ∈ vs) then Some false else rows !! x.
Proof.
  induction vs as [|v vs IH]; intros w rows Hmk Hnd Hfresh Hrows.
  - exists w, rows. split; [done|]. split; [done|]. intros x.
    by rewrite decide_False by apply not_elem_of_nil.
  - apply NoDup_cons in Hnd as [Hv Hnd].
    cbn [fmap list_fmap runMigrations compose]. unfold andThen.
    destruct (Hmk v) as [Hver Hup]; [left|].
    destruct (handleSingleMigration_up_healthy m Hm (mk v) w rows)
      as (w1 & -> & Hw1 & _); [done|rewrite Hver; apply Hfresh; left|done|].
    rewrite Hver in Hw1.
    destruct (IH w1 (<[v := false]> rows)) as (w' & rows' & Hrun & Hw' & Hlook);
      [intros x Hx; apply Hmk; by right|done| |done|].
    { intros x Hx. rewrite lookup_insert_ne; [apply Hfresh; by right|].
      intros ->. done. }
    exists w', rows'. split; [done|]. split; [done|]. intros x. rewrite Hlook.
    destruct (decide (x = v)) as [->|Hne].
    + rewrite decide_False by done. rewrite lookup_insert_eq.
      by rewrite decide_True by left.
    + rewrite lookup_insert_ne by done.
      destruct (decide (x ∈ vs)) as [Hin|Hnin].
      * by rewrite decide_True by by right.
      * rewrite decide_False; [done|]. intros Hin.
        apply elem_of_cons in Hin as [?|?]; done.
Qed.

Lemma runMigrations_down_healthy (mk : Z * Z → Migration) (ps : list (Z * Z)) :
  ∀ w rows,
  (∀ p, p ∈ ps →
     int_of_uint (Version (mk p)) = p.1 ∧ UpKindMigration (mk p) = false) →
  Postgres.migrations (backend w) = Some rows →
  ∃ w' rows',
    runMigrations m (SendMigr ∘ mk <$> ps) w = (w', None) ∧
    Postgres.migrations (backend w') = Some rows' ∧
    ∀ x, rows' !! x = if decide (x ∈ ps.*1) then None else rows !! x.
Proof.
  induction ps as [|p ps IH]; intros w rows Hmk Hrows.
  - exists w, rows. split; [done|]. split; [done|]. intros x.
    by rewrite decide_False by apply not_elem_of_nil.
  - cbn [fmap list_fmap runMigrations compose]. unfold andThen.
    destruct (Hmk p) as [Hver Hup]; [left|].
    destruct (handleSingleMigration_down_healthy m Hm (mk p) w rows)
      as (w1 & -> & Hw1 & _); [done|done|].
    rewrite Hver in Hw1.
    destruct (IH w1 (delete p.1 rows)) as (w' & rows' & Hrun & Hw' & Hlook);
      [intros q Hq; apply Hmk; by right|done|].
    exists w', rows'. split; [done|]. split; [done|]. intros x. rewrite Hlook.
    destruct (decide (x = p.1)) as [->|Hne].
    + rewrite lookup_delete_eq. rewrite (decide_True (P := p.1 ∈ p.1 :: ps.*1))
        by left. by destruct (decide (p.1 ∈ ps.*1)).
    + rewrite lookup_delete_ne by done.
      destruct (decide (x ∈ ps.*1)) as [Hin|Hnin].
      * by rewrite decide_True by by right.
      * rewrite decide_False; [done|]. intros Hin.
        apply elem_of_cons in Hin as [?|?]; done.
Qed.

End HealthyBulk.

Lemma downTargets_fst (l : list Z) : (downTargets l).*1 = l.
Proof. induction l as [|a l IH]; cbn; [done|]. by rewrite IH. Qed.

Lemma downTargets_length (l : list Z) : length (downTargets l) = length l.
Proof. by rewrite <- (downTargets_fst l) at 2; rewrite length_fmap. Qed.

(** X19.  Out-of-order completeness.  On a healthy Postgres driver, with
    the applied list holding the versions that have a row, versions below
    2^63 and no stop, an unlimited bulk Up run followed by the consumer
    loop gives every source version a clean row, whatever its place among
    the applied ones, and leaves all other rows as they were; the loop
    returns nil, or NoChange when every source version had a row. *)
Theorem bulk_up_completes_the_history {D : Type}
    (m : Migrate (@Postgres.Postgres D)) (fuel : nat) (l appliedMigrs : list Z)
    (w : World) (rows : gmap Z bool) :
  healthyPostgres m →
  source_versions m fuel = Some l →
  (∀ v, v ∈ l → contentOk m v (int_of_uint v) ∧ 0 <= v < 2 ^ 63) →
  (∀ i, stop m i = false) →
  Postgres.migrations (backend w) = Some rows →
  (∀ x, x ∈ appliedMigrs ↔ is_Some (rows !! x)) →
  ∃ ret w' r rows',
    queueUpMigrations m fuel appliedMigrs (-1) = Some ret ∧
    runMigrations m ret w = (w', r) ∧
    (r = None ∨ r = Some ErrNoChange ∧ ∀ v, v ∈ l → is_Some (rows !! v)) ∧
    Postgres.migrations (backend w') = Some rows' ∧
    ∀ x, rows' !! x =
      if decide (x ∈ l ∧ rows !! x = None) then Some false else rows !! x.
Proof.
  intros Hm Hsrc Hl Hrun Hrows Happlied.
  assert (Hlen : (length l ≤ fuel)%nat ∧ NoDup l).
  { unfold source_versions in Hsrc.
    destruct (First (sourceDrv m)) as [v|err].
    - apply versions_from_enumerates in Hsrc as [Hen ?].
      split; [done|]. by apply (enumerates_NoDup m l v).
    - destruct (errors_Is err ErrNotExist); [|done].
      injection Hsrc as <-. split; [cbn; lia|constructor]. }
  destruct Hlen as [Hlen Hnd].
  rewrite (queueUpMigrations_run m appliedMigrs (-1) fuel fuel l)
    by (done || intros v Hv; by apply Hl).
  cbn zeta. unfold upCandidates. rewrite polls_before_stop_never by done.
  rewrite firstn_all, (remaining_none (-1) 0) by done. cbn [take_remaining].
  set (cands := filter (λ v, int_of_uint v ∉ appliedMigrs) l).
  assert (Hndc : NoDup cands) by by apply NoDup_filter.
  assert (Hcands : ∀ x, x ∈ cands ↔ x ∈ l ∧ rows !! x = None).
  { intros x. subst cands. rewrite list_elem_of_filter. split.
    - intros [Hx Hin]. split; [done|].
      rewrite int_of_uint_small in Hx by by apply Hl.
      rewrite Happlied in Hx. by apply eq_None_not_Some.
    - intros [Hin Hx]. split; [|done].
      rewrite int_of_uint_small by by apply Hl.
      rewrite Happlied. by apply eq_None_not_Some. }
  clearbody cands.
  destruct (decide (cands = [])) as [->|Hne].
  - exists [SendErr ErrNoChange], w, (Some ErrNoChange), rows.
    split; [done|]. split; [done|]. split.
    { right. split; [done|]. intros v Hv.
      destruct (rows !! v) eqn:Hrv; [done|].
      assert (Hnil : v ∈ @nil Z) by (apply Hcands; done).
      by apply elem_of_nil in Hnil. }
    split; [done|]. intros x. rewrite decide_False; [done|].
    intros Hx. apply Hcands in Hx. by apply elem_of_nil in Hx.
  - replace (noChangeIfNone cands) with (@nil chan_value)
      by (by destruct cands).
    rewrite app_nil_r.
    destruct (runMigrations_up_healthy m Hm (upRecord m) cands w rows)
      as (w' & rows' & Hdone & Hw' & Hlook).
    + intros v Hv. split; [|done]. cbn. apply int_of_uint_small.
      apply Hl. by apply Hcands in Hv as [? _].
    + done.
    + intros v Hv. by apply Hcands in Hv as [_ ?].
    + done.
    + exists (SendMigr ∘ upRecord m <$> cands), w', None, rows'.
      split; [done|]. split; [done|]. split; [by left|]. split; [done|].
      intros x. rewrite Hlook.
      destruct (decide (x ∈ cands)) as [Hin|Hnin].
      * by rewrite decide_True by by apply Hcands.
      * rewrite decide_False; [done|]. intros Hx. by apply Hcands in Hx.
Qed.

Lemma bulk_up_completes_the_history_witness :
  ∃ ret w' r rows',
    queueUpMigrations Scenario.onAccepting 3 [20250101000140; 20250101000130] (-1)
      = Some ret ∧
    runMigrations Scenario.onAccepting ret
      (Scenario.start
         {| Postgres.migrations :=
              Some {[ 20250101000130 := false; 20250101000140 := false ]};
            Postgres.database := [] |}) = (w', r) ∧
    (r = None ∨ r = Some ErrNoChange ∧
       ∀ v, v ∈ Scenario.samples →
         is_Some (({[ 20250101000130 := false; 20250101000140 := false ]}
                     : gmap Z bool) !! v)) ∧
    Postgres.migrations (backend w') = Some rows' ∧
    ∀ x, rows' !! x =
      if decide (x ∈ Scenario.samples ∧
                 ({[ 20250101000130 := false; 20250101000140 := false ]}
                    : gmap Z bool) !! x = None)
      then Some false
      else ({[ 20250101000130 := false; 20250101000140 := false ]}
              : gmap Z bool) !! x.
Proof.
  apply (bulk_up_completes_the_history Scenario.onAccepting 3 Scenario.samples
           [20250101000140; 20250101000130]
           (Scenario.start
              {| Postgres.migrations :=
                   Some {[ 20250101000130 := false; 20250101000140 := false ]};
                 Postgres.database := [] |})
           {[ 20250101000130 := false; 20250101000140 := false ]}
           onAccepting_healthy).
  - reflexivity.
  - intros v Hv. split; [eexists; reflexivity|].
    cbn in Hv. repeat (apply elem_of_cons in Hv as [->|Hv]; [lia|]).
    by apply elem_of_nil in Hv.
  - reflexivity.
  - reflexivity.
  - intros x. rewrite !elem_of_cons, elem_of_nil.
    destruct (decide (x = 20250101000130)) as [->|H1];
      [split; [eexists; reflexivity|auto]|].
    destruct (decide (x = 20250101000140)) as [->|H2];
      [split; [eexists; reflexivity|auto]|].
    rewrite lookup_insert_ne, lookup_singleton_ne by done.
    split; [intros [?|[?|[]]]; done|intros [? ?]; done].
Defined.

(** X20.  On a healthy Postgres driver, with applied versions below 2^63
    and no stop, a bulk Down run followed by the consumer loop removes
    the rows of the first [limit] applied versions (all of them when the
    limit is -1) and leaves every other row as it was; the loop returns
    nil, or NoChange when nothing was queued. *)
Theorem bulk_down_reverts_the_queued_versions {D : Type}
    (m : Migrate (@Postgres.Postgres D)) (appliedMigrs : list Z) (limit : Z)
    (w : World) (rows : gmap Z bool) :
  healthyPostgres m →
  (∀ a t, (a, t) ∈ downTargets appliedMigrs → contentOk m (uint_of_int a) t) →
  (∀ a, a ∈ appliedMigrs → 0 <= a < 2 ^ 63) →
  (∀ i, stop m i = false) →
  Postgres.migrations (backend w) = Some rows →
  let queued :=
    if decide (limit = -1) then appliedMigrs
    else take (Z.to_nat limit) appliedMigrs in
  ∃ ret w' r rows',
    queueDownMigrations m appliedMigrs limit = Some ret ∧
    runMigrations m ret w = (w', r) ∧
    r = (if queued is [] then Some ErrNoChange else None) ∧
    Postgres.migrations (backend w') = Some rows' ∧
    ∀ x, rows' !! x = if decide (x ∈ queued) then None else rows !! x.
Proof.
  intros Hm Hok Hsmall Hrun Hrows queued.
  rewrite (queueDownMigrations_run m appliedMigrs limit) by done.
  cbn zeta. unfold downCandidates.
  rewrite polls_before_stop_never by done.
  rewrite <- (downTargets_length appliedMigrs), firstn_all, take_remaining_limit.
  set (cands := if decide (limit = -1) then downTargets appliedMigrs
                else take (Z.to_nat limit) (downTargets appliedMigrs)).
  assert (Hfst : cands.*1 = queued).
  { subst cands queued. destruct (decide (limit = -1)).
    - apply downTargets_fst.
    - by rewrite fmap_take, downTargets_fst. }
  assert (Hin : ∀ p, p ∈ cands → p.1 ∈ appliedMigrs).
  { intros p Hp. rewrite <- (downTargets_fst appliedMigrs).
    apply list_elem_of_fmap. exists p. split; [done|].
    subst cands. destruct (decide (limit = -1)); [done|].
    rewrite <- (take_drop (Z.to_nat limit) (downTargets appliedMigrs)).
    apply elem_of_app. by left. }
  clearbody cands.
  destruct cands as [|c cands'].
  - exists [SendErr ErrNoChange], w, (Some ErrNoChange), rows.
    rewrite <- Hfst. cbn.
    split; [done|]. split; [done|]. split; [done|]. split; [done|].
    intros x. rewrite decide_False; [done|]. apply not_elem_of_nil.
  - cbn [noChangeIfNone]. rewrite app_nil_r.
    destruct (runMigrations_down_healthy m Hm (downRecord m) (c :: cands') w rows)
      as (w' & rows' & Hdone & Hw' & Hlook).
    + intros p Hp. split; [|done]. cbn.
      rewrite uint_of_int_nonneg by by apply Hsmall, Hin.
      apply int_of_uint_small. by apply Hsmall, Hin.
    + done.
    + exists (SendMigr ∘ downRecord m <$> c :: cands'), w', None, rows'.
      split; [done|]. split; [done|]. split; [by rewrite <- Hfst|].
      split; [done|]. intros x. by rewrite Hlook, Hfst.
Qed.

Lemma bulk_down_reverts_the_queued_versions_witness :
  ∃ ret w' r rows',
    queueDownMigrations Scenario.onAccepting
      [20250101000140; 20250101000135; 20250101000130] 2 = Some ret ∧
    runMigrations Scenario.onAccepting ret
      (Scenario.start
         {| Postgres.migrations :=
              Some {[ 20250101000130 := false; 20250101000135 := false;
                      20250101000140 := false ]};
            Postgres.database := [] |}) = (w', r) ∧
    r = None ∧
    Postgres.migrations (backend w') = Some rows' ∧
    ∀ x, rows' !! x =
      if decide (x ∈ [20250101000140; 20250101000135])
      then None
      else ({[ 20250101000130 := false; 20250101000135 := false;
               20250101000140 := false ]} : gmap Z bool) !! x.
Proof.
  apply (bulk_down_reverts_the_queued_versions Scenario.onAccepting
           [20250101000140; 20250101000135; 20250101000130] 2
           (Scenario.start
              {| Postgres.migrations :=
                   Some {[ 20250101000130 := false; 20250101000135 := false;
                           20250101000140 := false ]};
                 Postgres.database := [] |})
           {[ 20250101000130 := false; 20250101000135 := false;
              20250101000140 := false ]}
           onAccepting_healthy).
  - intros a t Hat. cbn in Hat.
    repeat (apply elem_of_cons in Hat as [[= -> ->]|Hat];
            [eexists; reflexivity|]).
    by apply elem_of_nil in Hat.
  - intros a Ha.
    repeat (apply elem_of_cons in Ha as [->|Ha]; [lia|]).
    by apply elem_of_nil in Ha.
  - reflexivity.
  - reflexivity.
Defined.

(** ** One marker per record *)

Section OneMarker.

Context {D : Type}.
Variable run_script : bytes → D → D * option error.
Variable fault : Postgres.ConnOp → @Postgres.Postgres D → option error.
Variable pgLock pgUnlock : @Postgres.Postgres D → @Postgres.Postgres D * option error.
Variable pgSetVersion :
  Z → bool → @Postgres.Postgres D → @Postgres.Postgres D * option error.
Variable m : Migrate (@Postgres.Postgres D).
Hypothesis Hdrv : databaseDrv m = ExtendedDrv
  (Postgres.PostgresExtras run_script fault pgLock pgUnlock pgSetVersion).

Local Abbreviation held k p := (marked k p ∧ dirtyOnly k p).

Lemma markDirty_step (migr : Migration) p p' r :
  exec_call m (markDirty m migr) p = (p', r) →
  clean p →
  (UpKindMigration migr = false →
     ∃ rows, Postgres.migrations p = Some rows ∧
             is_Some (rows !! int_of_uint (Version migr))) →
  match r with
  | None => held (int_of_uint (Version migr)) p'
  | Some _ => p' = p
  end.
Proof.
  unfold markDirty, exec_call. rewrite Hdrv.
  cbn [AddDirtyMigration UpdateMigrationDirtyFlag Postgres.PostgresExtras].
  intros Hcall Hclean Hrow.
  destruct (UpKindMigration migr).
  - destruct r as [e|].
    + by apply inTransaction_cases in Hcall as [[-> _]|(? & _ & _ & [=])].
    + split; [by eapply AddDirtyMigration_marks_row|].
      by eapply AddDirtyMigration_marks.
  - destruct r as [e|].
    + by apply inTransaction_cases in Hcall as [[-> _]|(? & _ & _ & [=])].
    + split; [eapply UpdateMigrationDirtyFlag_flags; eauto|].
      by eapply UpdateMigrationDirtyFlag_marks.
Qed.

Lemma Run_step k migration p p' r :
  exec_call m (CRun migration) p = (p', r) → held k p → held k p'.
Proof.
  unfold exec_call. rewrite Hdrv. cbn [asDriver Embedded Run Postgres.PostgresExtras].
  intros Hrun [Hm Hd]. split.
  - by eapply Run_marked.
  - by eapply Run_dirtyOnly.
Qed.

Lemma markClean_step (migr : Migration) p p' r :
  exec_call m (markClean m migr) p = (p', r) →
  dirtyOnly (int_of_uint (Version migr)) p →
  match r with
  | None => clean p'
  | Some _ => p' = p
  end.
Proof.
  unfold markClean, exec_call. rewrite Hdrv.
  cbn [UpdateMigrationDirtyFlag RemoveMigration Postgres.PostgresExtras].
  intros Hcall Hdirty.
  destruct (UpKindMigration migr).
  - destruct r as [e|].
    + by apply inTransaction_cases in Hcall as [[-> _]|(? & _ & _ & [=])].
    + by eapply UpdateMigrationDirtyFlag_clears.
  - destruct r as [e|].
    + by apply inTransaction_cases in Hcall as [[-> _]|(? & _ & _ & [=])].
    + by eapply RemoveMigration_clears.
Qed.

(** The executor as its three calls. *)
Lemma handleSingleMigration_steps (migr : Migration) (w : World) :
  handleSingleMigration m migr w =
    match exec_call m (markDirty m migr) (backend w) with
    | (b1, Some e) =>
        (logged (markDirty m migr) w b1,
         Some (Errorf (if UpKindMigration migr
                       then "failed to add dirty migration for version %d: %w"
                       else "failed to set dirty flag for version %d: %w")
                 (Version migr) e))
    | (b1, None) =>
        let w1 := logged (markDirty m migr) w b1 in
        let after (w2 : World) :=
          match exec_call m (markClean m migr) (backend w2) with
          | (b3, Some e) =>
              (logged (markClean m migr) w2 b3,
               Some (Errorf (if UpKindMigration migr
                             then "failed to clear dirty flag for version %d: %w"
                             else "failed to remove migration for version %d: %w")
                       (Version migr) e))
          | (b3, None) => (logged (markClean m migr) w2 b3, None)
          end in
        match Body migr with
        | None => after w1
        | Some _ =>
            match exec_call m (CRun (BufferedBody migr)) b1 with
            | (b2, Some e) =>
                (logged (CRun (BufferedBody migr)) w1 b2,
                 Some (Errorf "failed to run migration %d body: %w"
                         (Version migr) e))
            | (b2, None) => after (logged (CRun (BufferedBody migr)) w1 b2)
            end
        end
    end.
Proof.
  unfold handleSingleMigration, markDirty, markClean, andThen, orErrorf, invoke,
    skip.
  rewrite Hdrv.
  destruct (UpKindMigration migr), (Body migr) as [body|].
  all: repeat match goal with
    | |- context [exec_call m ?c ?b] =>
        destruct (exec_call m c b) as [? [?|]]; cbn [backend logged fst snd]
    end; done.
Qed.

Lemma one_record_one_marker (migr : Migration) (w : World) :
  clean (backend w) →
  (UpKindMigration migr = false →
     ∃ rows, Postgres.migrations (backend w) = Some rows ∧
             is_Some (rows !! int_of_uint (Version migr))) →
  ∃ new,
    trace (handleSingleMigration m migr w).1 = trace w ++ new ∧
    match (handleSingleMigration m migr w).2 with
    | None =>
        ∃ during b,
          new = during ++ [(markClean m migr, b)] ∧ during ≠ [] ∧
          Forall (λ cb, held (int_of_uint (Version migr)) cb.2) during ∧
          clean b ∧ backend (handleSingleMigration m migr w).1 = b
    | Some _ =>
        (new = [(markDirty m migr, backend w)] ∧
         backend (handleSingleMigration m migr w).1 = backend w) ∨
        (new ≠ [] ∧
         Forall (λ cb, held (int_of_uint (Version migr)) cb.2) new ∧
         held (int_of_uint (Version migr))
           (backend (handleSingleMigration m migr w).1))
    end.
Proof.
  intros Hclean Hrow. rewrite handleSingleMigration_steps.
  destruct (exec_call m (markDirty m migr) (backend w)) as [b1 r1] eqn:H1.
  pose proof (markDirty_step migr _ _ _ H1 Hclean Hrow) as Hb1.
  destruct r1 as [e1|].
  { subst b1. exists [(markDirty m migr, backend w)].
    split; [done|]. by left. }
  cbn zeta.
  assert (Hafter : ∀ w2 during,
    trace w2 = trace w ++ during → during ≠ [] →
    Forall (λ cb, held (int_of_uint (Version migr)) cb.2) during →
    held (int_of_uint (Version migr)) (backend w2) →
    let done :=
      match exec_call m (markClean m migr) (backend w2) with
      | (b3, Some e) =>
          (logged (markClean m migr) w2 b3,
           Some (Errorf (if UpKindMigration migr
                         then "failed to clear dirty flag for version %d: %w"
                         else "failed to remove migration for version %d: %w")
                   (Version migr) e))
      | (b3, None) => (logged (markClean m migr) w2 b3, None)
      end in
    ∃ new,
      trace done.1 = trace w ++ new ∧
      match done.2 with
      | None =>
          ∃ during b,
            new = during ++ [(markClean m migr, b)] ∧ during ≠ [] ∧
            Forall (λ cb, held (int_of_uint (Version migr)) cb.2) during ∧
            clean b ∧ backend done.1 = b
      | Some _ =>
          (new = [(markDirty m migr, backend w)] ∧ backend done.1 = backend w) ∨
          (new ≠ [] ∧
           Forall (λ cb, held (int_of_uint (Version migr)) cb.2) new ∧
           held (int_of_uint (Version migr)) (backend done.1))
      end).
  { intros w2 during Htr Hne Hall Hheld.
    destruct (exec_call m (markClean m migr) (backend w2)) as [b3 r3] eqn:H3.
    pose proof (markClean_step migr _ _ _ H3 (proj2 Hheld)) as Hb3.
    destruct r3 as [e3|]; cbn [fst snd trace logged backend].
    - subst b3. exists (during ++ [(markClean m migr, backend w2)]).
      split; [by rewrite Htr, app_assoc|]. right.
      split; [by destruct during|]. split; [|done].
      apply Forall_app. split; [done|]. constructor; [done|]. constructor.
    - exists (during ++ [(markClean m migr, b3)]).
      split; [by rewrite Htr, app_assoc|]. by exists during, b3. }
  destruct (Body migr) as [body|].
  - destruct (exec_call m (CRun (BufferedBody migr)) b1) as [b2 r2] eqn:H2.
    pose proof (Run_step _ _ _ _ _ H2 Hb1) as Hb2.
    destruct r2 as [e2|].
    + exists [(markDirty m migr, b1); (CRun (BufferedBody migr), b2)].
      split; [by cbn; rewrite <- app_assoc|]. right.
      split; [done|]. split; [|done]. repeat (constructor; [done|]); constructor.
    + apply (Hafter _ [(markDirty m migr, b1); (CRun (BufferedBody migr), b2)]);
        [by cbn; rewrite <- app_assoc|done| |done].
      repeat (constructor; [done|]); constructor.
  - apply (Hafter _ [(markDirty m migr, b1)]); [done|done| |done].
    repeat (constructor; [done|]); constructor.
Qed.

End OneMarker.

(** X26.  The history table under the executor, whatever fails on the
    connection (scripts do not touch the migrations table; a row is the
    one under [int64(version)]).  Started on a history without a dirty
    row, with the row of a Down record in place: when the first call
    fails the history is as it was; otherwise, after every call up to the
    last one that succeeds in clearing, exactly the record's row is dirty
    and no other; a record that returns nil leaves no row dirty, and a
    record that fails in its script or in its last call keeps its marker.
    The consumer loop, which stops at the first record that fails, so
    leaves at most one row dirty after every driver call, and none when
    it returns nil. *)
Theorem consumer_loop_keeps_one_marker {D : Type}
    (run_script : bytes → D → D * option error)
    (fault : Postgres.ConnOp → @Postgres.Postgres D → option error)
    (pgLock pgUnlock : @Postgres.Postgres D → @Postgres.Postgres D * option error)
    (pgSetVersion :
       Z → bool → @Postgres.Postgres D → @Postgres.Postgres D * option error)
    (m : Migrate (@Postgres.Postgres D)) :
  databaseDrv m = ExtendedDrv
    (Postgres.PostgresExtras run_script fault pgLock pgUnlock pgSetVersion) →
  (∀ (migr : Migration) (w : World),
     clean (backend w) →
     (UpKindMigration migr = false →
        ∃ rows, Postgres.migrations (backend w) = Some rows ∧
                is_Some (rows !! int_of_uint (Version migr))) →
     ∃ new,
       trace (handleSingleMigration m migr w).1 = trace w ++ new ∧
       match (handleSingleMigration m migr w).2 with
       | None =>
           ∃ during b,
             new = during ++ [(markClean m migr, b)] ∧ during ≠ [] ∧
             Forall (λ cb, marked (int_of_uint (Version migr)) cb.2 ∧
                           dirtyOnly (int_of_uint (Version migr)) cb.2) during ∧
             clean b ∧ backend (handleSingleMigration m migr w).1 = b
       | Some _ =>
           (new = [(markDirty m migr, backend w)] ∧
            backend (handleSingleMigration m migr w).1 = backend w) ∨
           (new ≠ [] ∧
            Forall (λ cb, marked (int_of_uint (Version migr)) cb.2 ∧
                          dirtyOnly (int_of_uint (Version migr)) cb.2) new ∧
            marked (int_of_uint (Version migr))
              (backend (handleSingleMigration m migr w).1) ∧
            dirtyOnly (int_of_uint (Version migr))
              (backend (handleSingleMigration m migr w).1))
       end) ∧
  (∀ (ret : list chan_value) (w : World),
     clean (backend w) →
     ∃ new,
       trace (runMigrations m ret w).1 = trace w ++ new ∧
       Forall (λ cb, atMostOneDirty cb.2) new ∧
       atMostOneDirty (backend (runMigrations m ret w).1) ∧
       ((runMigrations m ret w).2 = None →
          clean (backend (runMigrations m ret w).1))).
Proof.
  intros Hdrv. split.
  - intros migr w. by eapply one_record_one_marker.
  - intros ret w. by eapply runMigrations_markers.
Qed.

Lemma consumer_loop_keeps_one_marker_witness :
  ∃ new,
    trace (handleSingleMigration (Scenario.onPostgres Scenario.oneCorrupted)
             (Scenario.upOf Scenario.oneCorrupted 20250101000135)
             (Scenario.start Scenario.fresh)).1
      = trace (Scenario.start Scenario.fresh) ++ new ∧
    (new = [(markDirty (Scenario.onPostgres Scenario.oneCorrupted)
               (Scenario.upOf Scenario.oneCorrupted 20250101000135),
             backend (Scenario.start Scenario.fresh))] ∧
     backend (handleSingleMigration (Scenario.onPostgres Scenario.oneCorrupted)
                (Scenario.upOf Scenario.oneCorrupted 20250101000135)
                (Scenario.start Scenario.fresh)).1
       = backend (Scenario.start Scenario.fresh) ∨
     new ≠ [] ∧
     Forall (λ cb, marked (int_of_uint 20250101000135) cb.2 ∧
                   dirtyOnly (int_of_uint 20250101000135) cb.2) new ∧
     marked (int_of_uint 20250101000135)
       (backend (handleSingleMigration (Scenario.onPostgres Scenario.oneCorrupted)
                   (Scenario.upOf Scenario.oneCorrupted 20250101000135)
                   (Scenario.start Scenario.fresh)).1) ∧
     dirtyOnly (int_of_uint 20250101000135)
       (backend (handleSingleMigration (Scenario.onPostgres Scenario.oneCorrupted)
                   (Scenario.upOf Scenario.oneCorrupted 20250101000135)
                   (Scenario.start Scenario.fresh)).1)).
Proof.
  destruct (consumer_loop_keeps_one_marker Scenario.run_script Scenario.healthy
              Scenario.unlocked Scenario.unlocked (λ _ _ p, (p, None))
              (Scenario.onPostgres Scenario.oneCorrupted) eq_refl) as [H _].
  apply (H (Scenario.upOf Scenario.oneCorrupted 20250101000135)
           (Scenario.start Scenario.fresh)).
  - intros rows v [= <-]. by rewrite lookup_empty.
  - intros Hdown. discriminate Hdown.
Defined.

(** ** Opening the driver on a connection *)

Module ConnectFacts.
Import Connect.

Lemma append_nil (b : string) : EmptyString +:+ b = b.
Proof. reflexivity. Qed.

Lemma append_cons (c : Ascii.ascii) (a b : string) :
  String c a +:+ b = String c (a +:+ b).
Proof. reflexivity. Qed.

Lemma length_append (a b : string) :
  String.length (a +:+ b) = (String.length a + String.length b)%nat.
Proof.
  induction a as [|c a IH]; [done|]. rewrite append_cons. cbn. by f_equal.
Qed.

Lemma length_zero (s : string) :
  (String.length s =? 0)%nat = bool_decide (s = EmptyString).
Proof. by destruct s. Qed.

Lemma append_closing_quote (g rest : string) :
  (g +:+ String quote EmptyString) +:+ rest = g +:+ String quote rest.
Proof.
  induction g as [|c g IH]; [done|]. by rewrite !append_cons, IH.
Qed.

Lemma lacks_cons (c c' : Ascii.ascii) (s : string) :
  lacks c (String c' s) = true ↔ Ascii.eqb c' c = false ∧ lacks c s = true.
Proof. cbn. by rewrite andb_true_iff, negb_true_iff. Qed.

(** Text without a quote holds no match. *)
Lemma findFrom_plain (pre rest : string) :
  lacks quote pre = true → findFrom 0 (pre +:+ rest) = findFrom 0 rest.
Proof.
  induction pre as [|c pre IH]; [done|].
  intros [Hc Hpre]%lacks_cons. rewrite append_cons. cbn. rewrite Hc. auto.
Qed.

Lemma findFrom_none (s : string) : lacks quote s = true → findFrom 0 s = [].
Proof.
  induction s as [|c s IH]; [done|].
  intros [Hc Hs]%lacks_cons. cbn. rewrite Hc. auto.
Qed.

Lemma closing_group (g after : string) :
  lacks quote g = true → lacks newline g = true →
  closing (g +:+ String quote after) = Some (g, after).
Proof.
  induction g as [|c g IH]; [done|].
  intros [Hq Hg]%lacks_cons [Hn Hg']%lacks_cons. rewrite append_cons. cbn.
  by rewrite Hq, Hn, IH.
Qed.

Lemma findFrom_skip (g : string) (n : nat) (rest : string) :
  findFrom (String.length g + n) (g +:+ rest) = findFrom n rest.
Proof.
  induction g as [|c g IH]; [done|]. rewrite append_cons. by cbn.
Qed.

(** A quoted group is one match, and the search goes on behind it. *)
Lemma findFrom_quoted (g rest : string) :
  lacks quote g = true → lacks newline g = true →
  findFrom 0 (quoted g +:+ rest) = (quoted g, g) :: findFrom 0 rest.
Proof.
  intros Hq Hn. unfold quoted. rewrite append_cons.
  rewrite append_closing_quote. cbn [findFrom].
  change (Ascii.eqb quote quote) with true. cbn match.
  rewrite closing_group by done. f_equal.
  replace (S (String.length g)) with (String.length g + 1)%nat by lia.
  by rewrite findFrom_skip.
Qed.

Lemma FindAllStringSubmatch_joined (pre : string) (parts : list (string * string)) :
  lacks quote pre = true → wellFormed parts →
  FindAllStringSubmatch (pre +:+ joined parts) = (λ p, (quoted p.1, p.1)) <$> parts.
Proof.
  intros Hpre Hparts. unfold FindAllStringSubmatch.
  rewrite findFrom_plain by done. clear pre Hpre.
  induction Hparts as [|[g sep] parts (Hq & Hn & Hsep) _ IH]; [done|].
  cbn [joined fmap list_fmap fst snd].
  rewrite findFrom_quoted, findFrom_plain by done. by f_equal.
Qed.

Lemma closing_lacks (s g after : string) :
  closing s = Some (g, after) →
  lacks quote g = true ∧ lacks newline g = true.
Proof.
  revert g after. induction s as [|c s IH]; intros g after; cbn; [done|].
  destruct (Ascii.eqb c quote) eqn:Hq; [by intros [= <- _]|].
  destruct (Ascii.eqb c newline) eqn:Hn; [done|].
  destruct (closing s) as [[g' after']|]; [|done].
  intros [= <- _]. destruct (IH g' after' eq_refl) as [? ?].
  by rewrite !(proj2 (lacks_cons _ _ _)).
Qed.

(** Every match is a quoted group without a quote or a newline in it. *)
Lemma findFrom_groups (s : string) : ∀ n m,
  m ∈ findFrom n s →
  m.1 = quoted m.2 ∧ lacks quote m.2 = true ∧ lacks newline m.2 = true.
Proof.
  induction s as [|c s IH]; intros n m; cbn; [by intros ?%elem_of_nil|].
  destruct n as [|n]; [|by apply IH].
  destruct (Ascii.eqb c quote); [|by apply IH].
  destruct (closing s) as [[g after]|] eqn:Hclose; [|by apply IH].
  intros [->|Hm]%elem_of_cons; [|by eapply IH].
  split; [done|]. by eapply closing_lacks.
Qed.

Section Opening.

Variable DefaultMigrationsTable : string.

Local Abbreviation WithConnection := (Connect.WithConnection DefaultMigrationsTable).
Local Abbreviation plainNames := (Connect.plainNames DefaultMigrationsTable).
Local Abbreviation prepared := (Connect.prepared DefaultMigrationsTable).

Lemma WithConnection_answers (conn : Conn) (config : Config) :
  answers conn config →
  WithConnection conn (Some config) =
    match quotedNames (prepared conn config) with
    | (config, Some ended) => (Some config, ended)
    | (config, None) =>
        match ensureVersionTable conn config with
        | Some err => (Some config, Failed (OfConn err))
        | None => (Some config, Opened config)
        end
    end.
Proof.
  intros (Hping & Hdb & Hschema).
  unfold Connect.WithConnection, Connect.prepared, databaseName, schemaName,
    databaseOf, schemaOf.
  rewrite Hping. destruct config as [table isQuoted db schema ms mt]. cbn in *.
  case_bool_decide as Hd.
  - destruct (Hdb Hd) as (name & -> & Hname).
    rewrite length_zero, bool_decide_eq_false_2 by done. cbn.
    case_bool_decide as Hs; [|done].
    by destruct (Hschema Hs) as (name' & ->).
  - cbn. case_bool_decide as Hs; [|done].
    by destruct (Hschema Hs) as (name' & ->).
Qed.

Lemma prepared_fields (conn : Conn) (config : Config) :
  MigrationsTableQuoted (prepared conn config) = MigrationsTableQuoted config ∧
  DatabaseName (prepared conn config) = databaseOf conn config ∧
  SchemaName (prepared conn config) = schemaOf conn config ∧
  migrationsSchemaName (prepared conn config) = schemaOf conn config ∧
  migrationsTableName (prepared conn config) = MigrationsTable (prepared conn config) ∧
  MigrationsTable (prepared conn config) =
    if (String.length (MigrationsTable config) =? 0)%nat
    then DefaultMigrationsTable else MigrationsTable config.
Proof.
  unfold Connect.prepared, Connect.plainNames. cbn.
  by destruct (String.length (MigrationsTable config) =? 0)%nat.
Qed.

Lemma joined_nonempty (pre : string) (parts : list (string * string)) :
  parts ≠ [] → (String.length (pre +:+ joined parts) =? 0)%nat = false.
Proof.
  destruct parts as [|[g sep] parts]; [done|]. intros _.
  rewrite length_append. cbn [joined]. unfold quoted.
  rewrite append_cons. cbn [String.length]. apply Nat.eqb_neq. lia.
Qed.

(** What a successful call needed from the connection. *)
Lemma WithConnection_opened_answers (conn : Conn) (config px : Config) :
  (WithConnection conn (Some config)).2 = Opened px → answers conn config.
Proof.
  unfold Connect.WithConnection, answers, databaseName, schemaName.
  destruct (PingContext conn); [done|].
  case_bool_decide as Hd.
  - destruct (current_database conn) as [name|]; [|done].
    rewrite length_zero. case_bool_decide as Hname; [done|].
    case_bool_decide as Hs.
    + destruct (current_schema conn) as [[name'|]|]; [|done..].
      intros _. split; [done|]. split; intros _; by eexists.
    + intros _. split; [done|]. split; [intros _; by eexists|done].
  - case_bool_decide as Hs.
    + destruct (current_schema conn) as [[name'|]|]; [|done..].
      intros _. split; [done|]. split; [done|intros _; by eexists].
    + done.
Qed.

Lemma databaseOf_answers (conn : Conn) (config : Config) :
  answers conn config →
  databaseOf conn config ≠ EmptyString ∧
  (DatabaseName config ≠ EmptyString →
     databaseOf conn config = DatabaseName config) ∧
  (SchemaName config ≠ EmptyString →
     schemaOf conn config = SchemaName config).
Proof.
  intros (_ & Hdb & _). unfold databaseOf, schemaOf.
  split; [|split; intros H; by rewrite bool_decide_eq_false_2].
  case_bool_decide as Hd; [|done].
  by destruct (Hdb Hd) as (name & -> & Hname).
Qed.

(** X21.  With [MigrationsTableQuoted] set and a connection that answers,
    a table name holding one or two quoted groups, with any text without a
    quote before, between and after them, is parsed: the last group is the
    table name, and the first of two groups is the schema name (with one
    group the schema stays the config's or the connection's).  The call
    then ends as [ensureVersionTable] does. *)
Theorem quoted_table_name_is_parsed (conn : Conn) (config : Config)
    (pre : string) (parts : list (string * string)) :
  MigrationsTableQuoted config = true →
  MigrationsTable config = pre +:+ joined parts →
  lacks quote pre = true →
  wellFormed parts →
  (0 < length parts ≤ 2)%nat →
  answers conn config →
  ∃ px,
    WithConnection conn (Some config) =
      (Some px, match ensureVersionTable conn px with
                | Some err => Failed (OfConn err)
                | None => Opened px
                end) ∧
    Some (migrationsTableName px) = fst <$> last parts ∧
    migrationsSchemaName px =
      match parts with
      | [(schema, _); _] => schema
      | _ => schemaOf conn config
      end ∧
    MigrationsTable px = MigrationsTable config ∧
    DatabaseName px = databaseOf conn config ∧
    SchemaName px = schemaOf conn config.
Proof.
  intros Hquoted Htable Hpre Hparts Hlen Hanswers.
  rewrite WithConnection_answers by done.
  destruct (prepared_fields conn config)
    as (Hq & Hd & Hs & Hms & Hmt & Htab).
  rewrite Htable, joined_nonempty in Htab by (intros ->; cbn in Hlen; lia).
  unfold quotedNames. rewrite Hq, Hquoted, Htab.
  rewrite FindAllStringSubmatch_joined by done.
  destruct parts as [|[t post] [|[t' post'] [|]]]; cbn in Hlen; try lia.
  - cbn -[Connect.prepared].
    exists (withMigrationsTableName t (prepared conn config)).
    split; [by destruct (ensureVersionTable conn _)|].
    cbn -[Connect.prepared]. by rewrite Htab, Htable.
  - cbn -[Connect.prepared].
    exists (withMigrationsSchemaName t
              (withMigrationsTableName t' (prepared conn config))).
    split; [by destruct (ensureVersionTable conn _)|].
    cbn -[Connect.prepared]. by rewrite Htab, Htable.
Qed.

(** X22.  With [MigrationsTableQuoted] set and no quote in the table name
    (the default name when the config gives none), a call on a connection
    that answers indexes the empty list of matches and panics;
    [ensureVersionTable] is not reached. *)
Theorem quoted_flag_without_a_quote_panics (conn : Conn) (config : Config) :
  MigrationsTableQuoted config = true →
  lacks quote
    (if (String.length (MigrationsTable config) =? 0)%nat
     then DefaultMigrationsTable else MigrationsTable config) = true →
  answers conn config →
  (WithConnection conn (Some config)).2 = Panicked.
Proof.
  intros Hquoted Hplain Hanswers.
  rewrite WithConnection_answers by done.
  destruct (prepared_fields conn config)
    as (Hq & _ & _ & _ & _ & Htab).
  unfold quotedNames, FindAllStringSubmatch.
  by rewrite Hq, Hquoted, Htab, findFrom_none.
Qed.

(** X23.  With [MigrationsTableQuoted] set, a table name holding more than
    two quoted groups makes the call fail with the too-many-dots error,
    whatever [ensureVersionTable] would answer; the config behind the
    caller's pointer already carries the last group as its table name. *)
Theorem more_than_two_quoted_groups_fail (conn : Conn) (config : Config)
    (pre : string) (parts : list (string * string)) :
  MigrationsTableQuoted config = true →
  MigrationsTable config = pre +:+ joined parts →
  lacks quote pre = true →
  wellFormed parts →
  (2 < length parts)%nat →
  answers conn config →
  ∃ px,
    WithConnection conn (Some config) =
      (Some px, Failed (TooManyDots (MigrationsTable config))) ∧
    Some (migrationsTableName px) = fst <$> last parts ∧
    migrationsSchemaName px = schemaOf conn config.
Proof.
  intros Hquoted Htable Hpre Hparts Hlen Hanswers.
  rewrite WithConnection_answers by done.
  destruct (prepared_fields conn config)
    as (Hq & Hd & Hs & Hms & Hmt & Htab).
  rewrite Htable, joined_nonempty in Htab by (intros ->; cbn in Hlen; lia).
  unfold quotedNames. rewrite Hq, Hquoted, Htab.
  rewrite FindAllStringSubmatch_joined by done.
  rewrite fmap_last, length_fmap.
  destruct (last parts) as [[t post]|] eqn:Hlast.
  - cbn [fmap option_fmap option_map].
    destruct (Nat.eqb_spec (length parts) 2) as [Heq|_]; [lia|].
    destruct (Nat.ltb_spec 2 (length parts)) as [_|Hle]; [|lia].
    cbn -[Connect.prepared]. rewrite Htab, Htable.
    eexists. split; [done|]. cbn -[Connect.prepared]. by rewrite Hms.
  - apply last_None in Hlast as ->. cbn in Hlen. lia.
Qed.

(** X24.  A call that returns a driver pinged the connection, got no error
    from [ensureVersionTable], and hands the driver the config behind the
    caller's pointer.  That config has a database name that is not empty,
    keeps the names the caller gave, has the default table name when the
    caller gave none, and, without [MigrationsTableQuoted], uses the table
    and schema names as they are. *)
Theorem opened_config_is_complete (conn : Conn) (config px : Config) :
  (WithConnection conn (Some config)).2 = Opened px →
  PingContext conn = None ∧
  ensureVersionTable conn px = None ∧
  (WithConnection conn (Some config)).1 = Some px ∧
  DatabaseName px ≠ EmptyString ∧
  (DatabaseName config ≠ EmptyString → DatabaseName px = DatabaseName config) ∧
  (SchemaName config ≠ EmptyString → SchemaName px = SchemaName config) ∧
  MigrationsTableQuoted px = MigrationsTableQuoted config ∧
  MigrationsTable px =
    (if (String.length (MigrationsTable config) =? 0)%nat
     then DefaultMigrationsTable else MigrationsTable config) ∧
  (MigrationsTableQuoted config = false →
     migrationsTableName px = MigrationsTable px ∧
     migrationsSchemaName px = SchemaName px).
Proof.
  intros Hopened.
  pose proof (WithConnection_opened_answers conn config px Hopened) as Hanswers.
  destruct (databaseOf_answers conn config Hanswers) as (Hdb & Hdb' & Hs').
  revert Hopened. rewrite WithConnection_answers by done.
  destruct (prepared_fields conn config)
    as (Hq & Hd & Hs & Hms & Hmt & Htab).
  destruct Hanswers as (Hping & _).
  assert (Hkept : ∀ c ended,
    quotedNames (prepared conn config) = (c, ended) →
    MigrationsTable c = MigrationsTable (prepared conn config) ∧
    MigrationsTableQuoted c = MigrationsTableQuoted (prepared conn config) ∧
    DatabaseName c = DatabaseName (prepared conn config) ∧
    SchemaName c = SchemaName (prepared conn config) ∧
    (MigrationsTableQuoted config = false → c = prepared conn config)).
  { intros c ended. unfold quotedNames. rewrite Hq.
    destruct (MigrationsTableQuoted config); [|by intros [= <- _]].
    destruct (last _) as [table|]; [|by intros [= <- _]].
    destruct (_ =? 2)%nat.
    - destruct (_ !! _) as [schema|]; by intros [= <- _].
    - destruct (2 <? _)%nat; by intros [= <- _]. }
  destruct (quotedNames (prepared conn config)) as [c ended] eqn:Hnames.
  destruct (Hkept c ended eq_refl) as (Hc1 & Hc2 & Hc3 & Hc4 & Hc5).
  destruct ended as [ended|]; cbn [snd fst].
  { intros ->. revert Hnames. unfold quotedNames.
    destruct (MigrationsTableQuoted _); [|done].
    destruct (last _) as [table|]; [|done].
    destruct (_ =? 2)%nat.
    - by destruct (_ !! _) as [schema|].
    - by destruct (2 <? _)%nat. }
  destruct (ensureVersionTable conn c) eqn:Hensure; cbn [snd fst]; [done|].
  intros [= <-].
  split; [done|]. split; [done|]. split; [done|].
  split; [by rewrite Hc3, Hd|].
  split; [intros ?; rewrite Hc3, Hd; auto|].
  split; [intros ?; rewrite Hc4, Hs; auto|].
  split; [by rewrite Hc2|].
  split; [by rewrite Hc1|].
  intros Hplain. rewrite (Hc5 Hplain). by rewrite Hmt, Hms, Hs.
Qed.

(** X25.  With [MigrationsTableQuoted] set, the table name of a driver
    that was returned is the last quoted group of the config's table name
    and holds no quote and no newline; there are one or two groups; the
    schema name is the config's or the connection's when there is one
    group, and it is the first group, again without a quote or a newline,
    when there are two. *)
Theorem opened_quoted_names_hold_no_quote (conn : Conn) (config px : Config) :
  (WithConnection conn (Some config)).2 = Opened px →
  MigrationsTableQuoted config = true →
  last (FindAllStringSubmatch (MigrationsTable px)) =
    Some (quoted (migrationsTableName px), migrationsTableName px) ∧
  lacks quote (migrationsTableName px) = true ∧
  lacks newline (migrationsTableName px) = true ∧
  (length (FindAllStringSubmatch (MigrationsTable px)) = 1%nat ∧
     migrationsSchemaName px = SchemaName px ∨
   length (FindAllStringSubmatch (MigrationsTable px)) = 2%nat ∧
     FindAllStringSubmatch (MigrationsTable px) !! 0%nat =
       Some (quoted (migrationsSchemaName px), migrationsSchemaName px) ∧
     lacks quote (migrationsSchemaName px) = true ∧
     lacks newline (migrationsSchemaName px) = true).
Proof.
  intros Hopened Hquoted.
  pose proof (WithConnection_opened_answers conn config px Hopened) as Hanswers.
  revert Hopened. rewrite WithConnection_answers by done.
  destruct (prepared_fields conn config)
    as (Hq & Hd & Hs & Hms & Hmt & Htab).
  unfold quotedNames. rewrite Hq, Hquoted.
  set (result := FindAllStringSubmatch (MigrationsTable (prepared conn config))).
  assert (Hgroups : ∀ m, m ∈ result →
    m.1 = quoted m.2 ∧ lacks quote m.2 = true ∧ lacks newline m.2 = true)
    by (intros m; apply findFrom_groups).
  destruct (last result) as [table|] eqn:Hlast; [|done].
  assert (Htable : table ∈ result).
  { apply last_Some in Hlast as [l' ->]. apply elem_of_app. right. by left. }
  destruct (Hgroups table Htable) as (Hwhole & Htq & Htn).
  destruct (Nat.eqb_spec (length result) 2) as [Htwo|Hnot].
  - destruct (result !! 0%nat) as [schema|] eqn:Hschema; [|done].
    assert (Hin : schema ∈ result) by by eapply list_elem_of_lookup_2.
    destruct (Hgroups schema Hin) as (Hswhole & Hsq & Hsn).
    destruct (ensureVersionTable conn _); [done|]. cbn [snd].
    intros [= <-]. cbn -[Connect.prepared FindAllStringSubmatch].
    fold result. rewrite Hlast.
    split; [by destruct table as [? ?]; cbn in *; subst|].
    split; [done|]. split; [done|]. right.
    split; [done|]. split; [|done]. rewrite Hschema.
    by destruct schema as [? ?]; cbn in *; subst.
  - destruct (Nat.ltb_spec 2 (length result)) as [|Hle]; [done|].
    destruct (ensureVersionTable conn _); [done|]. cbn [snd].
    intros [= <-]. cbn -[Connect.prepared FindAllStringSubmatch].
    fold result. rewrite Hlast.
    split; [by destruct table as [? ?]; cbn in *; subst|].
    split; [done|]. split; [done|]. left. split; [|by rewrite Hms, Hs].
    assert (length result ≠ 0%nat); [|lia].
    intros Hnil%length_zero_iff_nil. by rewrite Hnil in Hlast.
Qed.

End Opening.

Lemma quoted_table_name_is_parsed_witness :
  ∃ px,
    Connect.WithConnection "schema_migrations" live
      (Some (named (joined [("public", "."); ("history", EmptyString)]) true)) =
      (Some px, match ensureVersionTable live px with
                | Some err => Failed (OfConn err)
                | None => Opened px
                end) ∧
    Some (migrationsTableName px) =
      fst <$> last [("public", "."); ("history", EmptyString)] ∧
    migrationsSchemaName px = "public" ∧
    MigrationsTable px = joined [("public", "."); ("history", EmptyString)] ∧
    DatabaseName px =
      databaseOf live
        (named (joined [("public", "."); ("history", EmptyString)]) true) ∧
    SchemaName px =
      schemaOf live
        (named (joined [("public", "."); ("history", EmptyString)]) true).
Proof.
  apply (quoted_table_name_is_parsed "schema_migrations" live
           (named (joined [("public", "."); ("history", EmptyString)]) true)
           EmptyString [("public", "."); ("history", EmptyString)]).
  - reflexivity.
  - reflexivity.
  - reflexivity.
  - repeat constructor.
  - cbn. lia.
  - split; [reflexivity|]. split; intros _; by eexists.
Defined.

Lemma quoted_flag_without_a_quote_panics_witness :
  (Connect.WithConnection "schema_migrations" live
     (Some (named EmptyString true))).2 = Panicked.
Proof.
  apply (quoted_flag_without_a_quote_panics "schema_migrations" live (named EmptyString true)).
  - reflexivity.
  - reflexivity.
  - split; [reflexivity|]. split; intros _; by eexists.
Defined.

Lemma more_than_two_quoted_groups_fail_witness :
  ∃ px,
    Connect.WithConnection "schema_migrations" live
      (Some (named (joined [("db", "."); ("public", "."); ("history", EmptyString)])
               true)) =
      (Some px,
       Failed (TooManyDots
                 (joined [("db", "."); ("public", "."); ("history", EmptyString)]))) ∧
    Some (migrationsTableName px) =
      fst <$> last [("db", "."); ("public", "."); ("history", EmptyString)] ∧
    migrationsSchemaName px =
      schemaOf live
        (named (joined [("db", "."); ("public", "."); ("history", EmptyString)])
           true).
Proof.
  apply (more_than_two_quoted_groups_fail "schema_migrations" live
           (named (joined [("db", "."); ("public", "."); ("history", EmptyString)])
              true)
           EmptyString [("db", "."); ("public", "."); ("history", EmptyString)]).
  - reflexivity.
  - reflexivity.
  - reflexivity.
  - repeat constructor.
  - cbn. lia.
  - split; [reflexivity|]. split; intros _; by eexists.
Defined.

Lemma opened_config_is_complete_witness :
  PingContext live = None ∧
  ensureVersionTable live
    (mkConfig "schema_migrations" false "postgres" "public" "public"
       "schema_migrations") = None ∧
  (Connect.WithConnection "schema_migrations" live
     (Some (named EmptyString false))).1 =
    Some (mkConfig "schema_migrations" false "postgres" "public" "public"
            "schema_migrations") ∧
  DatabaseName
    (mkConfig "schema_migrations" false "postgres" "public" "public"
       "schema_migrations") ≠ EmptyString ∧
  (DatabaseName (named EmptyString false) ≠ EmptyString →
     DatabaseName
       (mkConfig "schema_migrations" false "postgres" "public" "public"
          "schema_migrations") = DatabaseName (named EmptyString false)) ∧
  (SchemaName (named EmptyString false) ≠ EmptyString →
     SchemaName
       (mkConfig "schema_migrations" false "postgres" "public" "public"
          "schema_migrations") = SchemaName (named EmptyString false)) ∧
  MigrationsTableQuoted
    (mkConfig "schema_migrations" false "postgres" "public" "public"
       "schema_migrations") = MigrationsTableQuoted (named EmptyString false) ∧
  MigrationsTable
    (mkConfig "schema_migrations" false "postgres" "public" "public"
       "schema_migrations") =
    (if (String.length (MigrationsTable (named EmptyString false)) =? 0)%nat
     then "schema_migrations" else MigrationsTable (named EmptyString false)) ∧
  (MigrationsTableQuoted (named EmptyString false) = false →
     migrationsTableName
       (mkConfig "schema_migrations" false "postgres" "public" "public"
          "schema_migrations") =
       MigrationsTable
         (mkConfig "schema_migrations" false "postgres" "public" "public"
            "schema_migrations") ∧
     migrationsSchemaName
       (mkConfig "schema_migrations" false "postgres" "public" "public"
          "schema_migrations") =
       SchemaName
         (mkConfig "schema_migrations" false "postgres" "public" "public"
            "schema_migrations")).
Proof.
  apply (opened_config_is_complete "schema_migrations" live (named EmptyString false)
           (mkConfig "schema_migrations" false "postgres" "public" "public"
              "schema_migrations")).
  reflexivity.
Defined.

Lemma opened_quoted_names_hold_no_quote_witness :
  last (FindAllStringSubmatch
          (MigrationsTable
             (mkConfig (joined [("audit", "."); ("history", EmptyString)]) true
                "postgres" "public" "audit" "history"))) =
    Some (quoted "history", "history"%string) ∧
  lacks quote "history" = true ∧
  lacks newline "history" = true ∧
  (length (FindAllStringSubmatch
             (joined [("audit", "."); ("history", EmptyString)])) = 1%nat ∧
     "audit"%string = "public"%string ∨
   length (FindAllStringSubmatch
             (joined [("audit", "."); ("history", EmptyString)])) = 2%nat ∧
     FindAllStringSubmatch
       (joined [("audit", "."); ("history", EmptyString)]) !! 0%nat =
       Some (quoted "audit", "audit"%string) ∧
     lacks quote "audit" = true ∧
     lacks newline "audit" = true).
Proof.
  apply (opened_quoted_names_hold_no_quote "schema_migrations" live
           (named (joined [("audit", "."); ("history", EmptyString)]) true)
           (mkConfig (joined [("audit", "."); ("history", EmptyString)]) true
              "postgres" "public" "audit" "history")).
  - reflexivity.
  - reflexivity.
Defined.

End ConnectFacts.
